(** * HollowNoGo MCTS agent (agent.h): a shallow embedding and its properties

    The development follows src/agent.h:
    - [agent], [random_agent], [player], [MCTS_player]: construction from a
      key=value option string;
    - [Node] and the search tree, kept in a store addressed by index, with
      the parent back-reference and the ordered children of the source;
    - [select], [expand], [simulation], [backpropogation], [greedy_select]
      and the timed loop of [take_action].

    board.h and action.h are not part of the sources at hand: the board, the
    legality verdict of a placement, the random engine and libm's [log] are
    taken as parameters (classes [Board] and [StdLib]). *)

From Stdlib Require Import ZArith List Floats String Ascii Lia.
From stdpp Require Import base option list gmap strings.

Local Open Scope Z_scope.

(* Decimal literals such as 0.2 denote the nearest double, as in C++. *)
Set Warnings "-inexact-float".

(** ** Collaborators taken as parameters *)

(** board::piece_type, as far as agent.h uses it. *)
Inductive piece_type := empty | black | white.

#[global] Instance piece_type_eq_dec : EqDecision piece_type.
Proof. solve_decision. Defined.

(** action::place(i, who): a placement of side [who] at linear index [i]. *)
Record place := Place { place_index : nat; place_who : piece_type }.

#[global] Instance place_eq_dec : EqDecision place.
Proof. solve_decision. Defined.

(** action: either the default-constructed action() or a placement. *)
Inductive action :=
  | action_default
  | action_place (p : place).

(** The interface of board.h and action.h used by agent.h.
    [cell b i j] is [b[i][j]]; [apply m b] is [m.apply(b)]: the board as the
    call leaves it, and whether the verdict equals board::legal;
    [default_place] is the default-constructed action::place. *)
Class Board := {
  board : Type;
  cell : board → nat → nat → piece_type;
  apply : place → board → board * bool;
  default_place : place
}.

(** The interface of the C++ standard library used by agent.h:
    std::default_random_engine with its default state, the seeding
    [engine.seed(int(std::stod(value)))] ([None] when stod throws),
    std::shuffle on a vector of placements, and <cmath>'s log. *)
Class StdLib := {
  engine : Type;
  default_engine : engine;
  seed_engine : string → option engine;
  shuffle : list place → engine → list place * engine;
  log : float → float
}.

(** ** agent: the option string *)

Module Agent.

(** The whitespace that [ss >> pair] skips and stops at. *)
Definition is_space (c : ascii) : bool :=
  let n := nat_of_ascii c in
  (Nat.eqb n 32 || (Nat.leb 9 n && Nat.leb n 13))%bool.

(** [for (std::string pair; ss >> pair; )]: the whitespace-separated words
    of the stream; [cur] is the word being read. *)
Fixpoint words_from (cur : string) (s : string) : list string :=
  match s with
  | EmptyString => match cur with EmptyString => [] | _ => [cur] end
  | String c s' =>
      if is_space c
      then match cur with
           | EmptyString => words_from EmptyString s'
           | _ => cur :: words_from EmptyString s'
           end
      else words_from (cur +:+ String c EmptyString) s'
  end.

Definition words (s : string) : list string := words_from EmptyString s.

(** [pair.find('=')]; [None] is npos. *)
Fixpoint find_eq (s : string) : option nat :=
  match s with
  | EmptyString => None
  | String c s' =>
      if Ascii.eqb c "="%char then Some 0%nat else S <$> find_eq s'
  end.

(** [pair.substr(0, pair.find('='))]: with npos the whole word. *)
Definition key_of (pair : string) : string :=
  match find_eq pair with
  | Some p => String.substring 0 p pair
  | None => pair
  end.

(** [pair.substr(pair.find('=') + 1)]: npos + 1 wraps to 0, the whole word. *)
Definition value_of (pair : string) : string :=
  match find_eq pair with
  | Some p => String.substring (S p) (String.length pair - S p) pair
  | None => pair
  end.

(** [meta[key] = { value }] for every word, in order. *)
Definition parse_meta (s : string) : gmap string string :=
  foldl (λ meta pair, <[key_of pair := value_of pair]> meta) ∅ (words s).

(** Whether some word of [args] has key [k]. *)
Definition has_key (k : string) (args : string) : bool :=
  existsb (λ pair, bool_decide (key_of pair = k)) (words args).

(** agent::agent(args). *)
Definition agent (args : string) : gmap string string :=
  parse_meta ("name=unknown role=unknown " +:+ args).

(** property(key) is meta.at(key): [None] when at() throws. *)
Definition property (meta : gmap string string) (key : string) : option string :=
  meta !! key.

Definition name (meta : gmap string string) : option string := property meta "name".
Definition role (meta : gmap string string) : option string := property meta "role".

(** notify(msg): [meta[msg.substr(0, msg.find('='))] = { msg.substr(msg.find('=') + 1) }]. *)
Definition notify (meta : gmap string string) (msg : string) : gmap string string :=
  <[key_of msg := value_of msg]> meta.

(** What a constructor throws. *)
Inductive ctor_error :=
  | invalid_name (n : string)
  | invalid_role (r : string)
  | missing_property
  | invalid_seed.

Inductive result (A : Type) :=
  | Ok (a : A)
  | Throw (e : ctor_error).
Arguments Ok {A} a.
Arguments Throw {A} e.

End Agent.

Import Agent.

(** ** The agents with randomness *)

Section Players.
Context `{B : Board} `{L : StdLib}.

(** random_agent::random_agent(args): the meta of agent(args) and the engine,
    seeded when a seed is given. *)
Definition random_agent (args : string) : result (gmap string string * engine) :=
  let meta := agent args in
  match meta !! "seed" with
  | Some v =>
      match seed_engine v with
      | Some e => Ok (meta, e)
      | None => Throw invalid_seed
      end
  | None => Ok (meta, default_engine)
  end.

(** [name().find_first_of("[]():; ") != npos]. *)
Fixpoint has_invalid_char (s : string) : bool :=
  match s with
  | EmptyString => false
  | String c s' =>
      (if decide (c ∈ ["["; "]"; "("; ")"; ":"; ";"; " "]%char) then true
       else has_invalid_char s')
  end.

(** The checks shared by player and MCTS_player: the name, then the role
    resolved to a side. *)
Definition resolve_who (meta : gmap string string) : result piece_type :=
  match name meta with
  | None => Throw missing_property
  | Some n =>
      if has_invalid_char n then Throw (invalid_name n)
      else
        match role meta with
        | None => Throw missing_property
        | Some r =>
            let who := if decide (r = "black") then black else empty in
            let who := if decide (r = "white") then white else who in
            if decide (who = empty) then Throw (invalid_role r) else Ok who
        end
  end.

(** [space[i] = action::place(i, who)] for i below board::size_x * size_y. *)
Definition full_space (who : piece_type) : list place :=
  (λ i, Place i who) <$> seq 0 81.

(** The baseline picker: its members. *)
Record player := Player {
  p_meta : gmap string string;
  p_engine : engine;
  p_space : list place;
  p_who : piece_type
}.

(** player::player(args). *)
Definition new_player (args : string) : result player :=
  match random_agent ("name=random role=unknown " +:+ args) with
  | Throw e => Throw e
  | Ok (meta, e) =>
      match resolve_who meta with
      | Throw err => Throw err
      | Ok who => Ok (Player meta e (full_space who) who)
      end
  end.

(** The tree-search player: its members. *)
Record MCTS_player := MCTS {
  meta : gmap string string;
  rng : engine;
  white_space : list place;
  black_space : list place;
  who : piece_type;
  step_count : Z
}.

(** MCTS_player::MCTS_player(args). *)
Definition new_MCTS_player (args : string) : result MCTS_player :=
  match random_agent ("name=random role=unknown " +:+ args) with
  | Throw e => Throw e
  | Ok (meta, e) =>
      match resolve_who meta with
      | Throw err => Throw err
      | Ok who => Ok (MCTS meta e (full_space white) (full_space black) who 0)
      end
  end.

End Players.

(** ** The search tree and the four phases *)

(** The range of int: win_count, visit_count and total_visit_count are ints,
    held here in Z. An increment is the increment of the source while the
    count is below INT_MAX; the properties of stores state that range. *)
Definition INT_MIN : Z := -2147483648.
Definition INT_MAX : Z := 2147483647.

Section Search.
Context `{B : Board} `{L : StdLib}.

(** class Node. The tree lives in a store, a list of nodes addressed by
    index: [Node*] is an index, nullptr is [None], and [new Node] appends. *)
Record Node := mkNode {
  state : board;
  win_count : Z;
  visit_count : Z;
  value : float;
  parent : option nat;
  last_action : place;
  children : list nat;
  node_who : piece_type
}.

(** std::numeric_limits<float>::max(), held in a double. *)
Definition FLT_MAX : float := 0x1.fffffep+127%float.

(** [new Node] followed by the four assignments of the source; the counts,
    the value and the children keep their member initialisers. *)
Definition new_node (st : board) (side : piece_type) (up : option nat)
    (move : place) : Node :=
  {| state := st; win_count := 0; visit_count := 0; value := FLT_MAX;
     parent := up; last_action := move; children := []; node_who := side |}.

(** [(double) n] for an int. *)
Definition Z2double (n : Z) : float :=
  match n with
  | Z0 => 0%float
  | Zpos _ => of_uint63 (Uint63.of_Z n)
  | Zneg _ => (- of_uint63 (Uint63.of_Z (- n)))%float
  end.

(** The right-hand side of compute_value. *)
Definition ucb (win visit total_visit_count : Z) : float :=
  (Z2double win / Z2double visit
   + 0.5 * sqrt (log (Z2double total_visit_count) / Z2double visit))%float.

Definition compute_value (node : Node) (total_visit_count : Z) : Node :=
  {| state := state node; win_count := win_count node;
     visit_count := visit_count node;
     value := ucb (win_count node) (visit_count node) total_visit_count;
     parent := parent node; last_action := last_action node;
     children := children node; node_who := node_who node |}.

(** *** select *)

(** The inner for loop of select over the values of the children:
    [i] is the loop index. *)
Fixpoint scan_values (vals : list float) (i : nat) (max_value : float)
    (select_index : nat) : nat :=
  match vals with
  | [] => select_index
  | v :: vals' =>
      if (max_value <? v)%float then scan_values vals' (S i) v i
      else scan_values vals' (S i) max_value select_index
  end.

Definition select_index (vals : list float) : nat := scan_values vals 0 0%float 0.

(** [node->children[i]->value] for every child; [None] on a dangling index. *)
Definition child_values (h : list Node) (cs : list nat) : option (list float) :=
  mapM (λ c, value <$> h !! c) cs.

(** select: one unit of fuel per level descended. *)
Fixpoint select (fuel : nat) (h : list Node) (node : nat) : option nat :=
  nd ← h !! node;
  match children nd with
  | [] => Some node
  | _ :: _ =>
      match fuel with
      | O => None
      | S fuel' =>
          vals ← child_values h (children nd);
          c ← children nd !! select_index vals;
          select fuel' h c
      end
  end.

(** *** expand *)

Definition push_child (nd : Node) (c : nat) : Node :=
  {| state := state nd; win_count := win_count nd;
     visit_count := visit_count nd; value := value nd; parent := parent nd;
     last_action := last_action nd; children := children nd ++ [c];
     node_who := node_who nd |}.

(** One of the two for loops of expand, over the candidates left. *)
Fixpoint expand_loop (parent_node : nat) (child_who : piece_type)
    (space : list place) (h : list Node) : option (list Node) :=
  match space with
  | [] => Some h
  | child_move :: space' =>
      nd ← h !! parent_node;
      let '(after, verdict) := apply child_move (state nd) in
      if verdict then
        let child_node := new_node after child_who (Some parent_node) child_move in
        expand_loop parent_node child_who space'
          (<[parent_node := push_child nd (length h)]> (h ++ [child_node]))
      else expand_loop parent_node child_who space' h
  end.

Definition expand (p : MCTS_player) (h : list Node) (parent_node : nat)
    : option (list Node) :=
  nd ← h !! parent_node;
  match node_who nd with
  | black => expand_loop parent_node white (white_space p) h
  | white => expand_loop parent_node black (black_space p) h
  | empty => Some h
  end.

(** *** simulation *)

(** [who == board::white ? board::black : board::white]. *)
Definition flip (side : piece_type) : piece_type :=
  match side with white => black | _ => white end.

Definition set_spaces (p : MCTS_player) (ws bs : list place) (e : engine)
    : MCTS_player :=
  MCTS (meta p) e ws bs (who p) (step_count p).

(** The first candidate whose application to a copy of the board is legal. *)
Definition first_legal (space : list place) (st : board) : option place :=
  List.find (λ move, snd (apply move st)) space.

(** One pass through the body of the while loop: the side, the board, the
    player with its shuffled space, and [finish]. *)
Definition sim_turn (st : board) (side : piece_type) (p : MCTS_player)
    : board * piece_type * MCTS_player * bool :=
  let side := flip side in
  match side with
  | black =>
      let '(bs, e) := shuffle (black_space p) (rng p) in
      let p := set_spaces p (white_space p) bs e in
      match first_legal bs st with
      | Some move => (fst (apply move st), side, p, false)
      | None => (st, side, p, true)
      end
  | white =>
      let '(ws, e) := shuffle (white_space p) (rng p) in
      let p := set_spaces p ws (black_space p) e in
      match first_legal ws st with
      | Some move => (fst (apply move st), side, p, false)
      | None => (st, side, p, true)
      end
  | empty => (st, side, p, true)
  end.

(** The while loop: one unit of fuel per move played. The result is the
    board, the side and the player when the loop is left. *)
Fixpoint sim_loop (fuel : nat) (st : board) (side : piece_type)
    (p : MCTS_player) : option (board * piece_type * MCTS_player) :=
  let '(st', side', p', finish) := sim_turn st side p in
  if finish then Some (st', side', p')
  else match fuel with
       | O => None
       | S fuel' => sim_loop fuel' st' side' p'
       end.

Definition simulation (fuel : nat) (p : MCTS_player) (h : list Node)
    (node : nat) : option (piece_type * MCTS_player) :=
  nd ← h !! node;
  '(_, side, p') ← sim_loop fuel (state nd) (node_who nd) p;
  Some (flip side, p').

(** *** backpropogation *)

(** [node->win_count++] under the verdict and [node->visit_count++]: the
    increments of the source while the counts are below [INT_MAX]. *)
Definition visit (nd : Node) (win : bool) : Node :=
  {| state := state nd;
     win_count := if win then win_count nd + 1 else win_count nd;
     visit_count := visit_count nd + 1; value := value nd;
     parent := parent nd; last_action := last_action nd;
     children := children nd; node_who := node_who nd |}.

(** The while loop of backpropogation: one unit of fuel per node walked. *)
Fixpoint backprop_loop (fuel : nat) (win : bool) (total_visit_count : Z)
    (h : list Node) (node : option nat) : option (list Node) :=
  match node with
  | None => Some h
  | Some n =>
      match fuel with
      | O => None
      | S fuel' =>
          nd ← h !! n;
          backprop_loop fuel' win total_visit_count
            (<[n := compute_value (visit nd win) total_visit_count]> h)
            (parent nd)
      end
  end.

Definition backpropogation (h : list Node) (root node : nat)
    (winner : piece_type) (total_visit_count : Z) : option (list Node) :=
  r ← h !! root;
  let win := if decide (winner = node_who r) then false else true in
  backprop_loop (length h) win total_visit_count h (Some node).

(** *** greedy_select *)

Fixpoint scan_visits (visits : list Z) (i : Z) (max_visit_count : Z)
    (child_index : Z) : Z :=
  match visits with
  | [] => child_index
  | v :: visits' =>
      if max_visit_count <? v then scan_visits visits' (i + 1) v i
      else scan_visits visits' (i + 1) max_visit_count child_index
  end.

Definition child_visits (h : list Node) (cs : list nat) : option (list Z) :=
  mapM (λ c, visit_count <$> h !! c) cs.

Definition greedy_select (h : list Node) (node : nat) : option action :=
  nd ← h !! node;
  visits ← child_visits h (children nd);
  let child_index := scan_visits visits 0 0 (-1) in
  if decide (child_index = -1) then Some action_default
  else
    c ← children nd !! Z.to_nat child_index;
    cn ← h !! c;
    Some (action_place (last_action cn)).

(** *** take_action *)

(** The double loop counting [state[i][j] == board::empty]. *)
Definition remain_empty (st : board) : Z :=
  foldl (λ acc i,
           foldl (λ acc j, if decide (cell st i j = empty) then acc + 1 else acc)
                 acc (seq 0 9))
        0 (seq 0 9).

Definition time_schedule : list float :=
  [0.2; 0.2; 0.2; 0.4; 0.4; 0.4;
   0.7; 0.7; 0.7; 1.4; 1.4; 1.4;
   1.7; 1.7; 1.7; 2.0; 2.0; 2.0;
   1.7; 1.7; 1.7; 1.7; 1.7; 1.7;
   1.0; 1.0; 1.0; 0.5; 0.5; 0.5;
   0.4; 0.4; 0.4; 0.2; 0.2; 0.2]%float.

(** [time_schedule[i]]: defined for the 36 entries of the array only. *)
Definition time_schedule_at (i : Z) : option float :=
  if decide (0 ≤ i < 36) then time_schedule !! Z.to_nat i else None.

(** [step_count = 36 - remain_empty / 2] on non-negative ints. *)
Definition step_of (st : board) : Z := 36 - remain_empty st `quot` 2.

Definition set_step_count (p : MCTS_player) (n : Z) : MCTS_player :=
  MCTS (meta p) (rng p) (white_space p) (black_space p) (who p) n.

(** The body of the while loop of take_action; the root is node 0. *)
Definition round (fuel : nat) (p : MCTS_player) (h : list Node)
    (total_visit_count : Z) : option (MCTS_player * list Node * Z) :=
  greedy_node ← select (length h) h 0;
  h ← expand p h greedy_node;
  '(winner, p) ← simulation fuel p h greedy_node;
  let total_visit_count := total_visit_count + 1 in
  h ← backpropogation h 0 greedy_node winner total_visit_count;
  Some (p, h, total_visit_count).

(** The while loop of take_action. [ticks] are the successive readings
    [(double)(end_time - start_time) / CLOCKS_PER_SEC], one per round;
    [limit] is [0.95 * time_schedule[step_count]]. *)
Fixpoint search_loop (fuel : nat) (ticks : list float) (limit : float)
    (total_time : float) (p : MCTS_player) (h : list Node)
    (total_visit_count : Z) : option (MCTS_player * list Node * Z) :=
  if (total_time <? limit)%float then
    match ticks with
    | [] => None
    | t :: ticks' =>
        '(p, h, total_visit_count) ← round fuel p h total_visit_count;
        search_loop fuel ticks' limit t p h total_visit_count
    end
  else Some (p, h, total_visit_count).

(** take_action up to the end of its while loop: the player, the tree and
    the counter there. [fuel] bounds the length of one playout, [ticks] are
    the clock readings. *)
Definition search (fuel : nat) (ticks : list float) (p : MCTS_player)
    (st : board) : option (MCTS_player * list Node * Z) :=
  let p := set_step_count p (step_of st) in
  let root := new_node st (flip (who p)) None default_place in
  h ← expand p [root] 0;
  budget ← time_schedule_at (step_count p);
  search_loop fuel ticks (0.95 * budget)%float 0%float p h 0.

(** take_action. The tree is released before returning and does not appear
    in the result. *)
Definition take_action (fuel : nat) (ticks : list float) (p : MCTS_player)
    (st : board) : option (action * MCTS_player) :=
  '(p, h, _) ← search fuel ticks p st;
  result ← greedy_select h 0;
  Some (result, p).

(** *** delete_tree *)

(** While the tree is released the state is the store and the nodes that
    were passed to free(), in order. A node that was freed can no longer be
    read. *)
Definition read_live (h : list Node) (freed : list nat) (n : nat) : option Node :=
  if decide (n ∈ freed) then None else h !! n.

(** [node->children.clear()]. *)
Definition clear_children (nd : Node) : Node :=
  {| state := state nd; win_count := win_count nd;
     visit_count := visit_count nd; value := value nd; parent := parent nd;
     last_action := last_action nd; children := [];
     node_who := node_who nd |}.

(** The for loop of delete_tree from index [i]; [rec] is delete_tree on the
    children, [todo] bounds the passes that are left. Freeing a node twice
    is undefined. *)
Fixpoint delete_children
    (rec : list Node → list nat → nat → option (list Node * list nat))
    (node : nat) (todo : nat) (i : nat) (h : list Node) (freed : list nat)
    : option (list Node * list nat) :=
  nd ← read_live h freed node;
  match children nd !! i with
  | None => Some (h, freed)
  | Some c =>
      match todo with
      | O => None
      | S todo' =>
          '(h, freed) ← rec h freed c;
          if decide (c ∈ freed) then None
          else delete_children rec node todo' (S i) h (freed ++ [c])
      end
  end.

(** delete_tree: one unit of fuel per level of the tree. *)
Fixpoint delete_tree (fuel : nat) (h : list Node) (freed : list nat)
    (node : nat) : option (list Node * list nat) :=
  match fuel with
  | O => None
  | S fuel' =>
      nd ← read_live h freed node;
      match children nd with
      | [] => Some (h, freed)
      | _ :: _ =>
          '(h, freed) ← delete_children (delete_tree fuel') node
                          (length (children nd)) 0 h freed;
          nd ← read_live h freed node;
          Some (<[node := clear_children nd]> h, freed)
      end
  end.

(** The end of take_action: [delete_tree(root); free(root);]. The result is
    the list of the nodes freed, in order. *)
Definition release (h : list Node) : option (list nat) :=
  '(_, freed) ← delete_tree (length h) h [] 0;
  if decide (0%nat ∈ freed) then None else Some (freed ++ [0%nat]).

(** *** The baseline picker *)

Definition player_take_action (p : player) (st : board) : action * player :=
  let '(space, e) := shuffle (p_space p) (p_engine p) in
  let p := Player (p_meta p) e space (p_who p) in
  match first_legal space st with
  | Some move => (action_place move, p)
  | None => (action_default, p)
  end.

End Search.

(** ** A small board and library to run the search on

    Modelled from the spec: board.h and action.h are missing; the spec gives
    a 9x9 grid of cells in {empty, side-A, side-B} and a placement that
    reports a legality verdict, and leaves the game's rules out. The grid
    below takes the simplest rule with terminal positions: a stone goes on an
    empty cell that touches no stone of the other side. It only supplies
    concrete inputs; every general theorem holds for any [Board]. *)

Module Grid.

(** Row-major cells; index [9 * i + j] is row [i], column [j]. *)
Definition grid := list piece_type.

Definition at_index (g : grid) (k : nat) : piece_type := default empty (g !! k).

Definition at_cell (g : grid) (i j : nat) : piece_type := at_index g (9 * i + j).

Definition other_side (side : piece_type) : piece_type :=
  match side with black => white | white => black | empty => empty end.

(** The orthogonal neighbours of cell [k] on the 9x9 grid. *)
Definition neighbours (k : nat) : list nat :=
  (if decide (9 ≤ k)%nat then [k - 9] else [])%nat
  ++ (if decide (k + 9 < 81)%nat then [k + 9] else [])%nat
  ++ (if decide (k `mod` 9 = 0)%nat then [] else [k - 1])%nat
  ++ (if decide (k `mod` 9 = 8)%nat then [] else [k + 1])%nat.

Definition legal (m : place) (g : grid) : bool :=
  bool_decide (place_index m < 81)%nat
  && bool_decide (g !! place_index m = Some empty)
  && bool_decide (place_who m ≠ empty)
  && forallb (λ k, bool_decide (at_index g k ≠ other_side (place_who m)))
             (neighbours (place_index m)).

Definition put (m : place) (g : grid) : grid * bool :=
  if legal m g then (<[place_index m := place_who m]> g, true) else (g, false).

(** The number of empty cells: every legal placement lowers it. *)
Definition empties (g : grid) : nat := length (filter (λ c, c = empty) g).

#[export] Instance grid_board : Board :=
  {| board := grid; cell := at_cell; apply := put;
     default_place := Place 0 empty |}.

Definition empty_grid : grid := replicate 81 empty.
Definition full_grid : grid := replicate 81 black.

(** A stand-in for the random engine: a linear congruential state; the
    shuffle rotates the vector by the state. *)
Definition next (e : Z) : Z := (e * 16807) `mod` 2147483647.

Definition rotate_by (space : list place) (e : Z) : list place * Z :=
  (rotate (Z.to_nat (e `mod` Z.of_nat (length space))) space, next e).

Definition digit (c : ascii) : option Z :=
  let n := Z.of_nat (nat_of_ascii c) in
  if decide (48 ≤ n ≤ 57) then Some (n - 48) else None.

Fixpoint digits (acc : Z) (s : string) : option Z :=
  match s with
  | EmptyString => Some acc
  | String c s' => d ← digit c; digits (10 * acc + d) s'
  end.

Definition seed_of (s : string) : option Z :=
  match s with
  | EmptyString => None
  | _ => digits 0 s
  end.

(** A stand-in for libm's log on positive finite doubles: the exponent times
    ln 2 plus the series of 2 atanh((m - 1) / (m + 1)) on the mantissa. *)
Fixpoint atanh_series (n : nat) (t2 : float) (pow : float) (k : float)
    (acc : float) : float :=
  match n with
  | O => acc
  | S n' => atanh_series n' t2 (pow * t2) (k + 2) (acc + pow / k)
  end%float.

Definition ln (x : float) : float :=
  if (x <? 0)%float then nan
  else if (x =? 0)%float then neg_infinity
  else if (x =? infinity)%float then infinity
  else if is_nan x then nan
  else
    let '(m, ex) := frshiftexp x in
    let e := Uint63.to_Z ex - FloatOps.shift in
    let '(m, e) := if (m <? 0x1.6a09e667f3bcdp-1)%float
                   then ((2 * m)%float, e - 1) else (m, e) in
    let t := ((m - 1) / (m + 1))%float in
    (Z2double e * 0x1.62e42fefa39efp-1 + 2 * atanh_series 24 (t * t) t 1 0)%float.

#[export] Instance grid_stdlib : StdLib :=
  {| engine := Z; default_engine := 1; seed_engine := seed_of;
     shuffle := rotate_by; log := ln |}.

End Grid.

(** * Specification

    The predicates the properties are stated with. *)

(** The order of doubles is read through a key: class and sign, exponent,
    mantissa, compared lexicographically; NaN has no key. *)
Definition sf_rank (x : spec_float) : option (Z * Z * Z) :=
  match x with
  | S754_nan => None
  | S754_infinity true => Some (-2, 0, 0)
  | S754_infinity false => Some (2, 0, 0)
  | S754_zero _ => Some (0, 0, 0)
  | S754_finite false m e => Some (1, e, Zpos m)
  | S754_finite true m e => Some (-1, - e, Zneg m)
  end.

Definition lex_lt (a b : Z * Z * Z) : Prop :=
  a.1.1 < b.1.1 ∨ (a.1.1 = b.1.1 ∧ (a.1.2 < b.1.2 ∨ (a.1.2 = b.1.2 ∧ a.2 < b.2))).

Definition lex_le (a b : Z * Z * Z) : Prop := lex_lt a b ∨ a = b.

(** Zero, or a positive finite double below 2^k. *)
Definition small (k : Z) (x : spec_float) : Prop :=
  match x with
  | S754_zero _ => True
  | S754_finite false m e => Z.pos (digits2_pos m) + e ≤ k
  | _ => False
  end.

Section Specification.
Context `{B : Board} `{L : StdLib}.

(** The store holds a tree rooted at node 0: the root has no parent, every
    other node has a parent allocated before it, and every child listed by a
    node exists and points back to it. *)
Definition tree_ok (h : list Node) : Prop :=
  (∃ r, h !! 0%nat = Some r ∧ parent r = None)
  ∧ (∀ i nd, h !! i = Some nd → i ≠ 0%nat →
       ∃ up, parent nd = Some up ∧ (up < i)%nat)
  ∧ (∀ i nd c, h !! i = Some nd → c ∈ children nd →
       ∃ cn, h !! c = Some cn ∧ parent cn = Some i).

(** The descent of select: from [n], through the child at [select_index]
    of each node with children, to the first node without children. *)
Inductive descends (h : list Node) : nat → nat → Prop :=
  | descends_leaf n nd :
      h !! n = Some nd → children nd = [] → descends h n n
  | descends_step n nd vals c leaf :
      h !! n = Some nd → children nd ≠ [] →
      child_values h (children nd) = Some vals →
      children nd !! select_index vals = Some c →
      descends h c leaf →
      descends h n leaf.

(** What the scan of select chooses among the values [vals] of the
    children: the first child when none scores above 0; otherwise a child
    scoring above 0 that no child beats and no earlier child equals. *)
Definition first_best (vals : list float) (k : nat) : Prop :=
  (Forall (λ v, (0 <? v)%float = false) vals → k = 0%nat)
  ∧ (Exists (λ v, (0 <? v)%float = true) vals →
     ∃ v, vals !! k = Some v ∧ (0 <? v)%float = true
       ∧ ∀ j u, vals !! j = Some u →
           (v <? u)%float = false ∧ ((j < k)%nat → (v <=? u)%float = false)).

(** The candidates that both vectors hold: all 81 cells for each side, in
    the order the last shuffle left. *)
Definition spaces_ok (p : MCTS_player) : Prop :=
  white_space p ≡ₚ full_space white ∧ black_space p ≡ₚ full_space black.

(** The vector expand scans at a node: the candidates of the other side. *)
Definition space_for (nd : Node) (p : MCTS_player) : list place :=
  match node_who nd with
  | black => white_space p
  | white => black_space p
  | empty => []
  end.

(** [node_who == board::black ? board::white : board::black]. *)
Definition child_side (nd : Node) : piece_type :=
  match node_who nd with black => white | _ => black end.

(** The candidates of [space] that are legal on [st], in order. *)
Definition legal_moves (space : list place) (st : board) : list place :=
  filter (λ m, snd (apply m st) = true) space.

(** The node with more children appended. *)
Definition add_children (nd : Node) (cs : list nat) : Node :=
  {| state := state nd; win_count := win_count nd;
     visit_count := visit_count nd; value := value nd; parent := parent nd;
     last_action := last_action nd; children := children nd ++ cs;
     node_who := node_who nd |}.

(** The store after expanding node [n] with the legal moves [moves]. *)
Definition expanded (h : list Node) (n : nat) (nd : Node) (side : piece_type)
    (moves : list place) : list Node :=
  <[n := add_children nd (seq (length h) (length moves))]> h
  ++ ((λ m, new_node (fst (apply m (state nd))) side (Some n) m) <$> moves).

(** Every edge of the tree is a legal move: the child's move applied to the
    parent's board is legal and gives the child's board. *)
Definition edges_legal (h : list Node) : Prop :=
  ∀ i nd c cn, h !! i = Some nd → c ∈ children nd → h !! c = Some cn →
    apply (last_action cn) (state nd) = (state cn, true).

(** The win-count bound. *)
Definition counts_ok (h : list Node) : Prop :=
  ∀ i nd, h !! i = Some nd → 0 ≤ win_count nd ≤ visit_count nd.

Definition parents_earlier (h : list Node) : Prop :=
  ∀ i nd up, h !! i = Some nd → parent nd = Some up → (up < i)%nat.

(** The parent chain: the node, its parent, and so on while there is one. *)
Fixpoint chain (fuel : nat) (h : list Node) (node : option nat) : list nat :=
  match node, fuel with
  | Some n, S fuel' =>
      n :: match h !! n with
           | Some nd => chain fuel' h (parent nd)
           | None => []
           end
  | _, _ => []
  end.

(** What backpropogation does to one node of the chain. *)
Definition bump (win : bool) (total_visit_count : Z) (nd : Node) : Node :=
  compute_value (visit nd win) total_visit_count.

(** The other side. *)
Definition rival (side : piece_type) : piece_type :=
  match side with black => white | white => black | empty => empty end.

(** The vector a side draws its moves from. *)
Definition space_of (side : piece_type) (p : MCTS_player) : list place :=
  match side with
  | black => black_space p
  | white => white_space p
  | empty => []
  end.

(** The player after [side]'s vector was shuffled into [order]. *)
Definition with_order (side : piece_type) (p : MCTS_player)
    (order : list place) (e : engine) : MCTS_player :=
  match side with
  | black => set_spaces p (white_space p) order e
  | white => set_spaces p order (black_space p) e
  | empty => p
  end.

(** The playout in the spec's words: the side to move shuffles its full
    candidate set and plays the first legal candidate of the new order, then
    the other side moves; a side without a legal move ends the game, and the
    winner is the other side. [playout st mover p winner p'] relates the
    board, the side to move and the player at the start to the winner and
    the player at the end. *)
Inductive playout : board → piece_type → MCTS_player → piece_type →
    MCTS_player → Prop :=
  | playout_stuck st mover p order e :
      shuffle (space_of mover p) (rng p) = (order, e) →
      order ≡ₚ full_space mover →
      Forall (λ m, snd (apply m st) = false) order →
      playout st mover p (rival mover) (with_order mover p order e)
  | playout_move st mover p order e before m after winner p' :
      shuffle (space_of mover p) (rng p) = (order, e) →
      order ≡ₚ full_space mover →
      order = before ++ m :: after →
      Forall (λ m, snd (apply m st) = false) before →
      snd (apply m st) = true →
      playout (fst (apply m st)) (rival mover) (with_order mover p order e)
              winner p' →
      playout st mover p winner p'.

(** [k] passes through the body of the while loop. *)
Fixpoint rounds (fuel : nat) (k : nat) (p : MCTS_player) (h : list Node)
    (total_visit_count : Z) : option (MCTS_player * list Node * Z) :=
  match k with
  | O => Some (p, h, total_visit_count)
  | S k' =>
      '(p, h, total_visit_count) ← round fuel p h total_visit_count;
      rounds fuel k' p h total_visit_count
  end.

(** What a node is in the tree, apart from its statistics. *)
Definition skeleton (nd : Node)
    : board * option nat * place * list nat * piece_type :=
  (state nd, parent nd, last_action nd, children nd, node_who nd).

(** While the root has no children, no candidate of the side to move is
    legal on the root's board. *)
Definition root_settled (p : MCTS_player) (h : list Node) : Prop :=
  ∀ r, h !! 0%nat = Some r → children r = [] →
    Forall (λ m, snd (apply m (state r)) = false) (space_for r p).

(** Once a round has run, a root with children has a visited child. *)
Definition root_child_visited (h : list Node) : Prop :=
  ∀ r, h !! 0%nat = Some r → children r ≠ [] →
    ∃ c cn, c ∈ children r ∧ h !! c = Some cn ∧ 1 ≤ visit_count cn.

(** The invariant of the while loop. *)
Definition search_inv (p : MCTS_player) (h : list Node) : Prop :=
  tree_ok h ∧ counts_ok h ∧ edges_legal h ∧ root_settled p h.

(** [tree_ok] as a test, to run on a concrete store. *)
Definition tree_okb (h : list Node) : bool :=
  match h with
  | r :: _ => bool_decide (parent r = None)
  | [] => false
  end
  && forallb (λ i, match h !! i with
                   | Some nd =>
                       (i =? 0)%nat
                       || match parent nd with
                          | Some up => (up <? i)%nat
                          | None => false
                          end
                   | None => true
                   end) (seq 0 (length h))
  && forallb (λ i, match h !! i with
                   | Some nd =>
                       forallb (λ c, match h !! c with
                                     | Some cn => bool_decide (parent cn = Some i)
                                     | None => false
                                     end) (children nd)
                   | None => true
                   end) (seq 0 (length h)).

(** Every node with a parent is listed among the children of that parent,
    and no node lists a child twice. *)
Definition children_listed (h : list Node) : Prop :=
  (∀ i nd up, h !! i = Some nd → parent nd = Some up →
     ∃ un, h !! up = Some un ∧ i ∈ children un)
  ∧ (∀ i nd, h !! i = Some nd → NoDup (children nd)).

(** Every child was made by a placement of the side that follows its
    parent's side, and has that side. *)
Definition edges_sided (h : list Node) : Prop :=
  ∀ i nd c cn, h !! i = Some nd → c ∈ children nd → h !! c = Some cn →
    last_action cn ∈ full_space (child_side nd) ∧ node_who cn = child_side nd.

(** The root holds the board and the side take_action gave it. *)
Definition root_is (st : board) (side : piece_type) (h : list Node) : Prop :=
  ∃ r, h !! 0%nat = Some r ∧ state r = st ∧ node_who r = side.

(** What a node holds apart from its links and its statistics. *)
Definition core (nd : Node) : board * place * piece_type :=
  (state nd, last_action nd, node_who nd).

(** [below h a m]: node [a] is [m] or an ancestor of [m]. *)
Inductive below (h : list Node) (a : nat) : nat → Prop :=
  | below_self nd : h !! a = Some nd → below h a a
  | below_up m nd up :
      h !! m = Some nd → parent nd = Some up → below h a up → below h a m.

(** Every edge of the tree satisfies [E]. *)
Definition edges_sat (E : Node → Node → Prop) (h : list Node) : Prop :=
  ∀ i nd c cn, h !! i = Some nd → c ∈ children nd → h !! c = Some cn → E nd cn.

(** The state in which [n] can be deleted, for the tree [h0] at the start
    of the release: its subtree is as in [h0] and nothing of it was freed. *)
Definition intact (h0 h : list Node) (freed : list nat) (n : nat) : Prop :=
  ∀ m, below h0 n m → h !! m = h0 !! m ∧ m ∉ freed.

(** What deleting below [n] gives: the nodes strictly below [n] are freed,
    once each, and nothing outside the subtree of [n] changes. *)
Definition deleted (h0 h : list Node) (freed : list nat) (n : nat)
    (res : option (list Node * list nat)) : Prop :=
  ∃ h' done, res = Some (h', freed ++ done) ∧ NoDup done
    ∧ (∀ m, m ∈ done ↔ below h0 n m ∧ m ≠ n)
    ∧ (∀ m, ¬ below h0 n m → h' !! m = h !! m)
    ∧ length h' = length h.

(** The counts of [nd] are ints that an increment does not overflow. *)
Definition counts_below_max (nd : Node) : Prop :=
  INT_MIN ≤ win_count nd < INT_MAX ∧ INT_MIN ≤ visit_count nd < INT_MAX.

(** The counts of [nd] are ints. *)
Definition counts_int (nd : Node) : Prop :=
  INT_MIN ≤ win_count nd ≤ INT_MAX ∧ INT_MIN ≤ visit_count nd ≤ INT_MAX.

(** log of the total lies between 0 and 1024, as the natural logarithm of
    every finite double from 1 on does (that of the largest is below 710). *)
Definition log_in_range (t : Z) : Prop :=
  (0 <=? log (Z2double t))%float = true
  ∧ (log (Z2double t) <=? 1024)%float = true.

(** The scores of a tree in a search that has run [bound] simulations: a
    node never visited has no counts and the value of a new node; a visited
    node has the value compute_value gave it from its counts and the total
    of some pass, and was visited at most once per pass. *)
Definition scored (bound : Z) (h : list Node) : Prop :=
  ∀ i nd, h !! i = Some nd →
    (visit_count nd = 0 ∧ win_count nd = 0 ∧ value nd = FLT_MAX)
    ∨ (∃ t, 1 ≤ t ≤ bound ∧ 1 ≤ visit_count nd ≤ t
          ∧ 0 ≤ win_count nd ≤ visit_count nd
          ∧ value nd = ucb (win_count nd) (visit_count nd) t).

(** The seed option, when given, is a number. *)
Definition seed_ok (m : gmap string string) : Prop :=
  match m !! "seed"%string with
  | Some v => is_Some (seed_engine v)
  | None => True
  end.

(** The shape of the tree during the search from board [st] with the
    root's side [side]. *)
Definition search_shape (st : board) (side : piece_type) (h : list Node) : Prop :=
  tree_ok h ∧ edges_legal h ∧ children_listed h ∧ edges_sided h
  ∧ root_is st side h.

End Specification.

(** ** Concrete inputs on the small board *)

Section Examples.
Import Grid.

(** Boards with one and with two empty cells among black stones. *)
Definition one_left : grid := <[40%nat := empty]> full_grid.
Definition two_left : grid := <[41%nat := empty]> one_left.

(** The tree-search players constructed from "role=black" and "role=white". *)
Definition black_player : MCTS_player :=
  MCTS (agent "name=random role=unknown role=black") default_engine
       (full_space white) (full_space black) black 0.

Definition white_player : MCTS_player :=
  MCTS (agent "name=random role=unknown role=white") default_engine
       (full_space white) (full_space black) white 0.

(** The tree of take_action on [two_left] for black, after the first
    expand, and after a first backpropogation from node 1. *)
Definition example_root : Node := new_node two_left white None default_place.

Definition example_tree0 : list Node :=
  default [] (expand black_player [example_root] 0).

Definition example_tree : list Node :=
  default [] (backpropogation example_tree0 0 1 black 1).

Definition example_ticks : list float := [0.1; 0.15; 0.2]%float.

(** The baseline picker constructed from "role=black". *)
Definition black_picker : player :=
  Player (agent "name=random role=unknown role=black") default_engine
         (full_space black) black.

Definition example_result : action * MCTS_player :=
  default (action_default, black_player)
          (take_action 10 example_ticks black_player two_left).

End Examples.


(** * Properties *)

(** ** Construction from the option string *)

Section Construction.
Context `{L : StdLib}.

Lemma words_agent_prefix args :
  words ("name=unknown role=unknown " +:+ args)
  = "name=unknown"%string :: "role=unknown"%string :: words args.
Proof. reflexivity. Qed.

Lemma words_player_prefix args :
  words ("name=unknown role=unknown " +:+ ("name=random role=unknown " +:+ args))
  = "name=unknown"%string :: "role=unknown"%string
    :: "name=random"%string :: "role=unknown"%string :: words args.
Proof. reflexivity. Qed.

(** Words with other keys leave the entry of [k] alone. *)
Lemma foldl_insert_other (k : string) (l : list string) (m : gmap string string) :
  existsb (λ pair, bool_decide (key_of pair = k)) l = false →
  foldl (λ meta pair, <[key_of pair := value_of pair]> meta) m l !! k = m !! k.
Proof.
  revert m. induction l as [|w l IH]; intros m Hk; simpl in *; [done|].
  apply orb_false_iff in Hk as [Hw Hl].
  rewrite IH by done. apply lookup_insert_ne.
  by apply bool_decide_eq_false in Hw.
Qed.

Lemma agent_lookup_default k args v :
  has_key k args = false →
  (<["role" := "unknown"]> (<["name" := "unknown"]> (∅ : gmap string string)))
    !! k = Some v →
  agent args !! k = Some v.
Proof.
  intros Hk Hv. unfold agent, parse_meta. rewrite words_agent_prefix. simpl.
  rewrite foldl_insert_other by done. exact Hv.
Qed.

Lemma player_meta_lookup k args v :
  has_key k args = false →
  (<["role" := "unknown"]> (<["name" := "random"]>
     (<["role" := "unknown"]> (<["name" := "unknown"]> (∅ : gmap string string)))))
    !! k = Some v →
  agent ("name=random role=unknown " +:+ args) !! k = Some v.
Proof.
  intros Hk Hv. unfold agent, parse_meta. rewrite words_player_prefix. simpl.
  rewrite foldl_insert_other by done. exact Hv.
Qed.

Lemma random_agent_meta args m e :
  random_agent args = Ok (m, e) → m = agent args.
Proof.
  unfold random_agent. destruct (agent args !! "seed") as [v|].
  - destruct (seed_engine v); congruence.
  - congruence.
Qed.

Lemma resolve_who_unknown m :
  role m = Some "unknown"%string → ∃ e, resolve_who m = Throw e.
Proof.
  intros Hr. unfold resolve_who. destruct (name m) as [n|]; [|by eexists].
  destruct (has_invalid_char n); [by eexists|].
  rewrite Hr. simpl. by eexists.
Qed.

Lemma new_player_meta args p :
  new_player args = Ok p →
  p_meta p = agent ("name=random role=unknown " +:+ args).
Proof.
  unfold new_player.
  destruct (random_agent _) as [[m e]|] eqn:Hr; [|done].
  apply random_agent_meta in Hr as ->.
  destruct (resolve_who _); [|done]. by intros [= <-].
Qed.

Lemma new_MCTS_player_meta args p :
  new_MCTS_player args = Ok p →
  meta p = agent ("name=random role=unknown " +:+ args).
Proof.
  unfold new_MCTS_player.
  destruct (random_agent _) as [[m e]|] eqn:Hr; [|done].
  apply random_agent_meta in Hr as ->.
  destruct (resolve_who _); [|done]. by intros [= <-].
Qed.

Lemma new_player_no_role args :
  has_key "role" args = false → ∃ e, new_player args = Throw e.
Proof.
  intros Hk. unfold new_player.
  destruct (random_agent _) as [[m e]|err] eqn:Hr; [|by eexists].
  apply random_agent_meta in Hr as ->.
  destruct (resolve_who_unknown (agent ("name=random role=unknown " +:+ args)))
    as [err ->]; [|by eexists].
  by apply player_meta_lookup.
Qed.

Lemma new_MCTS_player_no_role args :
  has_key "role" args = false → ∃ e, new_MCTS_player args = Throw e.
Proof.
  intros Hk. unfold new_MCTS_player.
  destruct (random_agent _) as [[m e]|err] eqn:Hr; [|by eexists].
  apply random_agent_meta in Hr as ->.
  destruct (resolve_who_unknown (agent ("name=random role=unknown " +:+ args)))
    as [err ->]; [|by eexists].
  by apply player_meta_lookup.
Qed.

(** C2, as amended. The base agent has the defaults name "unknown" and role
    "unknown". The baseline picker and the tree-search player put
    "name=random role=unknown" in front of the options: without a name pair a
    constructed agent is named "random", and without a role pair the
    construction throws, so no agent with role "unknown" exists. *)
Theorem agent_defaults (args : string) :
  (has_key "name" args = false → name (agent args) = Some "unknown"%string)
  ∧ (has_key "role" args = false → role (agent args) = Some "unknown"%string)
  ∧ (has_key "name" args = false →
     (∀ p, new_player args = Ok p → name (p_meta p) = Some "random"%string)
     ∧ (∀ p, new_MCTS_player args = Ok p → name (meta p) = Some "random"%string))
  ∧ (has_key "role" args = false →
     (∃ e, new_player args = Throw e) ∧ (∃ e, new_MCTS_player args = Throw e)).
Proof.
  repeat split.
  - intros Hk. by apply agent_lookup_default.
  - intros Hk. by apply agent_lookup_default.
  - intros p Hp. rewrite (new_player_meta _ _ Hp). by apply player_meta_lookup.
  - intros p Hp. rewrite (new_MCTS_player_meta _ _ Hp). by apply player_meta_lookup.
  - by apply new_player_no_role.
  - by apply new_MCTS_player_no_role.
Qed.

End Construction.

(** ** The order of doubles

    [<?] and [<=?] on primitive floats, read through their specification:
    a lexicographic order on (class and sign, exponent, mantissa), with NaN
    comparable to nothing. *)

Lemma SFcompare_rank x y :
  SFcompare x y =
  match sf_rank x, sf_rank y with
  | Some a, Some b =>
      Some (match a.1.1 ?= b.1.1 with
            | Eq => match a.1.2 ?= b.1.2 with Eq => a.2 ?= b.2 | c => c end
            | c => c end)
  | _, _ => None
  end.
Proof.
  destruct x as [[]|[]| |[] m e], y as [[]|[]| |[] m' e']; simpl; try reflexivity.
  rewrite Z.compare_opp, (Z.compare_antisym e e').
  destruct (e ?= e'); reflexivity.
Qed.

Lemma SFltb_rank x y :
  SFltb x y = true ↔ ∃ a b, sf_rank x = Some a ∧ sf_rank y = Some b ∧ lex_lt a b.
Proof.
  unfold SFltb. rewrite SFcompare_rank.
  destruct (sf_rank x) as [[[a1 a2] a3]|], (sf_rank y) as [[[b1 b2] b3]|];
    simpl; try (split; [discriminate | intros (?&?&?&?&?); discriminate]).
  unfold lex_lt; simpl. split.
  - intros H. eexists _, _. repeat split; simpl.
    destruct (Z.compare_spec a1 b1); try discriminate; [|lia].
    destruct (Z.compare_spec a2 b2); try discriminate; [|lia].
    destruct (Z.compare_spec a3 b3); try discriminate; lia.
  - intros (a & b & [= <-] & [= <-] & H); simpl in H.
    destruct (Z.compare_spec a1 b1); [|done|lia].
    destruct (Z.compare_spec a2 b2); [|done|lia].
    destruct (Z.compare_spec a3 b3); [lia|done|lia].
Qed.

Lemma SFleb_rank x y :
  SFleb x y = true ↔ ∃ a b, sf_rank x = Some a ∧ sf_rank y = Some b ∧ lex_le a b.
Proof.
  unfold SFleb. rewrite SFcompare_rank.
  destruct (sf_rank x) as [[[a1 a2] a3]|], (sf_rank y) as [[[b1 b2] b3]|];
    simpl; try (split; [discriminate | intros (?&?&?&?&?); discriminate]).
  unfold lex_le, lex_lt; simpl. split.
  - intros H. eexists _, _. repeat split; simpl.
    destruct (Z.compare_spec a1 b1); try discriminate; [|lia].
    destruct (Z.compare_spec a2 b2); try discriminate; [|lia].
    destruct (Z.compare_spec a3 b3); try discriminate; [right; congruence|lia].
  - intros (a & b & [= <-] & [= <-] & H); simpl in H.
    destruct (Z.compare_spec a1 b1); [|done|destruct H as [H|[=]]; lia].
    destruct (Z.compare_spec a2 b2); [|done|destruct H as [H|[=]]; lia].
    destruct (Z.compare_spec a3 b3); [done|done|destruct H as [H|[=]]; lia].
Qed.

Lemma ltb_irrefl (x : float) : (x <? x)%float = false.
Proof.
  apply not_true_is_false. rewrite ltb_spec, SFltb_rank.
  intros (a & b & Ha & Hb & Hlt). rewrite Ha in Hb. injection Hb as <-.
  unfold lex_lt in Hlt. lia.
Qed.

Lemma ltb_trans (x y z : float) :
  (x <? y)%float = true → (y <? z)%float = true → (x <? z)%float = true.
Proof.
  rewrite !ltb_spec, !SFltb_rank.
  intros (a & b & Ha & Hb & Hab) (b' & c & Hb' & Hc & Hbc).
  rewrite Hb in Hb'. injection Hb' as <-.
  exists a, c. repeat split; try done. unfold lex_lt in *. lia.
Qed.

Lemma ltb_leb_trans (x y z : float) :
  (x <? y)%float = true → (y <=? z)%float = true → (x <? z)%float = true.
Proof.
  rewrite !ltb_spec, leb_spec, !SFltb_rank, SFleb_rank.
  intros (a & b & Ha & Hb & Hab) (b' & c & Hb' & Hc & Hbc).
  rewrite Hb in Hb'. injection Hb' as <-.
  exists a, c. repeat split; try done.
  destruct Hbc as [Hbc| <-]; [|done]. unfold lex_lt in *. lia.
Qed.

(** ** The shape of the tree *)

Section Tree.
Context `{B : Board} `{L : StdLib}.

(** *** The scan of select *)

Lemma scan_values_spec (vals : list float) (i : nat) (m : float) (s : nat) :
  if existsb (λ v, m <? v)%float vals then
    ∃ k v, scan_values vals i m s = (i + k)%nat ∧ vals !! k = Some v
      ∧ (m <? v)%float = true
      ∧ ∀ j u, vals !! j = Some u →
          (v <? u)%float = false ∧ ((j < k)%nat → (v <=? u)%float = false)
  else scan_values vals i m s = s.
Proof.
  revert i m s. induction vals as [|v vs IH]; intros i m s; simpl; [done|].
  destruct (m <? v)%float eqn:Hmv; simpl.
  - specialize (IH (S i) v i).
    destruct (existsb (λ u, v <? u)%float vs) eqn:Hex.
    + destruct IH as (k & w & Hr & Hk & Hvw & Hall).
      exists (S k), w. repeat split.
      * rewrite Hr. lia.
      * done.
      * by eapply ltb_trans.
      * destruct j as [|j]; simpl in *.
        -- injection H as <-. apply not_true_is_false. intros Hwv.
           pose proof (ltb_trans _ _ _ Hvw Hwv) as Hvv.
           by rewrite ltb_irrefl in Hvv.
        -- by apply (Hall j u).
      * destruct j as [|j]; simpl in *.
        -- injection H as <-. intros _. apply not_true_is_false. intros Hwv.
           pose proof (ltb_leb_trans _ _ _ Hvw Hwv) as Hvv.
           by rewrite ltb_irrefl in Hvv.
        -- intros Hj. apply (Hall j u H). lia.
    + exists 0%nat, v. repeat split.
      * rewrite IH. lia.
      * done.
      * destruct j as [|j]; simpl in *.
        -- injection H as <-. apply ltb_irrefl.
        -- apply not_true_is_false. intros Hvu.
           assert (existsb (λ u, v <? u)%float vs = true); [|congruence].
           apply existsb_exists. exists u. split; [|done].
           apply list_elem_of_In. by eapply list_elem_of_lookup_2.
      * lia.
  - specialize (IH (S i) m s).
    destruct (existsb (λ u, m <? u)%float vs) eqn:Hex; [|done].
    destruct IH as (k & w & Hr & Hk & Hmw & Hall).
    exists (S k), w. repeat split.
    + rewrite Hr. lia.
    + done.
    + done.
    + destruct j as [|j]; simpl in *.
      * injection H as <-. apply not_true_is_false. intros Hwv.
        pose proof (ltb_trans _ _ _ Hmw Hwv). congruence.
      * by apply (Hall j u).
    + destruct j as [|j]; simpl in *.
      * injection H as <-. intros _. apply not_true_is_false. intros Hwv.
        pose proof (ltb_leb_trans _ _ _ Hmw Hwv). congruence.
      * intros Hj. apply (Hall j u H). lia.
Qed.

(** The index chosen by the scan, seeded with best 0 and index 0. *)
Lemma select_index_spec (vals : list float) :
  (Forall (λ v, (0 <? v)%float = false) vals → select_index vals = 0%nat)
  ∧ (Exists (λ v, (0 <? v)%float = true) vals →
     ∃ v, vals !! select_index vals = Some v ∧ (0 <? v)%float = true
       ∧ ∀ j u, vals !! j = Some u →
           (v <? u)%float = false
           ∧ ((j < select_index vals)%nat → (v <=? u)%float = false)).
Proof.
  pose proof (scan_values_spec vals 0 0%float 0) as Hs. fold (select_index vals) in Hs.
  split.
  - intros Hall. destruct (existsb _ vals) eqn:Hex; [|done].
    apply existsb_exists in Hex as (v & Hv & Hlt).
    apply list_elem_of_In in Hv. rewrite Forall_forall in Hall.
    specialize (Hall v Hv). simpl in Hall. congruence.
  - intros Hex. destruct (existsb _ vals) eqn:Hb.
    + destruct Hs as (k & v & -> & Hk & Hv & Hall). by exists v.
    + apply Exists_exists in Hex as (v & Hv & Hlt).
      assert (existsb (λ v, 0 <? v)%float vals = true); [|congruence].
      apply existsb_exists. exists v. split; [by apply list_elem_of_In|done].
Qed.

Lemma select_index_lt (vals : list float) :
  vals ≠ [] → (select_index vals < length vals)%nat.
Proof.
  intros Hne. pose proof (scan_values_spec vals 0 0%float 0) as Hs.
  fold (select_index vals) in Hs.
  destruct (existsb _ vals).
  - destruct Hs as (k & v & -> & Hk & _). by apply lookup_lt_Some in Hk.
  - rewrite Hs. destruct vals; [done|simpl; lia].
Qed.


(** *** select *)

Lemma tree_ok_child (h : list Node) i nd c :
  tree_ok h → h !! i = Some nd → c ∈ children nd →
  (i < c)%nat ∧ ∃ cn, h !! c = Some cn ∧ parent cn = Some i.
Proof.
  intros (Hroot & Hup & Hdown) Hi Hc.
  destruct (Hdown i nd c Hi Hc) as (cn & Hcn & Hpar).
  split; [|by exists cn].
  destruct (decide (c = 0%nat)) as [->|Hne].
  - destruct Hroot as (r & Hr & Hnone). congruence.
  - destruct (Hup c cn Hcn Hne) as (up & Hup' & Hlt). congruence.
Qed.

Lemma child_values_total (h : list Node) i nd :
  tree_ok h → h !! i = Some nd →
  ∃ vals, child_values h (children nd) = Some vals
          ∧ length vals = length (children nd).
Proof.
  intros Hok Hi.
  assert (is_Some (child_values h (children nd))) as [vals Hvals].
  { unfold child_values. apply mapM_is_Some, Forall_forall. intros c Hc.
    destruct (tree_ok_child h i nd c Hok Hi Hc) as (_ & cn & Hcn & _).
    simpl. rewrite Hcn. by eexists. }
  exists vals. split; [done|]. symmetry. by eapply length_mapM.
Qed.

Lemma select_descends (h : list Node) fuel n leaf :
  select fuel h n = Some leaf → descends h n leaf.
Proof.
  revert n. induction fuel as [|fuel IH]; intros n; simpl.
  - destruct (h !! n) as [nd|] eqn:Hn; simpl; [|done].
    destruct (children nd) eqn:Hc; [|done].
    intros [= <-]. by eapply descends_leaf.
  - destruct (h !! n) as [nd|] eqn:Hn; simpl; [|done].
    destruct (children nd) as [|c0 cs] eqn:Hc.
    + intros [= <-]. by eapply descends_leaf.
    + destruct (child_values h (c0 :: cs)) as [vals|] eqn:Hv; simpl; [|done].
      destruct ((c0 :: cs) !! select_index vals) as [c|] eqn:Hi; simpl; [|done].
      intros Hs. eapply descends_step; eauto.
      * by rewrite Hc.
      * by rewrite Hc.
      * by rewrite Hc.
Qed.

Lemma select_total (h : list Node) fuel n :
  tree_ok h → (n < length h)%nat → (length h ≤ fuel + n)%nat →
  is_Some (select fuel h n).
Proof.
  intros Hok. revert n. induction fuel as [|fuel IH]; intros n Hn Hfuel.
  - lia.
  - destruct (lookup_lt_is_Some_2 h n Hn) as [nd Hnd]. simpl. rewrite Hnd. simpl.
    destruct (children nd) as [|c0 cs] eqn:Hc; [by eexists|].
    destruct (child_values_total h n nd Hok Hnd) as (vals & Hvals & Hlen).
    rewrite Hc in Hvals, Hlen. rewrite Hvals. simpl.
    assert (select_index vals < length (c0 :: cs))%nat as Hlt.
    { rewrite <- Hlen. apply select_index_lt. by destruct vals. }
    destruct (lookup_lt_is_Some_2 _ _ Hlt) as [c Hci]. rewrite Hci. simpl.
    assert (c ∈ children nd) as Hin.
    { rewrite Hc. by eapply list_elem_of_lookup_2. }
    destruct (tree_ok_child h n nd c Hok Hnd Hin) as (Hnc & cn & Hcn & _).
    apply IH; [by eapply lookup_lt_Some|lia].
Qed.

Lemma descends_leaf_no_children (h : list Node) n leaf :
  descends h n leaf → ∃ nd, h !! leaf = Some nd ∧ children nd = [].
Proof. induction 1; eauto. Qed.

(** C4. On a tree, select returns a node: it descends while the node has
    children, each time to the child at [select_index] of the children's
    values, and stops at the first node without children. The index is found
    by a scan whose best is seeded with 0 and replaced only by a strictly
    greater value: with no value above 0 it is the first child, otherwise
    the first child of highest value. *)
Theorem select_spec (h : list Node) (n : nat) :
  tree_ok h → (n < length h)%nat →
  (∃ leaf nd, select (length h) h n = Some leaf ∧ descends h n leaf
              ∧ h !! leaf = Some nd ∧ children nd = [])
  ∧ (∀ vals, first_best vals (select_index vals)).
Proof.
  intros Hok Hn. split.
  - destruct (select_total h (length h) n Hok Hn) as [leaf Hleaf]; [lia|].
    pose proof (select_descends _ _ _ _ Hleaf) as Hd.
    destruct (descends_leaf_no_children _ _ _ Hd) as (nd & Hnd & Hc).
    by exists leaf, nd.
  - intros vals. apply select_index_spec.
Qed.

End Tree.

(** ** greedy_select *)

Section Greedy.
Context `{B : Board} `{L : StdLib}.

Lemma scan_visits_spec (visits : list Z) (i m c : Z) :
  if existsb (λ v, m <? v) visits then
    ∃ k v, scan_visits visits i m c = i + Z.of_nat k ∧ visits !! k = Some v
      ∧ m < v
      ∧ ∀ j u, visits !! j = Some u → u ≤ v ∧ ((j < k)%nat → u < v)
  else scan_visits visits i m c = c.
Proof.
  revert i m c. induction visits as [|v vs IH]; intros i m c; simpl; [done|].
  destruct (Z.ltb_spec m v) as [Hmv|Hmv]; simpl.
  - specialize (IH (i + 1) v i).
    destruct (existsb (λ u, v <? u) vs) eqn:Hex.
    + destruct IH as (k & w & Hr & Hk & Hvw & Hall).
      exists (S k), w. repeat split; [lia|done|lia| |].
      * destruct j as [|j]; simpl in *; [injection H as <-; lia|].
        by apply (Hall j u).
      * destruct j as [|j]; simpl in *; [injection H as <-; lia|].
        intros Hj. apply (Hall j u H). lia.
    + exists 0%nat, v. repeat split; [rewrite IH; lia|lia| |lia].
      destruct j as [|j]; simpl in *; [injection H as <-; lia|].
      destruct (Z.leb_spec u v) as [|Hvu]; [done|].
      assert (existsb (λ u, v <? u) vs = true); [|congruence].
      apply existsb_exists. exists u. split; [|lia].
      apply list_elem_of_In. by eapply list_elem_of_lookup_2.
  - specialize (IH (i + 1) m c).
    destruct (existsb (λ u, m <? u) vs) eqn:Hex; [|done].
    destruct IH as (k & w & Hr & Hk & Hmw & Hall).
    exists (S k), w. repeat split; [lia|done|lia| |].
    + destruct j as [|j]; simpl in *; [injection H as <-; lia|].
      by apply (Hall j u).
    + destruct j as [|j]; simpl in *; [injection H as <-; lia|].
      intros Hj. apply (Hall j u H). lia.
Qed.

Lemma child_visits_lookup (h : list Node) cs visits j c cn :
  child_visits h cs = Some visits → cs !! j = Some c → h !! c = Some cn →
  visits !! j = Some (visit_count cn).
Proof.
  intros Hv Hj Hc. apply mapM_Some_1 in Hv.
  destruct (Forall2_lookup_l _ _ _ _ _ Hv Hj) as (v & Hvj & Heq).
  rewrite Hc in Heq. simpl in Heq. congruence.
Qed.

Lemma child_visits_lookup_inv (h : list Node) cs visits j v :
  child_visits h cs = Some visits → visits !! j = Some v →
  ∃ c cn, cs !! j = Some c ∧ h !! c = Some cn ∧ visit_count cn = v.
Proof.
  intros Hv Hj. apply mapM_Some_1 in Hv.
  destruct (Forall2_lookup_r _ _ _ _ _ Hv Hj) as (c & Hcj & Heq).
  destruct (h !! c) as [cn|] eqn:Hc; simpl in Heq; [|done].
  exists c, cn. repeat split; congruence.
Qed.

Lemma child_visits_total (h : list Node) i nd :
  tree_ok h → h !! i = Some nd → is_Some (child_visits h (children nd)).
Proof.
  intros Hok Hi. unfold child_visits. apply mapM_is_Some, Forall_forall.
  intros c Hc. destruct (tree_ok_child h i nd c Hok Hi Hc) as (_ & cn & Hcn & _).
  simpl. rewrite Hcn. by eexists.
Qed.

(** The result of greedy_select in terms of the children: with no child
    visited, action(); otherwise the move of the first child among those of
    highest visit count. *)
Lemma greedy_select_cases (h : list Node) node nd :
  tree_ok h → h !! node = Some nd →
  (greedy_select h node = Some action_default
   ∧ ∀ c cn, c ∈ children nd → h !! c = Some cn → visit_count cn ≤ 0)
  ∨ (∃ k c cn, children nd !! k = Some c ∧ h !! c = Some cn
       ∧ greedy_select h node = Some (action_place (last_action cn))
       ∧ 0 < visit_count cn
       ∧ ∀ j c' cn', children nd !! j = Some c' → h !! c' = Some cn' →
           visit_count cn' ≤ visit_count cn
           ∧ ((j < k)%nat → visit_count cn' < visit_count cn)).
Proof.
  intros Hok Hnd. unfold greedy_select. rewrite Hnd. simpl.
  destruct (child_visits_total h node nd Hok Hnd) as [visits Hv].
  rewrite Hv. simpl.
  pose proof (scan_visits_spec visits 0 0 (-1)) as Hs.
  destruct (existsb (λ v, 0 <? v) visits) eqn:Hex.
  - right. destruct Hs as (k & v & Hr & Hk & Hpos & Hall).
    destruct (child_visits_lookup_inv _ _ _ _ _ Hv Hk) as (c & cn & Hc & Hcn & <-).
    exists k, c, cn. rewrite Hr.
    destruct (decide (0 + Z.of_nat k = -1)) as [|_]; [lia|].
    replace (Z.to_nat (0 + Z.of_nat k)) with k by lia.
    rewrite Hc. simpl. rewrite Hcn. simpl. repeat split; try done.
    + destruct (Hall j _ (child_visits_lookup _ _ _ _ _ _ Hv H H0)). done.
    + intros Hj. by destruct (Hall j _ (child_visits_lookup _ _ _ _ _ _ Hv H H0)) as [_ Hlt]; apply Hlt.
  - left. rewrite Hs. simpl. split; [done|].
    intros c cn Hc Hcn. apply list_elem_of_lookup in Hc as [j Hj].
    pose proof (child_visits_lookup _ _ _ _ _ _ Hv Hj Hcn) as Hvj.
    destruct (Z.leb_spec (visit_count cn) 0) as [|Hpos]; [done|].
    assert (existsb (λ v, 0 <? v) visits = true); [|congruence].
    apply existsb_exists. exists (visit_count cn). split; [|lia].
    apply list_elem_of_In. by eapply list_elem_of_lookup_2.
Qed.

(** C10. The best visit count is seeded with 0 and a child is adopted only
    on a strictly greater count: when every child of the node has visit
    count 0, also when there are children, greedy_select returns action();
    and a move is returned only when it is the move of a child with visit
    count at least 1. *)
Theorem greedy_select_unvisited (h : list Node) (node : nat) (nd : Node) :
  tree_ok h → h !! node = Some nd →
  ((∀ c cn, c ∈ children nd → h !! c = Some cn → visit_count cn = 0) →
   greedy_select h node = Some action_default)
  ∧ (∀ m, greedy_select h node = Some (action_place m) →
     ∃ c cn, c ∈ children nd ∧ h !! c = Some cn ∧ 1 ≤ visit_count cn
             ∧ m = last_action cn).
Proof.
  intros Hok Hnd.
  destruct (greedy_select_cases h node nd Hok Hnd)
    as [[Hdef Hall]|(k & c & cn & Hk & Hcn & Hsel & Hpos & Hmax)].
  - split; [done|]. intros m Hm. congruence.
  - split.
    + intros Hzero. assert (visit_count cn = 0); [|lia].
      apply (Hzero c); [by eapply list_elem_of_lookup_2|done].
    + intros m Hm. exists c, cn. repeat split; try done.
      * by eapply list_elem_of_lookup_2.
      * lia.
      * congruence.
Qed.

End Greedy.

(** ** expand *)

Section Expand.
Context `{B : Board} `{L : StdLib}.

Lemma add_children_nil nd : add_children nd [] = nd.
Proof. destruct nd. unfold add_children. simpl. by rewrite app_nil_r. Qed.

Lemma expand_loop_closed (n : nat) (side : piece_type) (space : list place) :
  ∀ h nd, h !! n = Some nd →
    expand_loop n side space h
    = Some (expanded h n nd side (legal_moves space (state nd))).
Proof.
  induction space as [|m space IH]; intros h nd Hn; simpl.
  - unfold expanded, legal_moves. simpl.
    rewrite add_children_nil, list_insert_id by done. by rewrite app_nil_r.
  - rewrite Hn. simpl. unfold legal_moves. rewrite filter_cons.
    destruct (apply m (state nd)) as [after verdict] eqn:Hm. simpl.
    pose proof (lookup_lt_Some _ _ _ Hn) as Hlt.
    destruct verdict.
    + rewrite decide_True by done.
      rewrite (IH _ (push_child nd (length h))).
      2:{ rewrite list_lookup_insert_eq; [done|]. rewrite length_app. simpl. lia. }
      f_equal. unfold expanded. simpl.
      rewrite list_insert_insert_eq, length_insert, length_app. simpl.
      rewrite insert_app_l by done. rewrite <- app_assoc. simpl.
      rewrite Hm. simpl. f_equal. f_equal.
      unfold add_children, push_child. simpl. f_equal.
      rewrite <- app_assoc. simpl. by rewrite Nat.add_1_r.
    + rewrite decide_False by done. by apply IH.
Qed.

Lemma expanded_length h n nd side moves :
  length (expanded h n nd side moves) = (length h + length moves)%nat.
Proof. unfold expanded. by rewrite length_app, length_insert, length_fmap. Qed.

(** The nodes of the expanded store: the expanded node with its new
    children, the other nodes as they were, and the new nodes. *)
Lemma expanded_lookup h n nd side moves i x :
  h !! n = Some nd →
  expanded h n nd side moves !! i = Some x ↔
    (i = n ∧ x = add_children nd (seq (length h) (length moves)))
    ∨ (i ≠ n ∧ h !! i = Some x)
    ∨ (∃ j m, i = (length h + j)%nat ∧ moves !! j = Some m
         ∧ x = new_node (fst (apply m (state nd))) side (Some n) m).
Proof.
  intros Hn. pose proof (lookup_lt_Some _ _ _ Hn) as Hlt. unfold expanded.
  destruct (decide (i < length h)%nat) as [Hi|Hi].
  - rewrite lookup_app_l by (by rewrite length_insert).
    destruct (decide (i = n)) as [->|Hne].
    + rewrite list_lookup_insert_eq by done. split.
      * intros [= <-]. by left.
      * intros [[_ ->]|[[? _]|(j & m & ? & _)]]; [done|done|lia].
    + rewrite list_lookup_insert_ne by done. split.
      * intros Hx. right. by left.
      * intros [[? _]|[[_ ?]|(j & m & ? & _)]]; [done|done|lia].
  - rewrite lookup_app_r by (rewrite length_insert; lia).
    rewrite length_insert, list_lookup_fmap. split.
    + intros Hx. right. right.
      destruct (moves !! (i - length h)%nat) as [m|] eqn:Hm; simpl in Hx; [|done].
      exists (i - length h)%nat, m. repeat split; [lia|done|congruence].
    + intros [[-> _]|[[_ Hx]|(j & m & -> & Hm & ->)]].
      * lia.
      * apply lookup_lt_Some in Hx. lia.
      * replace (length h + j - length h)%nat with j by lia. by rewrite Hm.
Qed.

Lemma expanded_tree_ok h n nd side moves :
  tree_ok h → h !! n = Some nd → tree_ok (expanded h n nd side moves).
Proof.
  intros Hok Hn. pose proof Hok as (Hroot & Hup & Hdown).
  pose proof (lookup_lt_Some _ _ _ Hn) as Hlt.
  repeat split.
  - destruct Hroot as (r & Hr & Hnone).
    destruct (decide (n = 0%nat)) as [->|Hne].
    + eexists. split; [apply expanded_lookup; [done|]; by left|].
      simpl. congruence.
    + exists r. split; [|done]. apply expanded_lookup; [done|]. right. by left.
  - intros i x Hx Hi. apply expanded_lookup in Hx; [|done].
    destruct Hx as [[-> ->]|[[_ Hx]|(j & m & -> & _ & ->)]].
    + simpl. by apply (Hup n nd).
    + by apply (Hup i x).
    + simpl. exists n. split; [done|lia].
  - intros i x c Hx Hc. apply expanded_lookup in Hx; [|done].
    assert (∀ y, h !! c = Some y → ∃ cn, expanded h n nd side moves !! c = Some cn
                                      ∧ parent cn = parent y) as Hold.
    { intros y Hy. destruct (decide (c = n)) as [->|Hne].
      - eexists. split; [apply expanded_lookup; [done|]; by left|].
        simpl. congruence.
      - exists y. split; [|done]. apply expanded_lookup; [done|]. right. by left. }
    destruct Hx as [[-> ->]|[[_ Hx]|(j & m & -> & _ & ->)]].
    + simpl in Hc. apply elem_of_app in Hc as [Hc|Hc].
      * destruct (Hdown n nd c Hn Hc) as (cn & Hcn & Hpar).
        destruct (Hold cn Hcn) as (cn' & Hcn' & Hpar'). exists cn'. split; congruence.
      * apply elem_of_seq in Hc as [Hc1 Hc2].
        destruct (lookup_lt_is_Some_2 moves (c - length h)%nat) as [m Hm]; [lia|].
        eexists. split.
        -- apply expanded_lookup; [done|]. right. right.
           exists (c - length h)%nat, m. repeat split; [lia|done].
        -- done.
    + destruct (Hdown i x c Hx Hc) as (cn & Hcn & Hpar).
      destruct (Hold cn Hcn) as (cn' & Hcn' & Hpar'). exists cn'. split; congruence.
    + simpl in Hc. by apply elem_of_nil in Hc.
Qed.

Lemma expanded_edges_legal h n nd side moves :
  tree_ok h → edges_legal h → h !! n = Some nd →
  Forall (λ m, snd (apply m (state nd)) = true) moves →
  edges_legal (expanded h n nd side moves).
Proof.
  intros Hok Hedges Hn Hlegal i x c cx Hx Hc Hcx.
  pose proof (lookup_lt_Some _ _ _ Hn) as Hlt.
  apply expanded_lookup in Hx; [|done]. apply expanded_lookup in Hcx; [|done].
  assert (∀ y, h !! i = Some y → state y = state x → c ∈ children y →
            apply (last_action cx) (state x) = (state cx, true)) as Hold.
  { intros y Hy Hst Hcy. rewrite <- Hst.
    destruct (tree_ok_child h i y c Hok Hy Hcy) as (_ & cn & Hcn & _).
    destruct Hcx as [[-> ->]|[[_ Hcx]|(j & m & -> & _ & _)]].
    - simpl. apply (Hedges i y n nd); done.
    - apply (Hedges i y c cx); done.
    - apply lookup_lt_Some in Hcn. lia. }
  destruct Hx as [[-> ->]|[[_ Hx]|(j & m & -> & _ & ->)]].
  - simpl in Hc. apply elem_of_app in Hc as [Hc|Hc]; [by apply (Hold nd)|].
    apply elem_of_seq in Hc as [Hc1 Hc2].
    destruct Hcx as [[-> _]|[[_ Hcx]|(j & m & -> & Hm & ->)]]; [lia| |].
    + apply lookup_lt_Some in Hcx. lia.
    + simpl. rewrite Forall_lookup in Hlegal. specialize (Hlegal j m Hm).
      simpl in Hlegal. destruct (apply m (state nd)); simpl in *. congruence.
  - by apply (Hold x).
  - simpl in Hc. by apply elem_of_nil in Hc.
Qed.

Lemma expand_closed (p : MCTS_player) h n nd :
  h !! n = Some nd →
  expand p h n
  = Some (expanded h n nd (child_side nd) (legal_moves (space_for nd p) (state nd))).
Proof.
  intros Hn. unfold expand, space_for, child_side. rewrite Hn. simpl.
  destruct (node_who nd).
  - unfold expanded, legal_moves. simpl.
    rewrite add_children_nil, list_insert_id by done. by rewrite app_nil_r.
  - by apply expand_loop_closed.
  - by apply expand_loop_closed.
Qed.

Lemma full_space_NoDup side : NoDup (full_space side).
Proof.
  unfold full_space. apply NoDup_fmap_2; [|apply NoDup_seq].
  intros i j [= ->]. done.
Qed.

Lemma full_space_who side m : m ∈ full_space side → place_who m = side.
Proof.
  unfold full_space. intros Hm. apply list_elem_of_fmap in Hm as (i & -> & _). done.
Qed.

Lemma space_for_full p nd :
  spaces_ok p → node_who nd ≠ empty →
  space_for nd p ≡ₚ full_space (child_side nd).
Proof.
  intros [Hw Hb] Hne. unfold space_for, child_side.
  destruct (node_who nd); done.
Qed.

End Expand.

(** ** simulation *)

Section Simulation.
Context `{B : Board} `{L : StdLib}.

Lemma first_legal_Some space st m :
  first_legal space st = Some m →
  ∃ before after, space = before ++ m :: after
    ∧ Forall (λ m, snd (apply m st) = false) before
    ∧ snd (apply m st) = true.
Proof.
  unfold first_legal. induction space as [|x space IH]; simpl; [done|].
  destruct (snd (apply x st)) eqn:Hx.
  - intros [= <-]. exists [], space. by repeat split.
  - intros Hf. destruct (IH Hf) as (before & after & -> & Hb & Hm).
    exists (x :: before), after. repeat split; [|done]. by constructor.
Qed.

Lemma first_legal_None space st :
  first_legal space st = None ↔ Forall (λ m, snd (apply m st) = false) space.
Proof.
  unfold first_legal. induction space as [|x space IH]; simpl; [done|].
  destruct (snd (apply x st)) eqn:Hx.
  - split; [done|]. intros Hall. apply Forall_cons in Hall as [? _]. congruence.
  - rewrite IH. split; [by constructor|]. by intros [_ ?]%Forall_cons.
Qed.

(** The body of the loop for a side that is black or white. *)
Lemma sim_turn_eq st side p :
  let mover := flip side in
  let '(order, e) := shuffle (space_of mover p) (rng p) in
  sim_turn st side p =
  match first_legal order st with
  | Some move => (fst (apply move st), mover, with_order mover p order e, false)
  | None => (st, mover, with_order mover p order e, true)
  end.
Proof.
  unfold sim_turn. destruct side; simpl.
  - by destruct (shuffle (white_space p) (rng p)).
  - by destruct (shuffle (white_space p) (rng p)).
  - by destruct (shuffle (black_space p) (rng p)).
Qed.

Lemma flip_flip side : flip (flip side) = rival (flip side).
Proof. by destruct side. Qed.

Section Laws.
(** std::shuffle permutes the vector. *)
Hypothesis shuffle_perm : ∀ l e, fst (shuffle l e) ≡ₚ l.

Lemma with_order_spaces_ok side p order e :
  spaces_ok p → side ≠ empty →
  shuffle (space_of side p) (rng p) = (order, e) →
  order ≡ₚ full_space side ∧ spaces_ok (with_order side p order e).
Proof.
  intros [Hw Hb] Hside Hsh.
  pose proof (shuffle_perm (space_of side p) (rng p)) as Hperm.
  rewrite Hsh in Hperm. simpl in Hperm.
  destruct side; [done| |]; simpl in *.
  - split; [by rewrite Hperm|]. split; simpl; [done|by rewrite Hperm].
  - split; [by rewrite Hperm|]. split; simpl; [by rewrite Hperm|done].
Qed.

(** Every legal move lowers a weight of the board, as placing a stone
    lowers the number of empty cells. *)
Variable weight : board → nat.
Hypothesis weight_decreases :
  ∀ m st, snd (apply m st) = true → (weight (fst (apply m st)) < weight st)%nat.

Lemma sim_loop_playout fuel :
  ∀ st side p, spaces_ok p → (weight st ≤ fuel)%nat →
  ∃ st' side' p', sim_loop fuel st side p = Some (st', side', p')
    ∧ playout st (flip side) p (flip side') p' ∧ spaces_ok p'.
Proof.
  induction fuel as [|fuel IH]; intros st side p Hp Hfuel.
  - pose proof (sim_turn_eq st side p) as Ht. simpl in Ht.
    destruct (shuffle (space_of (flip side) p) (rng p)) as [order e] eqn:Hsh.
    destruct (with_order_spaces_ok (flip side) p order e Hp) as [Hfull Hp'];
      [by destruct side|done|].
    simpl. rewrite Ht.
    destruct (first_legal order st) as [m|] eqn:Hfl.
    + apply first_legal_Some in Hfl as (_ & _ & _ & _ & Hm).
      apply weight_decreases in Hm. lia.
    + eexists _, _, _. split; [done|]. split; [|done].
      rewrite flip_flip. eapply playout_stuck; try done.
      by apply first_legal_None.
  - pose proof (sim_turn_eq st side p) as Ht. simpl in Ht.
    destruct (shuffle (space_of (flip side) p) (rng p)) as [order e] eqn:Hsh.
    destruct (with_order_spaces_ok (flip side) p order e Hp) as [Hfull Hp'];
      [by destruct side|done|].
    simpl. rewrite Ht.
    destruct (first_legal order st) as [m|] eqn:Hfl.
    + apply first_legal_Some in Hfl as (before & after & Horder & Hbefore & Hm).
      pose proof (weight_decreases _ _ Hm) as Hlt.
      destruct (IH (fst (apply m st)) (flip side) _ Hp') as (st' & side' & p' & Hloop & Hplay & Hp'');
        [lia|].
      exists st', side', p'. split; [done|]. split; [|done].
      eapply playout_move; try done. by rewrite <- flip_flip.
    + eexists _, _, _. split; [done|]. split; [|done].
      rewrite flip_flip. eapply playout_stuck; try done.
      by apply first_legal_None.
Qed.

(** C6. With fuel for every move that fits on the board, simulation returns
    a winner. It plays on the board read from the node, the side opposite
    the node's side moving first and the sides alternating; the side to move
    shuffles its full candidate set and plays the first legal candidate, and
    the first side without a legal candidate ends the playout, lost by that
    side and won by the other. The store is only read: the result depends on
    the node's board and side alone, and both vectors still hold the full
    candidate sets afterwards. *)
Theorem simulation_spec (fuel : nat) (p : MCTS_player) (h : list Node)
    (node : nat) (nd : Node) :
  spaces_ok p → h !! node = Some nd → node_who nd ≠ empty →
  (weight (state nd) ≤ fuel)%nat →
  ∃ winner p',
    simulation fuel p h node = Some (winner, p')
    ∧ playout (state nd) (rival (node_who nd)) p winner p'
    ∧ spaces_ok p'
    ∧ ∀ h2 node2 nd2, h2 !! node2 = Some nd2 → state nd2 = state nd →
        node_who nd2 = node_who nd →
        simulation fuel p h2 node2 = Some (winner, p').
Proof.
  intros Hp Hnd Hside Hfuel.
  destruct (sim_loop_playout fuel (state nd) (node_who nd) p Hp Hfuel)
    as (st' & side' & p' & Hloop & Hplay & Hp').
  exists (flip side'), p'. repeat split.
  - unfold simulation. rewrite Hnd. simpl. by rewrite Hloop.
  - replace (rival (node_who nd)) with (flip (node_who nd)); [done|].
    by destruct (node_who nd).
  - by destruct Hp'.
  - by destruct Hp'.
  - intros h2 node2 nd2 Hnd2 Hst Hwho. unfold simulation. rewrite Hnd2. simpl.
    by rewrite Hst, Hwho, Hloop.
Qed.

End Laws.
End Simulation.

(** ** backpropogation *)

Section Backprop.
Context `{B : Board} `{L : StdLib}.

Lemma tree_ok_parents_earlier h : tree_ok h → parents_earlier h.
Proof.
  intros (Hroot & Hup & _) i nd up Hi Hpar.
  destruct (decide (i = 0%nat)) as [->|Hne].
  - destruct Hroot as (r & Hr & Hnone). congruence.
  - destruct (Hup i nd Hi Hne) as (up' & Hup' & Hlt). congruence.
Qed.

Lemma chain_bound h : parents_earlier h →
  ∀ fuel n i, i ∈ chain fuel h (Some n) → (i ≤ n)%nat.
Proof.
  intros Hpe. induction fuel as [|fuel IH]; intros n i; simpl.
  - by intros ?%elem_of_nil.
  - intros [->|Hi]%elem_of_cons; [done|].
    destruct (h !! n) as [nd|] eqn:Hn; [|by apply elem_of_nil in Hi].
    destruct (parent nd) as [up|] eqn:Hup.
    + specialize (IH up i Hi). specialize (Hpe n nd up Hn Hup). lia.
    + destruct fuel; by apply elem_of_nil in Hi.
Qed.

Lemma chain_None fuel h : chain fuel h None = [].
Proof. by destruct fuel. Qed.

Lemma chain_ext h1 h2 :
  (∀ i, parent <$> h1 !! i = parent <$> h2 !! i) →
  ∀ fuel o, chain fuel h1 o = chain fuel h2 o.
Proof.
  intros Hext. induction fuel as [|fuel IH]; intros o; [by destruct o|].
  destruct o as [n|]; simpl; [|done]. f_equal.
  specialize (Hext n).
  destruct (h1 !! n) as [a|], (h2 !! n) as [b|]; simpl in Hext; try done.
  injection Hext as ->. apply IH.
Qed.

Lemma chain_root h : tree_ok h →
  ∀ fuel n, (n < length h)%nat → (n < fuel)%nat → 0%nat ∈ chain fuel h (Some n).
Proof.
  intros Hok. pose proof Hok as (_ & Hup & _).
  induction fuel as [|fuel IH]; intros n Hn Hfuel; [lia|]. simpl.
  destruct (decide (n = 0%nat)) as [->|Hne]; [by left|]. right.
  destruct (lookup_lt_is_Some_2 h n Hn) as [nd Hnd]. rewrite Hnd.
  destruct (Hup n nd Hnd Hne) as (up & -> & Hlt). apply IH; lia.
Qed.

Lemma chain_NoDup h : parents_earlier h → ∀ fuel o, NoDup (chain fuel h o).
Proof.
  intros Hpe. induction fuel as [|fuel IH]; intros o; [destruct o; constructor|].
  destruct o as [n|]; simpl; [|constructor]. constructor.
  - destruct (h !! n) as [nd|] eqn:Hn; [|by intros ?%elem_of_nil].
    destruct (parent nd) as [up|] eqn:Hup.
    + intros Hin%chain_bound; [|done]. specialize (Hpe n nd up Hn Hup). lia.
    + rewrite chain_None. by intros ?%elem_of_nil.
  - destruct (h !! n); [apply IH|constructor].
Qed.

(** The chain is closed under taking the parent. *)
Lemma chain_parent h : parents_earlier h →
  ∀ fuel n x xn up, (n < fuel)%nat → x ∈ chain fuel h (Some n) →
    h !! x = Some xn → parent xn = Some up → up ∈ chain fuel h (Some n).
Proof.
  intros Hpe. induction fuel as [|fuel IH]; intros n x xn up Hfuel Hx Hxn Hup; [lia|].
  simpl in *. apply elem_of_cons in Hx as [->|Hx].
  - right. rewrite Hxn, Hup. pose proof (Hpe _ _ _ Hxn Hup).
    destruct fuel; [lia|]. simpl. by left.
  - right. destruct (h !! n) as [nd|] eqn:Hn; [|by apply elem_of_nil in Hx].
    destruct (parent nd) as [q|] eqn:Hq.
    + pose proof (Hpe _ _ _ Hn Hq). apply (IH q x xn up); [lia|done..].
    + rewrite chain_None in Hx. by apply elem_of_nil in Hx.
Qed.

Lemma bump_parent win t nd : parent (bump win t nd) = parent nd.
Proof. done. Qed.

Lemma backprop_loop_lookup (win : bool) (t : Z) (fuel : nat) :
  ∀ h o, parents_earlier h →
    (∀ n, o = Some n → (n < length h)%nat ∧ (n < fuel)%nat) →
    ∃ h', backprop_loop fuel win t h o = Some h'
      ∧ ∀ i, h' !! i = if decide (i ∈ chain fuel h o)
                       then bump win t <$> h !! i else h !! i.
Proof.
  induction fuel as [|fuel IH]; intros h o Hpe Ho.
  - destruct o as [n|]; [destruct (Ho n eq_refl); lia|].
    exists h. split; [done|]. intros i. rewrite chain_None.
    case_decide as Hin; [by apply elem_of_nil in Hin|done].
  - destruct o as [n|].
    2:{ exists h. split; [done|]. intros i. rewrite chain_None.
        case_decide as Hin; [by apply elem_of_nil in Hin|done]. }
    destruct (Ho n eq_refl) as [Hn Hfuel].
    destruct (lookup_lt_is_Some_2 h n Hn) as [nd Hnd].
    simpl. rewrite Hnd. simpl. fold (bump win t nd).
    set (h1 := <[n := bump win t nd]> h).
    assert (∀ i, parent <$> h1 !! i = parent <$> h !! i) as Hext.
    { intros i. unfold h1. destruct (decide (i = n)) as [->|Hne].
      - rewrite list_lookup_insert_eq by done. by rewrite Hnd.
      - by rewrite list_lookup_insert_ne. }
    assert (parents_earlier h1) as Hpe1.
    { intros i x up Hx Hup. specialize (Hext i). rewrite Hx in Hext.
      destruct (h !! i) as [y|] eqn:Hy; simpl in Hext; [|done].
      apply (Hpe i y up Hy). congruence. }
    destruct (IH h1 (parent nd) Hpe1) as (h' & Hloop & Hlook).
    { intros up Hup. pose proof (Hpe n nd up Hnd Hup).
      unfold h1. rewrite length_insert. lia. }
    exists h'. split; [done|]. intros i. rewrite Hlook.
    rewrite (chain_ext h1 h Hext).
    destruct (decide (i = n)) as [->|Hne].
    + rewrite decide_False.
      2:{ destruct (parent nd) as [up|] eqn:Hup.
          - intros Hin%chain_bound; [|done]. pose proof (Hpe n nd up Hnd Hup). lia.
          - rewrite chain_None. by intros ?%elem_of_nil. }
      rewrite decide_True by (by left).
      unfold h1. rewrite list_lookup_insert_eq by done. by rewrite Hnd.
    + unfold h1. rewrite list_lookup_insert_ne by done.
      destruct (decide (i ∈ chain fuel h (parent nd))).
      * rewrite decide_True; [done|]. by right.
      * rewrite decide_False; [done|]. by intros [?|?]%elem_of_cons.
Qed.

(** backpropogation from [node] in a tree: every node of the parent chain
    is bumped once, the others stay. *)
Lemma backpropogation_lookup h node r winner t :
  tree_ok h → h !! 0%nat = Some r → (node < length h)%nat →
  ∃ h', backpropogation h 0 node winner t = Some h'
    ∧ ∀ i, h' !! i =
        if decide (i ∈ chain (length h) h (Some node))
        then bump (bool_decide (winner ≠ node_who r)) t <$> h !! i
        else h !! i.
Proof.
  intros Hok Hr Hnode. unfold backpropogation. rewrite Hr. simpl.
  replace (if decide (winner = node_who r) then false else true)
    with (bool_decide (winner ≠ node_who r)).
  2:{ destruct (decide (winner = node_who r)).
      - by rewrite bool_decide_eq_false_2 by (by intros ?).
      - by rewrite bool_decide_eq_true_2. }
  apply backprop_loop_lookup; [by apply tree_ok_parents_earlier|].
  intros n [= <-]. done.
Qed.

Lemma lookup_same_length (h h' : list Node) (f : nat → Node → Node) :
  (∀ i, h' !! i = f i <$> h !! i) → length h' = length h.
Proof.
  intros Hlook.
  destruct (Nat.lt_trichotomy (length h') (length h)) as [Hlt|[Heq|Hlt]]; [|done|].
  - destruct (lookup_lt_is_Some_2 h (length h') Hlt) as [x Hx].
    specialize (Hlook (length h')). rewrite Hx in Hlook. simpl in Hlook.
    apply lookup_lt_Some in Hlook. lia.
  - destruct (lookup_lt_is_Some_2 h' (length h) Hlt) as [x Hx].
    specialize (Hlook (length h)). rewrite Hx in Hlook.
    rewrite (lookup_ge_None_2 h (length h)) in Hlook by lia. done.
Qed.

End Backprop.

(** ** The rounds of take_action *)

Section Rounds.
Context `{B : Board} `{L : StdLib}.

Lemma search_loop_rounds fuel ticks limit :
  ∀ time p h t s,
    search_loop fuel ticks limit time p h t = Some s →
    ∃ k, (k ≤ length ticks)%nat ∧ rounds fuel k p h t = Some s
         ∧ ((time <? limit)%float = true → (1 ≤ k)%nat).
Proof.
  induction ticks as [|tick ticks IH]; intros time p h t s; simpl.
  - destruct (time <? limit)%float; [done|]. intros [= <-].
    exists 0%nat. split; [done|]. by split.
  - destruct (time <? limit)%float.
    + destruct (round fuel p h t) as [[[p1 h1] t1]|] eqn:Hr; simpl; [|done].
      intros Hs. destruct (IH _ _ _ _ _ Hs) as (k & Hk & Hrounds & _).
      exists (S k). split; [simpl; lia|]. split; [|lia]. simpl. by rewrite Hr.
    + intros [= <-]. exists 0%nat. split; [lia|]. by split.
Qed.

Lemma round_total fuel p h t p' h' t' :
  round fuel p h t = Some (p', h', t') →
  t' = t + 1
  ∧ ∃ leaf h1 winner p1,
      select (length h) h 0 = Some leaf ∧ expand p h leaf = Some h1
      ∧ simulation fuel p h1 leaf = Some (winner, p1)
      ∧ backpropogation h1 0 leaf winner t' = Some h' ∧ p' = p1.
Proof.
  unfold round.
  destruct (select (length h) h 0) as [leaf|] eqn:Hs; simpl; [|done].
  destruct (expand p h leaf) as [h1|] eqn:He; simpl; [|done].
  destruct (simulation fuel p h1 leaf) as [[winner p1]|] eqn:Hsim; simpl; [|done].
  destruct (backpropogation h1 0 leaf winner (t + 1)) as [h2|] eqn:Hb; simpl; [|done].
  intros [= <- <- <-]. split; [done|]. by exists leaf, h1, winner, p1.
Qed.

Lemma rounds_total fuel k :
  ∀ p h t p' h' t', rounds fuel k p h t = Some (p', h', t') →
    t' = t + Z.of_nat k.
Proof.
  induction k as [|k IH]; intros p h t p' h' t'; simpl.
  - intros [= _ _ <-]. lia.
  - destruct (round fuel p h t) as [[[p1 h1] t1]|] eqn:Hr; simpl; [|done].
    intros Hk. apply IH in Hk. apply round_total in Hr as [-> _]. lia.
Qed.

(** *** Stores with the same skeleton *)

Lemma skeleton_tree_ok h h' :
  (∀ i, skeleton <$> h' !! i = skeleton <$> h !! i) → tree_ok h → tree_ok h'.
Proof.
  intros Hsk (Hroot & Hup & Hdown).
  assert (∀ i x, h' !! i = Some x → ∃ y, h !! i = Some y ∧ skeleton x = skeleton y)
    as Hback.
  { intros i x Hx. specialize (Hsk i). rewrite Hx in Hsk.
    destruct (h !! i) as [y|]; simpl in Hsk; [|done]. exists y. split; congruence. }
  assert (∀ i y, h !! i = Some y → ∃ x, h' !! i = Some x ∧ skeleton x = skeleton y)
    as Hforth.
  { intros i y Hy. specialize (Hsk i). rewrite Hy in Hsk.
    destruct (h' !! i) as [x|]; simpl in Hsk; [|done]. exists x. split; congruence. }
  repeat split.
  - destruct Hroot as (r & Hr & Hnone).
    destruct (Hforth _ _ Hr) as (x & Hx & [= _ Hpar _ _ _]).
    exists x. split; congruence.
  - intros i x Hx Hi. destruct (Hback _ _ Hx) as (y & Hy & [= _ Hpar _ _ _]).
    rewrite Hpar. by apply (Hup i y).
  - intros i x c Hx Hc. destruct (Hback _ _ Hx) as (y & Hy & [= _ _ _ Hch _]).
    rewrite Hch in Hc. destruct (Hdown i y c Hy Hc) as (cn & Hcn & Hpar).
    destruct (Hforth _ _ Hcn) as (cx & Hcx & [= _ Hpar' _ _ _]).
    exists cx. split; congruence.
Qed.

Lemma skeleton_edges_legal h h' :
  (∀ i, skeleton <$> h' !! i = skeleton <$> h !! i) →
  edges_legal h → edges_legal h'.
Proof.
  intros Hsk Hedges i x c cx Hx Hc Hcx.
  pose proof (Hsk i) as Hi. rewrite Hx in Hi.
  destruct (h !! i) as [y|] eqn:Hy; simpl in Hi; [|done].
  pose proof (Hsk c) as Hci. rewrite Hcx in Hci.
  destruct (h !! c) as [cy|] eqn:Hcy; simpl in Hci; [|done].
  injection Hi as Hst _ _ Hch _. injection Hci as Hst' _ Hla _ _.
  rewrite Hst, Hst', Hla. apply (Hedges i y c cy); congruence.
Qed.

Lemma expanded_counts_ok h n nd side moves :
  counts_ok h → h !! n = Some nd → counts_ok (expanded h n nd side moves).
Proof.
  intros Hc Hn i x Hx. apply expanded_lookup in Hx; [|done].
  destruct Hx as [[-> ->]|[[_ Hx]|(j & m & -> & _ & ->)]]; simpl.
  - by apply (Hc n nd).
  - by apply (Hc i x).
  - lia.
Qed.

Lemma legal_moves_nil space st :
  legal_moves space st = [] ↔ Forall (λ m, snd (apply m st) = false) space.
Proof.
  unfold legal_moves. induction space as [|m space IH]; [done|].
  rewrite filter_cons. destruct (snd (apply m st)) eqn:Hm.
  - rewrite decide_True by done. split; [done|].
    intros [? _]%Forall_cons. congruence.
  - rewrite decide_False by done. rewrite IH. split; [by constructor|].
    by intros [_ ?]%Forall_cons.
Qed.

Lemma legal_moves_Forall space st :
  Forall (λ m, snd (apply m st) = true) (legal_moves space st).
Proof.
  apply Forall_forall. intros m Hm. unfold legal_moves in Hm.
  by apply list_elem_of_filter in Hm as [? _].
Qed.

(** The start of take_action: the root alone, then expanded. *)
Lemma root_expanded_inv (p : MCTS_player) (st : board) (side : piece_type) h :
  expand p [new_node st side None default_place] 0 = Some h → search_inv p h.
Proof.
  set (root := new_node st side None default_place).
  rewrite (expand_closed p [root] 0 root) by done. intros [= <-].
  assert (tree_ok [root]) as Hok.
  { repeat split.
    - by exists root.
    - intros [|i] x Hx Hi; [done|]. done.
    - intros [|i] x c Hx Hc; [|done]. injection Hx as <-. by apply elem_of_nil in Hc. }
  split; [|split; [|split]].
  - by apply expanded_tree_ok.
  - apply expanded_counts_ok; [|done].
    intros [|i] x Hx; [|done]. injection Hx as <-. simpl. lia.
  - apply expanded_edges_legal; [done| |done|apply legal_moves_Forall].
    intros [|i] x c cx Hx Hc; [|done]. injection Hx as <-. by apply elem_of_nil in Hc.
  - intros r Hr Hch.
    apply expanded_lookup in Hr; [|done].
    destruct Hr as [[_ ->]|[[? _]|(j & m & Hj & _)]]; [|done|simpl in Hj; lia].
    simpl in *. apply legal_moves_nil.
    change (space_for (add_children root _) p) with (space_for root p).
    destruct (legal_moves (space_for root p) st); [done|done].
Qed.


(** The nodes select passes through are on the parent chain of the node it
    returns, also in a store [h1] that kept the parents of [h]. *)
Lemma descends_in_chain h h1 fuel :
  tree_ok h → parents_earlier h1 →
  (∀ i x, h !! i = Some x → ∃ y, h1 !! i = Some y ∧ parent y = parent x) →
  ∀ a leaf, descends h a leaf → (leaf < fuel)%nat →
    a ∈ chain fuel h1 (Some leaf).
Proof.
  intros Hok Hpe Hkeep a leaf Hd. induction Hd as [n nd Hn Hc|n nd vals c leaf Hn Hne Hv Hc Hd IH];
    intros Hfuel.
  - destruct fuel; [lia|]. simpl. by left.
  - specialize (IH Hfuel).
    assert (c ∈ children nd) as Hin by (by eapply list_elem_of_lookup_2).
    destruct (tree_ok_child h n nd c Hok Hn Hin) as (_ & cn & Hcn & Hpar).
    destruct (Hkeep c cn Hcn) as (y & Hy & Hpy).
    apply (chain_parent h1 Hpe fuel leaf c y n); [done|done|done|congruence].
Qed.

Lemma descends_lt h a leaf : descends h a leaf → (leaf < length h)%nat.
Proof. induction 1; [by eapply lookup_lt_Some|done]. Qed.

Section Shuffle.
(** std::shuffle permutes the vector. *)
Hypothesis shuffle_perm : ∀ l e, fst (shuffle l e) ≡ₚ l.

Lemma with_order_perm side p order e :
  shuffle (space_of side p) (rng p) = (order, e) →
  white_space (with_order side p order e) ≡ₚ white_space p
  ∧ black_space (with_order side p order e) ≡ₚ black_space p.
Proof.
  intros Hsh. pose proof (shuffle_perm (space_of side p) (rng p)) as Hperm.
  rewrite Hsh in Hperm. simpl in Hperm. by destruct side.
Qed.

Lemma sim_loop_spaces fuel :
  ∀ st side p st' side' p', sim_loop fuel st side p = Some (st', side', p') →
    white_space p' ≡ₚ white_space p ∧ black_space p' ≡ₚ black_space p.
Proof.
  induction fuel as [|fuel IH]; intros st side p st' side' p'; simpl;
    pose proof (sim_turn_eq st side p) as Ht; simpl in Ht;
    destruct (shuffle (space_of (flip side) p) (rng p)) as [order e] eqn:Hsh;
    rewrite Ht; pose proof (with_order_perm _ _ _ _ Hsh) as [Hw Hb];
    destruct (first_legal order st) as [m|].
  - done.
  - by intros [= _ _ <-].
  - intros Hloop. apply IH in Hloop as [Hw' Hb']. split; by etrans.
  - by intros [= _ _ <-].
Qed.

Lemma simulation_spaces fuel p h n winner p' :
  simulation fuel p h n = Some (winner, p') →
  white_space p' ≡ₚ white_space p ∧ black_space p' ≡ₚ black_space p.
Proof.
  unfold simulation. destruct (h !! n) as [nd|]; simpl; [|done].
  destruct (sim_loop fuel (state nd) (node_who nd) p) as [[[st' side'] p1]|] eqn:Hloop;
    simpl; [|done].
  intros [= _ <-]. by eapply sim_loop_spaces.
Qed.

(** One pass through the body keeps the invariant and leaves a root with
    children with a visited child. *)
Lemma round_inv fuel p h t p' h' t' :
  search_inv p h → round fuel p h t = Some (p', h', t') →
  search_inv p' h' ∧ root_child_visited h'.
Proof.
  intros (Hok & Hcounts & Hedges & Hroot) Hround.
  apply round_total in Hround as (-> & leaf & h1 & winner & p1 & Hsel & Hexp & Hsim & Hbp & ->).
  pose proof (select_descends _ _ _ _ Hsel) as Hdesc.
  destruct (descends_leaf_no_children _ _ _ Hdesc) as (nd & Hnd & Hleaf).
  pose proof (lookup_lt_Some _ _ _ Hnd) as Hlt.
  rewrite (expand_closed p h leaf nd Hnd) in Hexp. injection Hexp as <-.
  set (moves := legal_moves (space_for nd p) (state nd)) in *.
  set (h1 := expanded h leaf nd (child_side nd) moves) in *.
  assert (tree_ok h1) as Hok1 by (by apply expanded_tree_ok).
  assert (counts_ok h1) as Hcounts1 by (by apply expanded_counts_ok).
  assert (edges_legal h1) as Hedges1.
  { apply expanded_edges_legal; try done. apply legal_moves_Forall. }
  assert (∀ i x, h !! i = Some x →
            ∃ y, h1 !! i = Some y ∧ skeleton y = 
                 (state x, parent x, last_action x,
                  if decide (i = leaf) then children x ++ seq (length h) (length moves)
                  else children x, node_who x)
                 ∧ visit_count y = visit_count x) as Hkeep.
  { intros i x Hx. destruct (decide (i = leaf)) as [->|Hne].
    - eexists. split; [apply expanded_lookup; [done|]; by left|].
      assert (x = nd) as -> by congruence. done.
    - exists x. split; [|done]. apply expanded_lookup; [done|]. right. by left. }
  destruct Hok as (Hr & Hrest). destruct Hr as (r & Hr & Hnone).
  pose proof (conj (ex_intro _ r (conj Hr Hnone)) Hrest : tree_ok h) as Hok.
  destruct (Hkeep 0%nat r Hr) as (r1 & Hr1 & Hsk1 & Hv1).
  assert (leaf < length h1)%nat as Hlt1.
  { unfold h1. rewrite expanded_length. lia. }
  destruct (backpropogation_lookup h1 leaf r1 winner (t + 1) Hok1 Hr1 Hlt1)
    as (h2 & Hbp2 & Hlook).
  assert (h2 = h') as -> by congruence.
  set (win := bool_decide (winner ≠ node_who r1)) in *.
  set (path := chain (length h1) h1 (Some leaf)) in *.
  assert (∀ i, skeleton <$> h' !! i = skeleton <$> h1 !! i) as Hsk.
  { intros i. rewrite Hlook. destruct (decide (i ∈ path)); [|done].
    by destruct (h1 !! i). }
  pose proof (simulation_spaces _ _ _ _ _ _ Hsim) as [Hw Hb].
  assert (∃ r', h' !! 0%nat = Some r' ∧ skeleton r' = skeleton r1) as (r' & Hr' & Hskr).
  { specialize (Hsk 0%nat). rewrite Hr1 in Hsk.
    destruct (h' !! 0%nat) as [r'|]; simpl in Hsk; [|done].
    exists r'. split; congruence. }
  split.
  - split; [by eapply skeleton_tree_ok|].
    split.
    { intros i x Hx. rewrite Hlook in Hx.
      destruct (h1 !! i) as [y|] eqn:Hy.
      2:{ by destruct (decide (i ∈ path)). }
      specialize (Hcounts1 i y Hy).
      destruct (decide (i ∈ path)); simpl in Hx; injection Hx as <-; [|done].
      simpl. destruct win; lia. }
    split; [by eapply skeleton_edges_legal|].
    intros x Hx Hch. assert (x = r') as -> by congruence.
    rewrite Hsk1 in Hskr. injection Hskr as Hst _ _ Hchr Hwho.
    assert (children r = []) as Hrnil.
    { rewrite Hch in Hchr. destruct (decide (0%nat = leaf)).
      - symmetry in Hchr. by apply app_eq_nil in Hchr as [? _].
      - done. }
    specialize (Hroot r Hr Hrnil).
    unfold space_for in *. rewrite Hst, Hwho.
    destruct (node_who r); [done| |].
    + by rewrite Hw.
    + by rewrite Hb.
  - intros x Hx Hch. assert (x = r') as -> by congruence.
    rewrite Hsk1 in Hskr. injection Hskr as Hst _ _ Hchr Hwho.
    destruct (decide (0%nat = leaf)) as [<-|Hne].
    + assert (nd = r) as -> by congruence.
      specialize (Hroot r Hr Hleaf).
      apply legal_moves_nil in Hroot. fold moves in Hroot.
      rewrite Hroot, Hleaf in Hchr. simpl in Hchr. congruence.
    + inversion Hdesc as [|n0 nd0 vals c leaf0 Hn0 Hne0 Hvals Hc Hd]; subst; [done|].
      assert (nd0 = r) as -> by congruence.
      assert (c ∈ children r) as Hin by (by eapply list_elem_of_lookup_2).
      destruct (tree_ok_child h 0 r c Hok Hr Hin) as (_ & cn & Hcn & _).
      destruct (Hkeep c cn Hcn) as (cn1 & Hcn1 & _ & Hvis).
      assert (c ∈ path) as Hpath.
      { apply (descends_in_chain h h1); try done.
        - by apply tree_ok_parents_earlier.
        - intros i y Hy. destruct (Hkeep i y Hy) as (y1 & Hy1 & Hsky & _).
          exists y1. split; [done|]. by injection Hsky. }
      exists c, (bump win (t + 1) cn1). split; [by rewrite Hchr|].
      split.
      * rewrite Hlook, decide_True by done. by rewrite Hcn1.
      * simpl. specialize (Hcounts c cn Hcn). lia.
Qed.

Lemma rounds_inv fuel k :
  ∀ p h t p' h' t', search_inv p h → rounds fuel k p h t = Some (p', h', t') →
    search_inv p' h' ∧ ((1 ≤ k)%nat → root_child_visited h').
Proof.
  induction k as [|k IH]; intros p h t p' h' t' Hinv; simpl.
  - intros [= <- <- <-]. split; [done|lia].
  - destruct (round fuel p h t) as [[[p1 h1] t1]|] eqn:Hr; simpl; [|done].
    intros Hk. destruct (round_inv _ _ _ _ _ _ _ Hinv Hr) as [Hinv1 Hvis1].
    destruct (IH _ _ _ _ _ _ Hinv1 Hk) as [Hinv' Hvis'].
    split; [done|]. intros _. destruct k as [|k]; [|apply Hvis'; lia].
    simpl in Hk. by injection Hk as <- <- <-.
Qed.

End Shuffle.
End Rounds.

(** ** take_action *)

Section TakeAction.
Context `{B : Board} `{L : StdLib}.

(** Every entry of the table leaves a positive limit, so the loop is
    entered when the lookup is defined. *)
Lemma budget_positive i budget :
  time_schedule_at i = Some budget → (0 <? 0.95 * budget)%float = true.
Proof.
  unfold time_schedule_at. destruct (decide (0 ≤ i < 36)); [|done].
  intros Hb. apply list_elem_of_lookup_2 in Hb.
  assert (Forall (λ b, (0 <? 0.95 * b)%float = true) time_schedule) as Hall.
  { unfold time_schedule. repeat constructor. }
  rewrite Forall_forall in Hall. by apply Hall.
Qed.

(** The lookup is inside the array for 2 to 73 empty cells, and only then:
    the index is not clamped. *)
Lemma time_schedule_defined (st : board) :
  is_Some (time_schedule_at (step_of st)) ↔ 2 ≤ remain_empty st ≤ 73.
Proof.
  unfold time_schedule_at, step_of.
  destruct (decide (0 ≤ 36 - remain_empty st `quot` 2 < 36)) as [Hin|Hout].
  - split.
    + intros _. Z.to_euclidean_division_equations. lia.
    + intros _. apply lookup_lt_is_Some_2. simpl. lia.
  - split; [by intros [? ?]|]. intros Hr. exfalso. apply Hout.
    Z.to_euclidean_division_equations. lia.
Qed.

Section Shuffle.
Hypothesis shuffle_perm : ∀ l e, fst (shuffle l e) ≡ₚ l.

(** The tree at the end of the while loop. *)
Lemma search_final fuel ticks p st p' h t :
  search fuel ticks p st = Some (p', h, t) →
  search_inv p' h ∧ root_child_visited h
  ∧ ∃ p0 h0 k, rounds fuel k p0 h0 0 = Some (p', h, t) ∧ t = Z.of_nat k.
Proof.
  unfold search.
  set (p0 := set_step_count p (step_of st)).
  destruct (expand p0 _ 0) as [h0|] eqn:Hexp; simpl; [|done].
  destruct (time_schedule_at (step_of st)) as [budget|] eqn:Hb; simpl; [|done].
  intros Hloop.
  apply search_loop_rounds in Hloop as (k & _ & Hrounds & Hk).
  specialize (Hk (budget_positive _ _ Hb)).
  pose proof (root_expanded_inv _ _ _ _ Hexp) as Hinv.
  destruct (rounds_inv shuffle_perm _ _ _ _ _ _ _ _ Hinv Hrounds) as [Hinv' Hvis].
  split; [done|]. split; [by apply Hvis|].
  exists p0, h0, k. split; [done|]. apply rounds_total in Hrounds. lia.
Qed.

(** C9. When take_action returns, its result is read from the tree at the
    end of the loop: with no child of the root, action(); otherwise the
    last_action of the child of the root with the highest visit count, the
    first such child in the order of insertion (every earlier child has a
    strictly lower count). *)
Theorem take_action_result (fuel : nat) (ticks : list float)
    (p : MCTS_player) (st : board) (a : action) (p' : MCTS_player) :
  take_action fuel ticks p st = Some (a, p') →
  ∃ h t r,
    search fuel ticks p st = Some (p', h, t) ∧ h !! 0%nat = Some r
    ∧ (children r = [] → a = action_default)
    ∧ (children r ≠ [] →
       ∃ k c cn, children r !! k = Some c ∧ h !! c = Some cn
         ∧ a = action_place (last_action cn)
         ∧ ∀ j c' cn', children r !! j = Some c' → h !! c' = Some cn' →
             visit_count cn' ≤ visit_count cn
             ∧ ((j < k)%nat → visit_count cn' < visit_count cn)).
Proof.
  unfold take_action.
  destruct (search fuel ticks p st) as [[[p1 h] t]|] eqn:Hs; simpl; [|done].
  destruct (greedy_select h 0) as [res|] eqn:Hg; simpl; [|done].
  intros [= <- <-].
  destruct (search_final _ _ _ _ _ _ _ Hs) as ((Hok & _) & Hvis & _).
  pose proof Hok as ((r & Hr & _) & _).
  exists h, t, r. split; [done|]. split; [done|].
  destruct (greedy_select_cases h 0 r Hok Hr)
    as [[Hdef Hall]|(k & c & cn & Hk & Hcn & Hsel & Hpos & Hmax)].
  - split; [congruence|]. intros Hne.
    destruct (Hvis r Hr Hne) as (c & cn & Hc & Hcn & Hone).
    specialize (Hall c cn Hc Hcn). lia.
  - split.
    + intros Hnil. rewrite Hnil in Hk. done.
    + intros _. exists k, c, cn. repeat split; try done; try congruence.
      * by apply (Hmax j c' cn').
      * by apply (Hmax j c' cn').
Qed.

(** In a position without a legal move for the player, with the lookup
    inside the table and a clock that reaches the limit, take_action
    returns action(). *)
Lemma take_action_no_legal_move (fuel : nat) (ticks : list float)
    (p : MCTS_player) (st : board) (budget : float) :
  time_schedule_at (step_of st) = Some budget →
  Exists (λ x, (x <? 0.95 * budget)%float = false) ticks →
  Forall (λ m, snd (apply m st) = false) (space_of (flip (flip (who p))) p) →
  ∃ p', take_action fuel ticks p st = Some (action_default, p').
Proof.
  intros Hb Hticks Hnone. unfold take_action, search.
  set (p0 := set_step_count p (step_of st)).
  set (side := flip (who p0)).
  set (root := new_node st side None default_place).
  assert (space_for root p0 = space_of (flip (flip (who p))) p) as Hspace.
  { unfold space_for, root, side. simpl. by destruct (who p). }
  rewrite (expand_closed p0 [root] 0 root) by done. simpl.
  assert (legal_moves (space_for root p0) st = []) as Hmoves.
  { apply legal_moves_nil. by rewrite Hspace. }
  change (state root) with st. rewrite Hmoves.
  unfold expanded. simpl. rewrite add_children_nil.
  change (step_count p0) with (step_of st). rewrite Hb. simpl.
  assert (∀ ticks time (q : MCTS_player) (r : Node) t,
            Exists (λ x, (x <? 0.95 * budget)%float = false) ticks
            ∨ (time <? 0.95 * budget)%float = false →
            children r = [] → state r = st → node_who r = side →
            parent r = None →
            white_space q ≡ₚ white_space p → black_space q ≡ₚ black_space p →
            ∃ q' r' t', search_loop fuel ticks (0.95 * budget) time q [r] t
                        = Some (q', [r'], t') ∧ children r' = []) as Hloop.
  { clear Hticks. induction ticks0 as [|tick ticks0 IH];
      intros time q r t Hend Hch Hst Hwho Hpar Hw Hbk; simpl.
    - destruct Hend as [Hend|Hend]; [by apply Exists_nil in Hend|].
      rewrite Hend. by eexists _, _, _.
    - destruct (time <? 0.95 * budget)%float eqn:Htime; [|by eexists _, _, _].
      unfold round. simpl. rewrite Hch. simpl.
      rewrite (expand_closed q [r] 0 r) by done.
      assert (Forall (λ m, snd (apply m st) = false) (space_of (flip side) q)) as Hq.
      { unfold side. change (who p0) with (who p).
        destruct (flip (flip (who p))) eqn:Hff; simpl in *;
          [done|by rewrite Hbk|by rewrite Hw]. }
      assert (legal_moves (space_for r q) (state r) = []) as Hmq.
      { apply legal_moves_nil. rewrite Hst.
        replace (space_for r q) with (space_of (flip side) q); [done|].
        unfold space_for. rewrite Hwho. unfold side. by destruct (who p0). }
      rewrite Hmq. unfold expanded. simpl. rewrite add_children_nil. simpl.
      unfold simulation. simpl. rewrite Hst, Hwho.
      assert (∃ side' q1, sim_loop fuel st side q = Some (st, side', q1)
                ∧ white_space q1 ≡ₚ white_space q
                ∧ black_space q1 ≡ₚ black_space q) as (side' & q1 & Hsim & Hw1 & Hb1).
      { pose proof (sim_turn_eq st side q) as Ht. simpl in Ht.
        destruct (shuffle (space_of (flip side) q) (rng q)) as [order e] eqn:Hsh.
        pose proof (with_order_perm shuffle_perm _ _ _ _ Hsh) as [Hw1 Hb1].
        assert (first_legal order st = None) as Hfl.
        { apply first_legal_None.
          pose proof (shuffle_perm (space_of (flip side) q) (rng q)) as Hperm.
          rewrite Hsh in Hperm. simpl in Hperm. by rewrite Hperm. }
        rewrite Hfl in Ht. exists (flip side), (with_order (flip side) q order e).
        split; [|done]. destruct fuel; simpl; by rewrite Ht. }
      rewrite Hsim. simpl. unfold backpropogation. simpl.
      assert (Exists (λ x, (x <? 0.95 * budget)%float = false) ticks0
              ∨ (tick <? 0.95 * budget)%float = false) as Hend'.
      { destruct Hend as [Hend|Hend]; [|congruence].
        apply Exists_cons in Hend as [Hend|Hend]; [by right|by left]. }
      destruct (IH tick q1 (compute_value
                  (visit r (if decide (flip side' = node_who r) then false else true))
                  (t + 1)) (t + 1) Hend')
        as (q' & r' & t' & Hl & Hch'); try done.
      + by etrans.
      + by etrans.
      + rewrite Hpar. simpl. rewrite Hl. by eexists _, _, _. }
  destruct (Hloop ticks 0%float p0 root 0) as (q' & r' & t' & Hl & Hch); try done.
  { by left. }
  rewrite Hl. simpl. exists q'. unfold greedy_select. simpl. by rewrite Hch.
Qed.

End Shuffle.
End TakeAction.

(** ** The tree over the whole search *)

Section WholeSearch.
Context `{B : Board} `{L : StdLib}.

Lemma expand_counts_ok (p : MCTS_player) h n h1 :
  counts_ok h → expand p h n = Some h1 → counts_ok h1.
Proof.
  intros Hc Hexp. destruct (h !! n) as [nd|] eqn:Hn.
  - rewrite (expand_closed p h n nd Hn) in Hexp. injection Hexp as <-.
    by apply expanded_counts_ok.
  - unfold expand in Hexp. by rewrite Hn in Hexp.
Qed.

(** C5. Expanding a node appends to the store one new node for every
    candidate of the other side that is legal on the node's board, in the
    order of the vector, and appends their indices to the node's children;
    nothing else changes, so no node comes from an illegal candidate. Each
    new node holds the board after the move, the side of the mover, the
    expanded node as parent and the move as last_action. A tree stays a tree
    and every edge stays a legal move of the parent's board; so the tree at
    the end of the loop of take_action is a tree all of whose edges are
    legal moves. *)
Theorem expand_spec (p : MCTS_player) (h : list Node) (n : nat) (nd : Node) :
  spaces_ok p → h !! n = Some nd → node_who nd ≠ empty →
  ∃ moves,
    expand p h n = Some (expanded h n nd (child_side nd) moves)
    ∧ NoDup moves
    ∧ (∀ m, m ∈ moves ↔
         m ∈ full_space (child_side nd) ∧ snd (apply m (state nd)) = true)
    ∧ (∀ m, m ∈ moves → place_who m = child_side nd)
    ∧ (tree_ok h → tree_ok (expanded h n nd (child_side nd) moves))
    ∧ (tree_ok h → edges_legal h →
       edges_legal (expanded h n nd (child_side nd) moves))
    ∧ ((∀ l e, fst (shuffle l e) ≡ₚ l) →
       ∀ fuel ticks q st q' tree total,
         search fuel ticks q st = Some (q', tree, total) →
         tree_ok tree ∧ edges_legal tree).
Proof.
  intros Hp Hn Hside.
  pose proof (space_for_full p nd Hp Hside) as Hperm.
  exists (legal_moves (space_for nd p) (state nd)).
  assert (∀ m, m ∈ legal_moves (space_for nd p) (state nd) ↔
            m ∈ full_space (child_side nd) ∧ snd (apply m (state nd)) = true)
    as Hiff.
  { intros m. unfold legal_moves. rewrite list_elem_of_filter, Hperm. tauto. }
  split; [by apply expand_closed|].
  split.
  { unfold legal_moves. apply NoDup_filter. rewrite Hperm. apply full_space_NoDup. }
  split; [exact Hiff|].
  split; [intros m Hm; apply full_space_who; by apply Hiff|].
  split; [intros Hok; by apply expanded_tree_ok|].
  split.
  { intros Hok Hedges. apply expanded_edges_legal; try done.
    apply Forall_forall. intros m Hm. by apply Hiff. }
  intros Hperm' fuel ticks q st q' tree total Hs.
  destruct (search_final Hperm' _ _ _ _ _ _ _ Hs) as ((Hok & _ & Hedges & _) & _).
  by split.
Qed.

End WholeSearch.

(** ** The score of a node *)

Section Score.
Context `{B : Board} `{L : StdLib}.

Lemma search_rounds fuel ticks p st p' h t :
  search fuel ticks p st = Some (p', h, t) →
  ∃ p0 h0 k, rounds fuel k p0 h0 0 = Some (p', h, t) ∧ t = Z.of_nat k.
Proof.
  unfold search.
  destruct (expand _ _ 0) as [h0|]; simpl; [|done].
  destruct (time_schedule_at (step_of st)) as [budget|]; simpl; [|done].
  intros Hloop. apply search_loop_rounds in Hloop as (k & _ & Hrounds & _).
  eexists _, h0, k. split; [done|]. apply rounds_total in Hrounds. lia.
Qed.

(** Among values that are FLT_MAX or below it, the scan of select takes the
    first FLT_MAX. *)
Lemma select_index_unvisited (vals : list float) :
  FLT_MAX ∈ vals →
  Forall (λ v, v = FLT_MAX ∨ (v <? FLT_MAX)%float = true) vals →
  vals !! select_index vals = Some FLT_MAX
  ∧ ∀ j, (j < select_index vals)%nat → vals !! j ≠ Some FLT_MAX.
Proof.
  intros Hin Hall.
  destruct (select_index_spec vals) as [_ Hbest].
  destruct Hbest as (v & Hv & _ & Hmax).
  { apply Exists_exists. by exists FLT_MAX. }
  apply list_elem_of_lookup in Hin as [i Hi].
  destruct (Hmax i FLT_MAX Hi) as [Hlt _].
  rewrite Forall_lookup in Hall.
  destruct (Hall _ _ Hv) as [->|Hlt']; [|congruence].
  split; [done|]. intros j Hj Hjv.
  destruct (Hmax j FLT_MAX Hjv) as [_ Hle]. specialize (Hle Hj). done.
Qed.

End Score.

(** ** The small board: laws and runs *)

Section GridLaws.
Import Grid.

Lemma rotate_by_perm (l : list place) (e : Z) : fst (rotate_by l e) ≡ₚ l.
Proof.
  unfold rotate_by, rotate. simpl.
  rewrite Permutation_app_comm. by rewrite take_drop.
Qed.

Lemma empties_insert (g : grid) (i : nat) (side : piece_type) :
  g !! i = Some empty → side ≠ empty →
  (empties (<[i := side]> g) < empties g)%nat.
Proof.
  unfold empties, grid in *. revert i.
  induction g as [|c g IH]; intros i Hi Hside; [done|].
  destruct i as [|i]; simpl in Hi.
  - injection Hi as ->. change (<[0%nat := side]> (empty :: g)) with (side :: g).
    rewrite !filter_cons.
    rewrite (decide_False (P := side = empty)) by done.
    rewrite (decide_True (P := empty = empty)) by done. simpl. lia.
  - specialize (IH i Hi Hside).
    change (<[S i := side]> (c :: g)) with (c :: <[i := side]> g).
    rewrite !filter_cons.
    destruct (decide (c = empty)); simpl; lia.
Qed.

Lemma put_lowers_empties (m : place) (g : grid) :
  snd (put m g) = true → (empties (fst (put m g)) < empties g)%nat.
Proof.
  unfold put. destruct (legal m g) eqn:Hlegal; simpl; [|done]. intros _.
  unfold legal in Hlegal.
  apply andb_prop in Hlegal as [Hlegal _].
  apply andb_prop in Hlegal as [Hlegal Hside].
  apply andb_prop in Hlegal as [_ Hcell].
  apply bool_decide_eq_true in Hside, Hcell.
  by apply empties_insert.
Qed.

End GridLaws.

(** ** Checks on a concrete store *)

Section TreeCheck.
Context `{B : Board}.

Lemma tree_okb_sound (h : list Node) : tree_okb h = true → tree_ok h.
Proof.
  unfold tree_okb. intros Hb.
  apply andb_prop in Hb as [Hb Hdown]. apply andb_prop in Hb as [Hroot Hup].
  rewrite forallb_forall in Hup, Hdown.
  assert (∀ i nd, h !! i = Some nd → In i (seq 0 (length h))) as Hin.
  { intros i nd Hi. apply in_seq. apply lookup_lt_Some in Hi. lia. }
  split; [|split].
  - destruct h as [|r h]; [done|]. exists r. split; [done|].
    by apply bool_decide_eq_true in Hroot.
  - intros i nd Hi Hne. specialize (Hup i (Hin i nd Hi)). rewrite Hi in Hup.
    apply orb_prop in Hup as [Hz|Hup]; [apply Nat.eqb_eq in Hz; done|].
    destruct (parent nd) as [up|]; [|done]. exists up. split; [done|].
    by apply Nat.ltb_lt.
  - intros i nd c Hi Hc. specialize (Hdown i (Hin i nd Hi)). rewrite Hi in Hdown.
    rewrite forallb_forall in Hdown. apply list_elem_of_In in Hc.
    specialize (Hdown c Hc). destruct (h !! c) as [cn|]; [|done].
    exists cn. split; [done|]. by apply bool_decide_eq_true in Hdown.
Qed.

Lemma take_action_undefined `{L : StdLib} fuel ticks (p : MCTS_player) st :
  time_schedule_at (step_of st) = None → take_action fuel ticks p st = None.
Proof.
  intros Hb. unfold take_action, search.
  destruct (expand _ _ 0) as [h|]; [|reflexivity].
  change (step_count (set_step_count p (step_of st))) with (step_of st).
  by rewrite Hb.
Qed.

End TreeCheck.

Section Runs.
Import Grid.

Lemma black_player_constructed : new_MCTS_player "role=black" = Ok black_player.
Proof. reflexivity. Qed.

Lemma example_tree0_ok : tree_ok example_tree0.
Proof. apply tree_okb_sound. by vm_compute. Qed.

Lemma example_tree_ok : tree_ok example_tree.
Proof. apply tree_okb_sound. by vm_compute. Qed.

Lemma black_player_spaces_ok : spaces_ok black_player.
Proof. by split. Qed.

(** C1. The index into the table is 36 - remain_empty / 2 as it stands: on
    the empty 9x9 board it is -4 and on a full board 36, both outside the
    36 entries, so the lookup and with it take_action are undefined there. *)
Theorem time_schedule_out_of_range :
  remain_empty empty_grid = 81 ∧ step_of empty_grid = -4
  ∧ time_schedule_at (step_of empty_grid) = None
  ∧ remain_empty full_grid = 0 ∧ step_of full_grid = 36
  ∧ time_schedule_at (step_of full_grid) = None
  ∧ (∀ fuel ticks p, take_action fuel ticks p empty_grid = None)
  ∧ (∀ fuel ticks p, take_action fuel ticks p full_grid = None).
Proof.
  assert (time_schedule_at (step_of empty_grid) = None) as Hempty by (by vm_compute).
  assert (time_schedule_at (step_of full_grid) = None) as Hfull by (by vm_compute).
  split; [by vm_compute|]. split; [by vm_compute|]. split; [exact Hempty|].
  split; [by vm_compute|]. split; [by vm_compute|]. split; [exact Hfull|].
  split; intros fuel ticks p; by apply take_action_undefined.
Qed.

(** C3. On a board whose single empty cell is closed to white, white to
    move has no legal move; one empty cell gives index 36, outside the
    table, so take_action reads past the array and its result is
    undefined instead of action(). *)
Theorem terminal_position_out_of_range :
  Forall (λ m, snd (apply m one_left) = false) (full_space white)
  ∧ remain_empty one_left = 1 ∧ step_of one_left = 36
  ∧ time_schedule_at (step_of one_left) = None
  ∧ ∀ fuel ticks, take_action fuel ticks white_player one_left = None.
Proof.
  split; [apply (bool_decide_unpack _); by vm_compute|].
  split; [by vm_compute|]. split; [by vm_compute|]. split; [by vm_compute|].
  intros fuel ticks. apply take_action_undefined. by vm_compute.
Qed.

(** *** The theorems at concrete inputs *)

Lemma agent_defaults_counterexample :
  ¬ (∀ args p, has_key "name" args = false →
       new_MCTS_player args = Ok p → name (meta p) = Some "unknown"%string).
Proof.
  intros Hclaim.
  specialize (Hclaim "role=black"%string black_player eq_refl black_player_constructed).
  vm_compute in Hclaim. discriminate.
Qed.

Lemma agent_defaults_witness :
  name (agent "seed=7") = Some "unknown"%string
  ∧ role (agent "seed=7") = Some "unknown"%string
  ∧ (∀ p, new_MCTS_player "seed=7" = Ok p → name (meta p) = Some "random"%string)
  ∧ (∃ e, new_MCTS_player "seed=7" = Throw e).
Proof.
  destruct (agent_defaults "seed=7") as (Hname & Hrole & Hrandom & Hthrow).
  split; [apply Hname; reflexivity|].
  split; [apply Hrole; reflexivity|].
  split; [apply Hrandom; reflexivity|].
  apply Hthrow; reflexivity.
Defined.

Lemma select_spec_witness :
  ∃ leaf nd, select (length example_tree) example_tree 0 = Some leaf
    ∧ descends example_tree 0 leaf
    ∧ example_tree !! leaf = Some nd ∧ children nd = [].
Proof.
  apply (select_spec example_tree 0); [exact example_tree_ok|vm_compute; lia].
Defined.

Lemma expand_spec_witness :
  ∃ moves,
    expand black_player [example_root] 0
    = Some (expanded [example_root] 0 example_root (child_side example_root) moves)
    ∧ NoDup moves.
Proof.
  destruct (expand_spec black_player [example_root] 0 example_root)
    as (moves & Hexp & Hnodup & _);
    [exact black_player_spaces_ok|reflexivity|discriminate|].
  exists moves. exact (conj Hexp Hnodup).
Defined.

Lemma simulation_spec_witness :
  ∃ winner p',
    simulation 81 black_player [example_root] 0 = Some (winner, p')
    ∧ playout two_left black black_player winner p'.
Proof.
  destruct (simulation_spec (B:=grid_board) (L:=grid_stdlib)
              rotate_by_perm empties put_lowers_empties
              81 black_player [example_root] 0 example_root)
    as (winner & p' & Hsim & Hplay & _);
    [exact black_player_spaces_ok|reflexivity|discriminate|vm_compute; lia|].
  exists winner, p'. exact (conj Hsim Hplay).
Defined.

(** The value of a new node is not the largest double: the largest finite
    double is above it. *)
Lemma score_spec_counterexample :
  ¬ (∀ x : float,
       (value (new_node two_left white None default_place) <? x)%float = false).
Proof.
  intros Hmax. specialize (Hmax 0x1.fffffffffffffp+1023%float).
  vm_compute in Hmax. discriminate.
Qed.

Lemma take_action_result_witness :
  ∃ h t r,
    search 10 example_ticks black_player two_left = Some (example_result.2, h, t)
    ∧ h !! 0%nat = Some r.
Proof.
  destruct (take_action_result (B:=grid_board) (L:=grid_stdlib)
              rotate_by_perm 10 example_ticks black_player
              two_left example_result.1 example_result.2)
    as (h & t & r & Hs & Hr & _).
  { unfold example_result.
    assert (is_Some (take_action 10 example_ticks black_player two_left))
      as [[a p'] ->]; [|done].
    apply (bool_decide_unpack _). by vm_compute. }
  exists h, t, r. exact (conj Hs Hr).
Defined.

Lemma greedy_select_unvisited_witness :
  greedy_select example_tree0 0 = Some action_default.
Proof.
  apply (greedy_select_unvisited example_tree0 0
           (add_children example_root [1; 2]%nat));
    [exact example_tree0_ok|reflexivity|].
  intros c cn Hc Hcn.
  apply elem_of_cons in Hc as [->|Hc]; [by injection Hcn as <-|].
  apply elem_of_cons in Hc as [->|Hc]; [by injection Hcn as <-|].
  by apply elem_of_nil in Hc.
Defined.

End Runs.

(** * Further properties *)

(** ** The option string and the meta table *)

Section MetaTable.

Lemma find_eq_app (k v : string) :
  find_eq k = None → find_eq (k +:+ String "="%char v) = Some (String.length k).
Proof.
  induction k as [|c k IH]; simpl; [done|].
  destruct (Ascii.eqb c "="%char); [done|].
  destruct (find_eq k) as [i|]; [done|]. intros _. by rewrite IH.
Qed.

Lemma find_eq_app_None (k v : string) :
  find_eq k = None → find_eq v = None → find_eq (k +:+ v) = None.
Proof.
  intros Hk Hv. induction k as [|c k IH]; simpl in *; [done|].
  destruct (Ascii.eqb c "="%char); [done|].
  destruct (find_eq k) as [i|]; [done|]. by rewrite IH.
Qed.

Lemma substring_prefix (k s : string) :
  String.substring 0 (String.length k) (k +:+ s) = k.
Proof.
  induction k as [|c k IH]; simpl; [by destruct s|]. by rewrite IH.
Qed.

Lemma substring_all (v : string) : String.substring 0 (String.length v) v = v.
Proof. induction v as [|c v IH]; simpl; [done|]. by rewrite IH. Qed.

Lemma substring_suffix (k v : string) (c : ascii) :
  String.substring (S (String.length k)) (String.length v) (k +:+ String c v) = v.
Proof.
  induction k as [|a k IH]; simpl; [apply substring_all|]. exact IH.
Qed.

Lemma length_app_eq (k v : string) :
  String.length (k +:+ v) = (String.length k + String.length v)%nat.
Proof. induction k as [|c k IH]; simpl; [done|]. by rewrite IH. Qed.

Lemma key_value_of_pair (k v : string) :
  find_eq k = None →
  key_of (k +:+ String "="%char v) = k ∧ value_of (k +:+ String "="%char v) = v.
Proof.
  intros Hk. unfold key_of, value_of. rewrite (find_eq_app k v Hk).
  split; [apply substring_prefix|].
  rewrite length_app_eq. simpl.
  replace (String.length k + S (String.length v) - S (String.length k))%nat
    with (String.length v) by lia.
  apply substring_suffix.
Qed.

(** X1. A word [k=v] whose key has no '=' splits into the key [k] and the
    value [v], also when the value is empty or holds further '='; a word
    without '=' is its own key and its own value. *)
Theorem key_value_split (k v w : string) :
  (find_eq k = None →
   key_of (k +:+ String "="%char v) = k ∧ value_of (k +:+ String "="%char v) = v)
  ∧ (find_eq w = None → key_of w = w ∧ value_of w = w).
Proof.
  split.
  - apply key_value_of_pair.
  - intros Hw. unfold key_of, value_of. by rewrite Hw.
Qed.

(** X2. notify stores the value under the key of the message, where
    property finds it, and leaves every other key as it was. *)
Theorem notify_property (meta : gmap string string) (k v k' : string) :
  find_eq k = None →
  property (notify meta (k +:+ String "="%char v)) k = Some v
  ∧ (k' ≠ k →
     property (notify meta (k +:+ String "="%char v)) k' = property meta k').
Proof.
  intros Hk. destruct (key_value_of_pair k v Hk) as [Hkey Hval].
  unfold property, notify. rewrite Hkey, Hval. split.
  - apply lookup_insert_eq.
  - intros Hne. by apply lookup_insert_ne.
Qed.

Lemma foldl_insert_last (k : string) (l1 l2 : list string) (w : string)
    (m : gmap string string) :
  key_of w = k →
  existsb (λ pair, bool_decide (key_of pair = k)) l2 = false →
  foldl (λ meta pair, <[key_of pair := value_of pair]> meta) m (l1 ++ w :: l2) !! k
  = Some (value_of w).
Proof.
  intros Hw Hl2. rewrite foldl_app. simpl.
  rewrite foldl_insert_other by done. rewrite <- Hw. apply lookup_insert_eq.
Qed.

Lemma foldl_insert_is_Some (k : string) (l : list string) (m : gmap string string) :
  is_Some (m !! k) →
  is_Some (foldl (λ meta pair, <[key_of pair := value_of pair]> meta) m l !! k).
Proof.
  revert m. induction l as [|w l IH]; intros m Hm; simpl; [done|].
  apply IH. rewrite lookup_insert_is_Some.
  destruct (decide (key_of w = k)); [by left|by right].
Qed.

(** X3. The pairs of the option string are stored in order, so the last
    pair of a key decides its value, also against the defaults: when a word
    with key [k] is followed by no other word with key [k], property(k) is
    the value of that word. *)
Theorem agent_last_pair_wins (args : string) (l1 l2 : list string) (w k : string) :
  words args = l1 ++ w :: l2 → key_of w = k →
  existsb (λ pair, bool_decide (key_of pair = k)) l2 = false →
  property (agent args) k = Some (value_of w).
Proof.
  intros Hwords Hw Hl2. unfold property, agent, parse_meta.
  rewrite words_agent_prefix, Hwords.
  change ("name=unknown"%string :: "role=unknown"%string :: l1 ++ w :: l2)
    with (("name=unknown"%string :: "role=unknown"%string :: l1) ++ w :: l2).
  by apply foldl_insert_last.
Qed.

Lemma agent_name_role (args : string) :
  is_Some (name (agent args)) ∧ is_Some (role (agent args)).
Proof.
  unfold name, role, property, agent, parse_meta. rewrite words_agent_prefix.
  simpl. split.
  - apply foldl_insert_is_Some. rewrite lookup_insert_is_Some. right.
    split; [done|]. rewrite lookup_insert_eq. by eexists.
  - apply foldl_insert_is_Some. rewrite lookup_insert_eq. by eexists.
Qed.

(** X4. Every agent has a name and a role, whatever the option string:
    name() and role() never throw. A key that is neither of them and has no
    pair in the option string is absent, so property throws for it. *)
Theorem agent_properties_defined (args k : string) :
  is_Some (name (agent args)) ∧ is_Some (role (agent args))
  ∧ (k ≠ "name"%string → k ≠ "role"%string → has_key k args = false →
     property (agent args) k = None).
Proof.
  destruct (agent_name_role args) as [Hname Hrole].
  split; [exact Hname|]. split; [exact Hrole|].
  unfold property, agent, parse_meta. rewrite words_agent_prefix. simpl.
  intros Hn Hr Hk. rewrite foldl_insert_other by done.
  rewrite lookup_insert_ne by done. rewrite lookup_insert_ne by done.
  apply lookup_empty.
Qed.

End MetaTable.

(** ** The constructors *)

Section Constructors.
Context `{B : Board} `{L : StdLib}.

Lemma resolve_who_Ok m side :
  resolve_who m = Ok side →
  (side = black ∧ role m = Some "black"%string
   ∨ side = white ∧ role m = Some "white"%string)
  ∧ ∃ n, name m = Some n ∧ has_invalid_char n = false.
Proof.
  unfold resolve_who. destruct (name m) as [n|]; [|done].
  destruct (has_invalid_char n) eqn:Hn; [done|].
  destruct (role m) as [r|]; [|done].
  destruct (decide (r = "white"%string)) as [->|Hw].
  - simpl. intros [= <-]. split; [by right|by exists n].
  - destruct (decide (r = "black"%string)) as [->|Hb].
    + simpl. intros [= <-]. split; [by left|by exists n].
    + done.
Qed.

Lemma resolve_who_Throw m e :
  resolve_who m = Throw e →
  is_Some (name m) → is_Some (role m) →
  match e with
  | invalid_seed | missing_property => False
  | invalid_name n => name m = Some n ∧ has_invalid_char n = true
  | invalid_role r =>
      role m = Some r ∧ r ≠ "black"%string ∧ r ≠ "white"%string
      ∧ ∃ n, name m = Some n ∧ has_invalid_char n = false
  end.
Proof.
  unfold resolve_who. intros He [n Hn] [r Hr]. rewrite Hn, Hr in He.
  destruct (has_invalid_char n) eqn:Hbad; [by injection He as <-|].
  destruct (decide (r = "white"%string)) as [->|Hw]; [done|].
  destruct (decide (r = "black"%string)) as [->|Hb]; [done|].
  simpl in He. injection He as <-. repeat split; try done. by exists n.
Qed.

Lemma random_agent_engine args m e :
  random_agent args = Ok (m, e) →
  match agent args !! "seed"%string with
  | Some v => seed_engine v = Some e
  | None => e = default_engine
  end.
Proof.
  unfold random_agent. destruct (agent args !! "seed"%string) as [v|].
  - destruct (seed_engine v); [|done]. by intros [= _ <-].
  - by intros [= _ <-].
Qed.

(** X5. A constructed tree-search player or baseline picker has a side,
    black or white, the one its role names; its name has none of the
    characters "[]():; "; its engine is the default one, or the one seeded
    from the seed option; and its vectors hold the placements of all 81
    cells, for both sides in the tree-search player and for its own side in
    the picker. *)
Theorem constructed_players (args : string) :
  let m := agent ("name=random role=unknown " +:+ args) in
  (∀ p, new_MCTS_player args = Ok p →
     meta p = m
     ∧ (who p = black ∧ role m = Some "black"%string
        ∨ who p = white ∧ role m = Some "white"%string)
     ∧ (∃ n, name m = Some n ∧ has_invalid_char n = false)
     ∧ match m !! "seed"%string with
       | Some v => seed_engine v = Some (rng p)
       | None => rng p = default_engine
       end
     ∧ white_space p = full_space white ∧ black_space p = full_space black
     ∧ step_count p = 0 ∧ spaces_ok p)
  ∧ (∀ p, new_player args = Ok p →
     p_meta p = m
     ∧ (p_who p = black ∧ role m = Some "black"%string
        ∨ p_who p = white ∧ role m = Some "white"%string)
     ∧ (∃ n, name m = Some n ∧ has_invalid_char n = false)
     ∧ match m !! "seed"%string with
       | Some v => seed_engine v = Some (p_engine p)
       | None => p_engine p = default_engine
       end
     ∧ p_space p = full_space (p_who p)).
Proof.
  intros m. split.
  - intros p. unfold new_MCTS_player.
    destruct (random_agent _) as [[m' e]|] eqn:Hr; [|done].
    pose proof (random_agent_meta _ _ _ Hr) as ->.
    apply random_agent_engine in Hr. fold m in Hr |- *.
    destruct (resolve_who m) as [side|] eqn:Hw; [|done].
    intros [= <-]. simpl. apply resolve_who_Ok in Hw as [Hside Hname].
    repeat split; done.
  - intros p. unfold new_player.
    destruct (random_agent _) as [[m' e]|] eqn:Hr; [|done].
    pose proof (random_agent_meta _ _ _ Hr) as ->.
    apply random_agent_engine in Hr. fold m in Hr |- *.
    destruct (resolve_who m) as [side|] eqn:Hw; [|done].
    intros [= <-]. simpl. apply resolve_who_Ok in Hw as [Hside Hname].
    repeat split; done.
Qed.

End Constructors.

(** ** The baseline picker *)

Section Picker.
Context `{B : Board} `{L : StdLib}.
Hypothesis shuffle_perm : ∀ l e, fst (shuffle l e) ≡ₚ l.

(** X7. The baseline picker returns a placement from its vector that is
    legal on the given board, the first legal one in the shuffled order,
    and returns action() exactly when no placement of its vector is legal;
    its side and meta stay, and its vector still holds the same
    placements. *)
Theorem player_take_action_spec (p : player) (st : board)
    (a : action) (p' : player) :
  player_take_action p st = (a, p') →
  (a = action_default ↔ Forall (λ m, snd (apply m st) = false) (p_space p))
  ∧ (∀ m, a = action_place m →
       m ∈ p_space p ∧ snd (apply m st) = true
       ∧ ∃ before after, p_space p' = before ++ m :: after
           ∧ Forall (λ m, snd (apply m st) = false) before)
  ∧ p_space p' ≡ₚ p_space p ∧ p_who p' = p_who p ∧ p_meta p' = p_meta p.
Proof.
  intros Hrun.
  assert (a = (player_take_action p st).1) as -> by (by rewrite Hrun).
  assert (p' = (player_take_action p st).2) as -> by (by rewrite Hrun).
  clear Hrun. unfold player_take_action.
  pose proof (shuffle_perm (p_space p) (p_engine p)) as Hperm.
  destruct (shuffle (p_space p) (p_engine p)) as [space e]. simpl in Hperm.
  destruct (first_legal space st) as [m|] eqn:Hfl.
  - apply first_legal_Some in Hfl as (before & after & Hsp & Hbefore & Hm).
    assert (m ∈ p_space p) as Hin.
    { rewrite <- Hperm, Hsp. apply elem_of_app. right. by left. }
    split; [|split; [|done]].
    + split; [done|]. intros Hall. rewrite Forall_forall in Hall.
      specialize (Hall m Hin). simpl in Hall. congruence.
    + intros m' [= <-]. split; [done|]. split; [done|]. by exists before, after.
  - apply first_legal_None in Hfl. split; [|split; [|done]].
    + split; [|done]. intros _. by rewrite <- Hperm.
    + done.
Qed.

End Picker.

(** ** The index into the table *)

Section TableIndex.
Context `{B : Board}.

Lemma foldl_bounds {A} (f : Z → A → Z) (c : Z) (l : list A) (acc : Z) :
  (∀ a x, a ≤ f a x ≤ a + c) →
  acc ≤ foldl f acc l ≤ acc + c * Z.of_nat (length l).
Proof.
  intros Hf. revert acc. induction l as [|x l IH]; intros acc; simpl; [lia|].
  specialize (IH (f acc x)). specialize (Hf acc x). lia.
Qed.

Lemma remain_empty_bounds (st : board) : 0 ≤ remain_empty st ≤ 81.
Proof.
  unfold remain_empty.
  match goal with
  | |- _ ≤ foldl ?f _ _ ≤ _ => pose proof (foldl_bounds f 9 (seq 0 9) 0) as Hrows
  end.
  rewrite length_seq in Hrows. apply Hrows. intros a i.
  match goal with
  | |- _ ≤ foldl ?g _ _ ≤ _ => pose proof (foldl_bounds g 1 (seq 0 9) a) as Hrow
  end.
  rewrite length_seq in Hrow. apply Hrow. intros b j.
  destruct (decide (cell st i j = empty)); lia.
Qed.

(** X8. The number of empty cells counted by take_action lies between 0
    and 81, so the index 36 - remain_empty / 2 lies between -4 and 36; it is
    an index of the 36-entry table exactly when 2 to 73 cells are empty. *)
Theorem step_of_range (st : board) :
  0 ≤ remain_empty st ≤ 81 ∧ -4 ≤ step_of st ≤ 36
  ∧ (is_Some (time_schedule_at (step_of st)) ↔ 2 ≤ remain_empty st ≤ 73).
Proof.
  pose proof (remain_empty_bounds st) as Hr.
  split; [done|]. split; [|apply time_schedule_defined].
  unfold step_of. Z.to_euclidean_division_equations. lia.
Qed.

End TableIndex.

(** ** The tree during the search *)

Section SearchFacts.
Context `{B : Board} `{L : StdLib}.

(** One pass through the body of the loop, in terms of the store: the
    node select returns is expanded, and the nodes of its parent chain are
    bumped. *)
Lemma round_shape fuel p h t p' h' t' :
  tree_ok h → round fuel p h t = Some (p', h', t') →
  ∃ leaf nd r1 winner h1,
    h1 = expanded h leaf nd (child_side nd)
           (legal_moves (space_for nd p) (state nd))
    ∧ descends h 0 leaf ∧ h !! leaf = Some nd ∧ children nd = []
    ∧ h1 !! 0%nat = Some r1
    ∧ simulation fuel p h1 leaf = Some (winner, p')
    ∧ t' = t + 1
    ∧ ∀ i, h' !! i =
        if decide (i ∈ chain (length h1) h1 (Some leaf))
        then bump (bool_decide (winner ≠ node_who r1)) (t + 1) <$> h1 !! i
        else h1 !! i.
Proof.
  intros Hok Hround.
  apply round_total in Hround
    as (-> & leaf & h1 & winner & p1 & Hsel & Hexp & Hsim & Hbp & ->).
  pose proof (select_descends _ _ _ _ Hsel) as Hdesc.
  destruct (descends_leaf_no_children _ _ _ Hdesc) as (nd & Hnd & Hleaf).
  pose proof (lookup_lt_Some _ _ _ Hnd) as Hlt.
  rewrite (expand_closed p h leaf nd Hnd) in Hexp. injection Hexp as <-.
  set (h1 := expanded h leaf nd (child_side nd)
               (legal_moves (space_for nd p) (state nd))) in *.
  assert (tree_ok h1) as Hok1 by (by apply expanded_tree_ok).
  pose proof Hok1 as ((r1 & Hr1 & _) & _).
  assert (leaf < length h1)%nat as Hlt1.
  { unfold h1. rewrite expanded_length. lia. }
  destruct (backpropogation_lookup h1 leaf r1 winner (t + 1) Hok1 Hr1 Hlt1)
    as (h2 & Hbp2 & Hlook).
  assert (h2 = h') as -> by congruence.
  by exists leaf, nd, r1, winner, h1.
Qed.

Lemma bump_skeleton win t nd : skeleton (bump win t nd) = skeleton nd.
Proof. done. Qed.

Lemma round_skeleton fuel p h t p' h' t' :
  tree_ok h → round fuel p h t = Some (p', h', t') →
  ∃ leaf nd,
    h !! leaf = Some nd ∧ children nd = []
    ∧ ∀ i, skeleton <$> h' !! i
           = skeleton <$> expanded h leaf nd (child_side nd)
                            (legal_moves (space_for nd p) (state nd)) !! i.
Proof.
  intros Hok Hround.
  destruct (round_shape _ _ _ _ _ _ _ Hok Hround)
    as (leaf & nd & r1 & winner & h1 & -> & _ & Hnd & Hleaf & _ & _ & _ & Hlook).
  exists leaf, nd. split; [done|]. split; [done|]. intros i. rewrite Hlook.
  destruct (decide (i ∈ _)); [|done]. by destruct (_ !! i).
Qed.

(** *** Edges *)

Lemma core_add_children nd cs : core (add_children nd cs) = core nd.
Proof. done. Qed.

Lemma skeleton_core a b : skeleton a = skeleton b → core a = core b.
Proof. unfold skeleton, core. by intros [= -> _ -> _ ->]. Qed.

Section Edges.
Variable E : Node → Node → Prop.
Hypothesis E_core :
  ∀ a a' b b', core a = core a' → core b = core b' → E a b → E a' b'.

Lemma expanded_edges_sat h n nd side moves :
  tree_ok h → edges_sat E h → h !! n = Some nd →
  Forall (λ m, E nd (new_node (fst (apply m (state nd))) side (Some n) m)) moves →
  edges_sat E (expanded h n nd side moves).
Proof.
  intros Hok Hedges Hn Hnew i x c cx Hx Hc Hcx.
  pose proof (lookup_lt_Some _ _ _ Hn) as Hlt.
  apply expanded_lookup in Hx; [|done]. apply expanded_lookup in Hcx; [|done].
  assert (∀ y, h !! i = Some y → core y = core x → c ∈ children y → E x cx) as Hold.
  { intros y Hy Hcore Hcy.
    destruct (tree_ok_child h i y c Hok Hy Hcy) as (_ & cn & Hcn & _).
    destruct Hcx as [[-> ->]|[[_ Hcx]|(j & m & -> & _ & _)]].
    - apply (E_core y x nd); [done|done|]. by apply (Hedges i y n nd).
    - apply (E_core y x cx cx); [done|done|]. by apply (Hedges i y c cx).
    - apply lookup_lt_Some in Hcn. lia. }
  destruct Hx as [[-> ->]|[[_ Hx]|(j & m & -> & _ & ->)]].
  - simpl in Hc. apply elem_of_app in Hc as [Hc|Hc]; [by apply (Hold nd)|].
    apply elem_of_seq in Hc as [Hc1 Hc2].
    destruct Hcx as [[-> _]|[[_ Hcx]|(j & m & -> & Hm & ->)]]; [lia| |].
    + apply lookup_lt_Some in Hcx. lia.
    + rewrite Forall_lookup in Hnew. specialize (Hnew j m Hm). simpl in Hnew.
      eapply E_core; [| |exact Hnew]; done.
  - by apply (Hold x).
  - simpl in Hc. by apply elem_of_nil in Hc.
Qed.

Lemma skeleton_edges_sat h h' :
  (∀ i, skeleton <$> h' !! i = skeleton <$> h !! i) →
  edges_sat E h → edges_sat E h'.
Proof.
  intros Hsk Hedges i x c cx Hx Hc Hcx.
  pose proof (Hsk i) as Hi. rewrite Hx in Hi.
  destruct (h !! i) as [y|] eqn:Hy; simpl in Hi; [|done].
  pose proof (Hsk c) as Hci. rewrite Hcx in Hci.
  destruct (h !! c) as [cy|] eqn:Hcy; simpl in Hci; [|done].
  injection Hi as Hs1 _ Hl1 Hch Hw1. injection Hci as Hs2 _ Hl2 _ Hw2.
  apply (E_core y x cy cx); [unfold core; congruence|unfold core; congruence|].
  apply (Hedges i y c cy); try done. by rewrite <- Hch.
Qed.

End Edges.

Lemma edges_sided_sat h :
  edges_sided h ↔
  edges_sat (λ nd cn, last_action cn ∈ full_space (child_side nd)
                      ∧ node_who cn = child_side nd) h.
Proof. done. Qed.

Lemma sided_core a a' b b' :
  core a = core a' → core b = core b' →
  last_action b ∈ full_space (child_side a) ∧ node_who b = child_side a →
  last_action b' ∈ full_space (child_side a') ∧ node_who b' = child_side a'.
Proof.
  unfold core, child_side. intros [= _ _ Ha] [= _ Hb1 Hb2].
  by rewrite <- Ha, <- Hb1, <- Hb2.
Qed.

(** *** Children *)

Lemma expanded_children_listed h n nd side moves :
  tree_ok h → children_listed h → h !! n = Some nd →
  children_listed (expanded h n nd side moves).
Proof.
  intros Hok [Hlist Hnodup] Hn.
  pose proof (lookup_lt_Some _ _ _ Hn) as Hlt.
  pose proof (tree_ok_parents_earlier h Hok) as Hpe.
  split.
  - intros i x up Hx Hup. apply expanded_lookup in Hx; [|done].
    assert (∀ y, h !! i = Some y → parent y = Some up →
              ∃ un, expanded h n nd side moves !! up = Some un ∧ i ∈ children un)
      as Hold.
    { intros y Hy Hpy. destruct (Hlist i y up Hy Hpy) as (un & Hun & Hin).
      destruct (decide (up = n)) as [->|Hne].
      - eexists. split; [apply expanded_lookup; [done|]; by left|].
        simpl. apply elem_of_app. left. congruence.
      - exists un. split; [|done]. apply expanded_lookup; [done|]. right. by left. }
    destruct Hx as [[-> ->]|[[_ Hx]|(j & m & -> & Hm & ->)]].
    + by apply (Hold nd).
    + by apply (Hold x).
    + simpl in Hup. injection Hup as <-. eexists.
      split; [apply expanded_lookup; [done|]; by left|].
      simpl. apply elem_of_app. right. apply elem_of_seq.
      apply lookup_lt_Some in Hm. lia.
  - intros i x Hx. apply expanded_lookup in Hx; [|done].
    destruct Hx as [[-> ->]|[[_ Hx]|(j & m & -> & _ & ->)]].
    + simpl. apply NoDup_app. split; [by apply (Hnodup n)|].
      split; [|apply NoDup_seq]. intros c Hc Hseq.
      destruct (tree_ok_child h n nd c Hok Hn Hc) as (_ & cn & Hcn & _).
      apply lookup_lt_Some in Hcn. apply elem_of_seq in Hseq. lia.
    + by apply (Hnodup i).
    + simpl. constructor.
Qed.

Lemma skeleton_children_listed h h' :
  (∀ i, skeleton <$> h' !! i = skeleton <$> h !! i) →
  children_listed h → children_listed h'.
Proof.
  intros Hsk [Hlist Hnodup].
  assert (∀ i x, h' !! i = Some x → ∃ y, h !! i = Some y ∧ skeleton x = skeleton y)
    as Hback.
  { intros i x Hx. specialize (Hsk i). rewrite Hx in Hsk.
    destruct (h !! i) as [y|]; simpl in Hsk; [|done]. exists y. split; congruence. }
  assert (∀ i y, h !! i = Some y → ∃ x, h' !! i = Some x ∧ skeleton x = skeleton y)
    as Hforth.
  { intros i y Hy. specialize (Hsk i). rewrite Hy in Hsk.
    destruct (h' !! i) as [x|]; simpl in Hsk; [|done]. exists x. split; congruence. }
  split.
  - intros i x up Hx Hup. destruct (Hback _ _ Hx) as (y & Hy & [= _ Hpar _ _ _]).
    rewrite Hpar in Hup. destruct (Hlist i y up Hy Hup) as (un & Hun & Hin).
    destruct (Hforth _ _ Hun) as (un' & Hun' & [= _ _ _ Hch _]).
    exists un'. split; [done|]. by rewrite Hch.
  - intros i x Hx. destruct (Hback _ _ Hx) as (y & Hy & [= _ _ _ Hch _]).
    rewrite Hch. by apply (Hnodup i).
Qed.

(** *** The shape is kept *)

Lemma skeleton_root_is st side h h' :
  (∀ i, skeleton <$> h' !! i = skeleton <$> h !! i) →
  root_is st side h → root_is st side h'.
Proof.
  intros Hsk (r & Hr & Hst & Hwho). specialize (Hsk 0%nat). rewrite Hr in Hsk.
  destruct (h' !! 0%nat) as [r'|] eqn:Hr'; simpl in Hsk; [|done].
  injection Hsk as Hs _ _ _ Hw. exists r'. split; [done|]. split; congruence.
Qed.

Lemma skeleton_search_shape st side h h' :
  (∀ i, skeleton <$> h' !! i = skeleton <$> h !! i) →
  search_shape st side h → search_shape st side h'.
Proof.
  intros Hsk (Hok & Hlegal & Hlist & Hsided & Hroot).
  split; [by eapply skeleton_tree_ok|]. split; [by eapply skeleton_edges_legal|].
  split; [by eapply skeleton_children_listed|].
  split; [|by eapply skeleton_root_is].
  apply edges_sided_sat. eapply skeleton_edges_sat; [|done|by apply edges_sided_sat].
  apply sided_core.
Qed.

Lemma legal_moves_subseteq space st m :
  m ∈ legal_moves space st → m ∈ space ∧ snd (apply m st) = true.
Proof. unfold legal_moves. rewrite list_elem_of_filter. tauto. Qed.

Lemma expanded_search_shape st side p h n nd :
  spaces_ok p → search_shape st side h → h !! n = Some nd →
  search_shape st side
    (expanded h n nd (child_side nd) (legal_moves (space_for nd p) (state nd))).
Proof.
  intros Hp (Hok & Hlegal & Hlist & Hsided & Hroot) Hn.
  split; [by apply expanded_tree_ok|].
  split; [apply expanded_edges_legal; try done; apply legal_moves_Forall|].
  split; [by apply expanded_children_listed|].
  split.
  - apply edges_sided_sat. apply expanded_edges_sat; try done; [apply sided_core|].
    apply Forall_forall. intros m Hm. simpl. split; [|done].
    apply legal_moves_subseteq in Hm as [Hm _].
    destruct (decide (node_who nd = empty)) as [He|Hne].
    + unfold space_for in Hm. rewrite He in Hm. by apply elem_of_nil in Hm.
    + by rewrite <- (space_for_full p nd Hp Hne).
  - destruct Hroot as (r & Hr & Hst & Hwho).
    destruct (decide (n = 0%nat)) as [->|Hne].
    + assert (nd = r) as -> by congruence. eexists.
      split; [apply expanded_lookup; [done|]; by left|]. done.
    + exists r. split; [|done]. apply expanded_lookup; [done|]. right. by left.
Qed.

Lemma root_search_shape st side :
  search_shape st side [new_node st side None default_place].
Proof.
  set (root := new_node st side None default_place).
  assert (∀ i x, [root] !! i = Some x → i = 0%nat ∧ x = root) as Hone.
  { intros [|i] x Hx; [|done]. by injection Hx as <-. }
  split; [|split; [|split; [|split]]].
  - split; [by exists root|]. split.
    + intros i x Hx Hi. by destruct (Hone i x Hx).
    + intros i x c Hx Hc. destruct (Hone i x Hx) as [_ ->]. by apply elem_of_nil in Hc.
  - intros i x c cx Hx Hc. destruct (Hone i x Hx) as [_ ->]. by apply elem_of_nil in Hc.
  - split.
    + intros i x up Hx Hup. by destruct (Hone i x Hx) as [_ ->].
    + intros i x Hx. destruct (Hone i x Hx) as [_ ->]. constructor.
  - intros i x c cx Hx Hc. destruct (Hone i x Hx) as [_ ->]. by apply elem_of_nil in Hc.
  - by exists root.
Qed.

Lemma sim_loop_fields fuel :
  ∀ st side p st' side' p', sim_loop fuel st side p = Some (st', side', p') →
    meta p' = meta p ∧ who p' = who p ∧ step_count p' = step_count p.
Proof.
  assert (∀ side p order e,
            meta (with_order side p order e) = meta p
            ∧ who (with_order side p order e) = who p
            ∧ step_count (with_order side p order e) = step_count p) as Hwo.
  { intros side p order e. by destruct side. }
  induction fuel as [|fuel IH]; intros st side p st' side' p'; simpl;
    pose proof (sim_turn_eq st side p) as Ht; simpl in Ht;
    destruct (shuffle (space_of (flip side) p) (rng p)) as [order e];
    rewrite Ht; pose proof (Hwo (flip side) p order e) as (Hm & Hw & Hs);
    destruct (first_legal order st) as [m|].
  - done.
  - by intros [= _ _ <-].
  - intros Hloop. apply IH in Hloop as (Hm' & Hw' & Hs'). repeat split; congruence.
  - by intros [= _ _ <-].
Qed.

Lemma simulation_fields fuel p h n winner p' :
  simulation fuel p h n = Some (winner, p') →
  meta p' = meta p ∧ who p' = who p ∧ step_count p' = step_count p.
Proof.
  unfold simulation. destruct (h !! n) as [nd|]; simpl; [|done].
  destruct (sim_loop fuel (state nd) (node_who nd) p) as [[[st' side'] p1]|] eqn:Hloop;
    simpl; [|done].
  intros [= _ <-]. by eapply sim_loop_fields.
Qed.

End SearchFacts.

(** ** The search as a whole *)

Section SearchTheorems.
Context `{B : Board} `{L : StdLib}.

Lemma round_tree_ok fuel p h t p' h' t' :
  tree_ok h → round fuel p h t = Some (p', h', t') → tree_ok h'.
Proof.
  intros Hok Hround.
  destruct (round_skeleton _ _ _ _ _ _ _ Hok Hround) as (leaf & nd & Hnd & _ & Hsk).
  eapply skeleton_tree_ok; [exact Hsk|]. by apply expanded_tree_ok.
Qed.

(** What one pass through the loop does to the nodes that exist. *)
Lemma round_nodes fuel p h t p' h' t' :
  tree_ok h → round fuel p h t = Some (p', h', t') →
  (length h ≤ length h')%nat
  ∧ ∀ i nd, h !! i = Some nd →
      ∃ nd', h' !! i = Some nd' ∧ core nd' = core nd ∧ parent nd' = parent nd
        ∧ children nd `prefix_of` children nd'
        ∧ 0 ≤ win_count nd' - win_count nd ≤ visit_count nd' - visit_count nd
        ∧ visit_count nd' - visit_count nd ≤ 1
        ∧ (i = 0%nat → visit_count nd' = visit_count nd + 1).
Proof.
  intros Hok Hround.
  destruct (round_shape _ _ _ _ _ _ _ Hok Hround)
    as (leaf & nd0 & r1 & winner & h1 & -> & _ & Hnd0 & _ & _ & _ & _ & Hlook).
  set (moves := legal_moves (space_for nd0 p) (state nd0)) in *.
  set (h1 := expanded h leaf nd0 (child_side nd0) moves) in *.
  set (path := chain (length h1) h1 (Some leaf)) in *.
  set (win := bool_decide (winner ≠ node_who r1)) in *.
  assert (tree_ok h1) as Hok1 by (by apply expanded_tree_ok).
  pose proof (lookup_lt_Some _ _ _ Hnd0) as Hlt.
  assert (length h' = length h1) as Hlen.
  { apply (lookup_same_length h1 h'
             (λ i nd, if decide (i ∈ path) then bump win (t + 1) nd else nd)).
    intros i. rewrite Hlook. destruct (decide (i ∈ path)); [done|].
    by destruct (h1 !! i). }
  split.
  { rewrite Hlen. unfold h1. rewrite expanded_length. lia. }
  intros i nd Hi.
  assert (∃ x, h1 !! i = Some x ∧ core x = core nd ∧ parent x = parent nd
               ∧ children nd `prefix_of` children x
               ∧ win_count x = win_count nd ∧ visit_count x = visit_count nd)
    as (x & Hx & Hcore & Hpar & Hch & Hwin & Hvis).
  { destruct (decide (i = leaf)) as [->|Hne].
    - eexists. split; [apply expanded_lookup; [done|]; by left|].
      assert (nd = nd0) as -> by congruence.
      repeat split. simpl. by apply prefix_app_r.
    - exists nd. split; [|done]. apply expanded_lookup; [done|]. right. by left. }
  rewrite Hlook, Hx.
  destruct (decide (i ∈ path)) as [Hin|Hout].
  - exists (bump win (t + 1) x). split; [done|]. simpl.
    split; [done|]. split; [done|]. split; [done|].
    rewrite Hwin, Hvis. destruct win; repeat split; lia.
  - exists x. split; [done|]. split; [done|]. split; [done|]. split; [done|].
    rewrite Hwin, Hvis. split; [lia|]. split; [lia|].
    intros ->. exfalso. apply Hout. apply chain_root; [done| |].
    + unfold h1. rewrite expanded_length. lia.
    + unfold h1. rewrite expanded_length. lia.
Qed.

Lemma rounds_nodes (fuel k : nat) :
  ∀ p h t p' h' t',
    tree_ok h → rounds fuel k p h t = Some (p', h', t') →
    tree_ok h' ∧ (length h ≤ length h')%nat
    ∧ ∀ i nd, h !! i = Some nd →
        ∃ nd', h' !! i = Some nd' ∧ core nd' = core nd ∧ parent nd' = parent nd
          ∧ children nd `prefix_of` children nd'
          ∧ 0 ≤ win_count nd' - win_count nd ≤ visit_count nd' - visit_count nd
          ∧ visit_count nd' - visit_count nd ≤ Z.of_nat k
          ∧ (i = 0%nat → visit_count nd' = visit_count nd + Z.of_nat k).
Proof.
  induction k as [|k IH]; intros p h t p' h' t' Hok; simpl.
  - intros [= <- <- <-]. split; [done|]. split; [done|].
    intros i nd Hi. exists nd. repeat split; try done; lia.
  - destruct (round fuel p h t) as [[[p1 h1] t1]|] eqn:Hr; simpl; [|done].
    intros Hk. pose proof (round_tree_ok _ _ _ _ _ _ _ Hok Hr) as Hok1.
    destruct (round_nodes _ _ _ _ _ _ _ Hok Hr) as [Hlen1 Hn1].
    destruct (IH _ _ _ _ _ _ Hok1 Hk) as (Hok' & Hlen' & Hn').
    split; [done|]. split; [lia|]. intros i nd Hi.
    destruct (Hn1 i nd Hi) as (x & Hx & Hc1 & Hp1 & Hch1 & Hw1 & Hv1 & Hr1).
    destruct (Hn' i x Hx) as (y & Hy & Hc2 & Hp2 & Hch2 & Hw2 & Hv2 & Hr2).
    exists y. split; [done|]. split; [congruence|]. split; [congruence|].
    split; [by etrans|]. split; [lia|]. split; [lia|].
    intros Hi0. rewrite (Hr2 Hi0), (Hr1 Hi0). lia.
Qed.

Lemma search_start fuel ticks p st p' h t :
  search fuel ticks p st = Some (p', h, t) →
  ∃ h0 k budget,
    expand (set_step_count p (step_of st))
           [new_node st (flip (who p)) None default_place] 0 = Some h0
    ∧ time_schedule_at (step_of st) = Some budget
    ∧ rounds fuel k (set_step_count p (step_of st)) h0 0 = Some (p', h, t)
    ∧ (1 ≤ k)%nat ∧ t = Z.of_nat k.
Proof.
  unfold search.
  destruct (expand _ _ 0) as [h0|] eqn:Hexp; simpl; [|done].
  destruct (time_schedule_at (step_of st)) as [budget|] eqn:Hb; simpl; [|done].
  intros Hloop. apply search_loop_rounds in Hloop as (k & _ & Hrounds & Hk).
  specialize (Hk (budget_positive _ _ Hb)).
  exists h0, k, budget. repeat split; try done.
  apply rounds_total in Hrounds. lia.
Qed.

(** X10. At the end of the loop of take_action the root still holds the
    given board and has no parent, at least one simulation has run, and the
    visit count of the root is the number of simulations run. *)
Theorem search_root_visits (fuel : nat) (ticks : list float) (p : MCTS_player)
    (st : board) (p' : MCTS_player) (h : list Node) (t : Z) :
  search fuel ticks p st = Some (p', h, t) →
  ∃ r k, h !! 0%nat = Some r ∧ state r = st ∧ node_who r = flip (who p)
    ∧ parent r = None ∧ visit_count r = t ∧ 0 ≤ win_count r ≤ t
    ∧ 1 ≤ t ∧ t = Z.of_nat k
    ∧ ∃ p0 h0, rounds fuel k p0 h0 0 = Some (p', h, t).
Proof.
  intros Hs.
  destruct (search_start _ _ _ _ _ _ _ Hs) as (h0 & k & budget & Hexp & _ & Hrounds & Hk & ->).
  set (root := new_node st (flip (who p)) None default_place) in *.
  rewrite (expand_closed _ [root] 0 root) in Hexp by done. injection Hexp as <-.
  set (h0 := expanded _ _ _ _ _) in *.
  destruct (root_search_shape st (flip (who p))) as (Hok & _).
  fold root in Hok.
  assert (tree_ok h0) as Hok0 by (by apply expanded_tree_ok).
  assert (∃ r0, h0 !! 0%nat = Some r0 ∧ core r0 = core root ∧ parent r0 = None
                ∧ visit_count r0 = 0 ∧ win_count r0 = 0) as (r0 & Hr0 & Hc0 & Hp0 & Hv0 & Hw0).
  { eexists. split; [apply expanded_lookup; [done|]; by left|]. done. }
  destruct (rounds_nodes _ _ _ _ _ _ _ _ Hok0 Hrounds) as (_ & _ & Hnodes).
  destruct (Hnodes 0%nat r0 Hr0) as (r & Hr & Hcore & Hpar & _ & Hwin & _ & Hvis).
  specialize (Hvis eq_refl).
  exists r, k. split; [done|].
  rewrite Hc0 in Hcore. injection Hcore as Hst _ Hwho.
  repeat split; try done; try lia; try congruence.
  by eexists _, _.
Qed.

Section Shuffle.
Hypothesis shuffle_perm : ∀ l e, fst (shuffle l e) ≡ₚ l.

Lemma round_search_shape st side fuel p h t p' h' t' :
  spaces_ok p → search_shape st side h →
  round fuel p h t = Some (p', h', t') →
  search_shape st side h' ∧ spaces_ok p'
  ∧ meta p' = meta p ∧ who p' = who p ∧ step_count p' = step_count p
  ∧ white_space p' ≡ₚ white_space p ∧ black_space p' ≡ₚ black_space p.
Proof.
  intros Hp Hshape Hround. pose proof Hshape as (Hok & _).
  destruct (round_shape _ _ _ _ _ _ _ Hok Hround)
    as (leaf & nd & r1 & winner & h1 & -> & _ & Hnd & _ & _ & Hsim & _ & _).
  destruct (round_skeleton _ _ _ _ _ _ _ Hok Hround) as (leaf' & nd' & Hnd' & _ & Hsk).
  pose proof (simulation_spaces shuffle_perm _ _ _ _ _ _ Hsim) as [Hw Hb].
  pose proof (simulation_fields _ _ _ _ _ _ Hsim) as (Hm & Hwho & Hstep).
  split.
  { eapply skeleton_search_shape; [exact Hsk|]. by apply expanded_search_shape. }
  destruct Hp as [Hpw Hpb].
  split; [split; by etrans|]. done.
Qed.

Lemma rounds_search_shape st side fuel k :
  ∀ p h t p' h' t',
    spaces_ok p → search_shape st side h →
    rounds fuel k p h t = Some (p', h', t') →
    search_shape st side h' ∧ spaces_ok p'
    ∧ meta p' = meta p ∧ who p' = who p ∧ step_count p' = step_count p
    ∧ white_space p' ≡ₚ white_space p ∧ black_space p' ≡ₚ black_space p.
Proof.
  induction k as [|k IH]; intros p h t p' h' t' Hp Hshape; simpl.
  - by intros [= <- <- <-].
  - destruct (round fuel p h t) as [[[p1 h1] t1]|] eqn:Hr; simpl; [|done].
    intros Hk.
    destruct (round_search_shape _ _ _ _ _ _ _ _ _ Hp Hshape Hr)
      as (Hshape1 & Hp1 & Hm1 & Hw1 & Hs1 & Hws1 & Hbs1).
    destruct (IH _ _ _ _ _ _ Hp1 Hshape1 Hk)
      as (Hshape' & Hp' & Hm' & Hw' & Hs' & Hws' & Hbs').
    split; [done|]. split; [done|]. split; [congruence|]. split; [congruence|].
    split; [congruence|]. split; by etrans.
Qed.

Lemma search_shape_final fuel ticks p st p' h t :
  spaces_ok p → search fuel ticks p st = Some (p', h, t) →
  search_shape st (flip (who p)) h ∧ spaces_ok p'
  ∧ meta p' = meta p ∧ who p' = who p ∧ step_count p' = step_of st
  ∧ white_space p' ≡ₚ white_space p ∧ black_space p' ≡ₚ black_space p.
Proof.
  intros Hp Hs.
  destruct (search_start _ _ _ _ _ _ _ Hs) as (h0 & k & budget & Hexp & _ & Hrounds & _).
  set (p0 := set_step_count p (step_of st)) in *.
  set (root := new_node st (flip (who p)) None default_place) in *.
  rewrite (expand_closed _ [root] 0 root) in Hexp by done. injection Hexp as <-.
  assert (spaces_ok p0) as Hp0 by done.
  pose proof (expanded_search_shape st (flip (who p)) p0 [root] 0 root Hp0
                (root_search_shape st (flip (who p))) eq_refl) as Hshape0.
  apply (rounds_search_shape st (flip (who p)) fuel k p0 _ 0 p' h t Hp0 Hshape0 Hrounds).
Qed.

(** X11. After take_action the player has the same meta and side, its
    step_count is the index computed for the board, and both vectors hold
    the placements they held, in a new order. *)
Theorem take_action_player (fuel : nat) (ticks : list float) (p : MCTS_player)
    (st : board) (a : action) (p' : MCTS_player) :
  take_action fuel ticks p st = Some (a, p') →
  meta p' = meta p ∧ who p' = who p ∧ step_count p' = step_of st
  ∧ white_space p' ≡ₚ white_space p ∧ black_space p' ≡ₚ black_space p.
Proof.
  unfold take_action.
  destruct (search fuel ticks p st) as [[[p1 h] t]|] eqn:Hs; simpl; [|done].
  destruct (greedy_select h 0) as [res|]; simpl; [|done]. intros [= _ <-].
  destruct (search_start _ _ _ _ _ _ _ Hs) as (h0 & k & budget & Hexp & _ & Hrounds & _).
  assert (∀ k q h0 t0 q' h' t', rounds fuel k q h0 t0 = Some (q', h', t') →
            meta q' = meta q ∧ who q' = who q ∧ step_count q' = step_count q
            ∧ white_space q' ≡ₚ white_space q ∧ black_space q' ≡ₚ black_space q)
    as Hgen.
  { clear -shuffle_perm. induction k as [|k IH]; intros q h0 t0 q' h' t'; simpl.
    - by intros [= <- <- <-].
    - destruct (round fuel q h0 t0) as [[[q1 h1] t1]|] eqn:Hr; simpl; [|done].
      intros Hk. apply IH in Hk as (Hm' & Hw' & Hs' & Hws' & Hbs').
      apply round_total in Hr as (_ & leaf & h2 & winner & q2 & _ & _ & Hsim & _ & ->).
      pose proof (simulation_spaces shuffle_perm _ _ _ _ _ _ Hsim) as [Hw Hb].
      pose proof (simulation_fields _ _ _ _ _ _ Hsim) as (Hm & Hwho & Hstep).
      split; [congruence|]. split; [congruence|]. split; [congruence|].
      split; by etrans. }
  apply Hgen in Hrounds. exact Hrounds.
Qed.

End Shuffle.
End SearchTheorems.

(** ** The move take_action returns *)

Section Result.
Context `{B : Board} `{L : StdLib}.
Hypothesis shuffle_perm : ∀ l e, fst (shuffle l e) ≡ₚ l.




(** X12. For a player with a side and full vectors, the result of
    take_action is action() exactly when no placement of the player's side
    is legal on the given board; otherwise it is a placement of the
    player's side on one of the 81 cells that is legal on the given
    board. *)
Theorem take_action_legal (fuel : nat) (ticks : list float) (p : MCTS_player)
    (st : board) (a : action) (p' : MCTS_player) :
  spaces_ok p → who p ≠ empty →
  take_action fuel ticks p st = Some (a, p') →
  (a = action_default ↔
   Forall (λ m, snd (apply m st) = false) (full_space (who p)))
  ∧ (∀ m, a = action_place m →
       snd (apply m st) = true ∧ m ∈ full_space (who p)
       ∧ place_who m = who p).
Proof.
  intros Hp Hwho. unfold take_action.
  destruct (search fuel ticks p st) as [[[p1 h] t]|] eqn:Hs; simpl; [|done].
  destruct (greedy_select h 0) as [res|] eqn:Hg; simpl; [|done].
  intros [= <- <-].
  destruct (search_final shuffle_perm _ _ _ _ _ _ _ Hs)
    as ((Hok & _ & _ & Hsettled) & Hvis & _).
  destruct (search_shape_final shuffle_perm _ _ _ _ _ _ _ Hp Hs)
    as ((_ & Hlegal & _ & Hsided & (r & Hr & Hst & Hside)) & Hp1 & _).
  assert (child_side r = who p) as Hcs.
  { unfold child_side. rewrite Hside. by destruct (who p). }
  assert (node_who r ≠ empty) as Hne.
  { rewrite Hside. by destruct (who p). }
  pose proof (space_for_full p1 r Hp1 Hne) as Hspace. rewrite Hcs in Hspace.
  destruct (greedy_select_cases h 0 r Hok Hr)
    as [[Hdef Hall]|(k & c & cn & Hk & Hcn & Hsel & Hpos & _)].
  - assert (res = action_default) as -> by congruence.
    split; [|done]. split; [|done]. intros _.
    assert (children r = []) as Hnil.
    { destruct (decide (children r = [])) as [|Hch]; [done|].
      destruct (Hvis r Hr Hch) as (c' & cn & Hc' & Hcn & Hone).
      specialize (Hall c' cn Hc' Hcn). lia. }
    specialize (Hsettled r Hr Hnil). by rewrite Hst, Hspace in Hsettled.
  - assert (res = action_place (last_action cn)) as -> by congruence.
    assert (c ∈ children r) as Hc by (by eapply list_elem_of_lookup_2).
    pose proof (Hlegal 0%nat r c cn Hr Hc Hcn) as Happly.
    destruct (Hsided 0%nat r c cn Hr Hc Hcn) as [Hin _].
    rewrite Hst in Happly. rewrite Hcs in Hin.
    assert (snd (apply (last_action cn) st) = true) as Hm by (by rewrite Happly).
    split.
    + split; [done|]. intros Hall. rewrite Forall_forall in Hall.
      specialize (Hall _ Hin). simpl in Hall. congruence.
    + intros m [= <-]. split; [done|]. split; [done|]. by apply full_space_who.
Qed.

(** Every legal move lowers a weight of the board, as placing a stone
    lowers the number of empty cells. *)
Variable weight : board → nat.
Hypothesis weight_decreases :
  ∀ m st, snd (apply m st) = true → (weight (fst (apply m st)) < weight st)%nat.

Lemma node_weight st side h :
  search_shape st side h →
  ∀ i nd, h !! i = Some nd → (weight (state nd) ≤ weight st)%nat.
Proof.
  intros (Hok & Hlegal & [Hlist _] & _ & (r & Hr & Hst & _)).
  pose proof Hok as (_ & Hup & _).
  induction i as [i IH] using lt_wf_ind. intros nd Hi.
  destruct (decide (i = 0%nat)) as [->|Hne].
  - assert (nd = r) as -> by congruence. by rewrite Hst.
  - destruct (Hup i nd Hi Hne) as (up & Hpar & Hlt).
    destruct (Hlist i nd up Hi Hpar) as (un & Hun & Hin).
    pose proof (Hlegal up un i nd Hun Hin Hi) as Happly.
    pose proof (weight_decreases (last_action nd) (state un)) as Hw.
    rewrite Happly in Hw. simpl in Hw. specialize (Hw eq_refl).
    specialize (IH up Hlt un Hun). lia.
Qed.

Lemma round_defined st side fuel p h t :
  spaces_ok p → search_shape st side h → (weight st ≤ fuel)%nat →
  is_Some (round fuel p h t).
Proof.
  intros Hp Hshape Hfuel. pose proof Hshape as (Hok & _).
  pose proof Hok as ((r & Hr & _) & _).
  pose proof (lookup_lt_Some _ _ _ Hr) as Hlen.
  destruct (select_total h (length h) 0 Hok Hlen) as [leaf Hsel]; [lia|].
  pose proof (select_descends _ _ _ _ Hsel) as Hdesc.
  destruct (descends_leaf_no_children _ _ _ Hdesc) as (nd & Hnd & Hleaf).
  pose proof (lookup_lt_Some _ _ _ Hnd) as Hlt.
  unfold round. rewrite Hsel. simpl.
  rewrite (expand_closed p h leaf nd Hnd). simpl.
  set (h1 := expanded h leaf nd (child_side nd)
               (legal_moves (space_for nd p) (state nd))).
  assert (tree_ok h1) as Hok1 by (by apply expanded_tree_ok).
  pose proof Hok1 as ((r1 & Hr1 & _) & _).
  assert (h1 !! leaf = Some (add_children nd
            (seq (length h) (length (legal_moves (space_for nd p) (state nd))))))
    as Hleaf1.
  { apply expanded_lookup; [done|]. by left. }
  pose proof (node_weight st side h Hshape leaf nd Hnd) as Hw.
  destruct (sim_loop_playout shuffle_perm weight weight_decreases fuel
              (state nd) (node_who nd) p Hp) as (st' & side' & p' & Hloop & _);
    [lia|].
  unfold simulation. rewrite Hleaf1. simpl. rewrite Hloop. simpl.
  assert (leaf < length h1)%nat as Hlt1.
  { unfold h1. rewrite expanded_length. lia. }
  destruct (backpropogation_lookup h1 leaf r1 (flip side') (t + 1) Hok1 Hr1 Hlt1)
    as (h2 & Hbp & _).
  rewrite Hbp. simpl. by eexists.
Qed.

Lemma search_loop_defined st side fuel limit ticks :
  ∀ time p h t,
    Exists (λ x, (x <? limit)%float = false) ticks ∨ (time <? limit)%float = false →
    spaces_ok p → search_shape st side h → (weight st ≤ fuel)%nat →
    is_Some (search_loop fuel ticks limit time p h t).
Proof.
  induction ticks as [|tick ticks IH]; intros time p h t Hend Hp Hshape Hfuel; simpl.
  - destruct Hend as [Hend|Hend]; [by apply Exists_nil in Hend|].
    rewrite Hend. by eexists.
  - destruct (time <? limit)%float eqn:Htime; [|by eexists].
    destruct (round_defined st side fuel p h t Hp Hshape Hfuel) as [[[p1 h1] t1] Hr].
    rewrite Hr. simpl.
    destruct (round_search_shape shuffle_perm _ _ _ _ _ _ _ _ _ Hp Hshape Hr)
      as (Hshape1 & Hp1 & _).
    apply IH; try done.
    destruct Hend as [Hend|Hend]; [|congruence].
    apply Exists_cons in Hend as [Hend|Hend]; [by right|by left].
Qed.

(** X13. take_action returns: when the index computed for the board is
    inside the table, some clock reading is not below 95% of the entry, and
    the fuel covers the moves that fit on the board, every pass through the
    loop completes, the loop ends, and a result is returned. *)
Theorem take_action_defined (fuel : nat) (ticks : list float)
    (p : MCTS_player) (st : board) (budget : float) :
  spaces_ok p →
  time_schedule_at (step_of st) = Some budget →
  Exists (λ x, (x <? 0.95 * budget)%float = false) ticks →
  (weight st ≤ fuel)%nat →
  ∃ a p', take_action fuel ticks p st = Some (a, p').
Proof.
  intros Hp Hb Hticks Hfuel.
  set (p0 := set_step_count p (step_of st)).
  set (root := new_node st (flip (who p)) None default_place).
  assert (spaces_ok p0) as Hp0 by done.
  pose proof (expanded_search_shape st (flip (who p)) p0 [root] 0 root Hp0
                (root_search_shape st (flip (who p))) eq_refl) as Hshape0.
  destruct (search_loop_defined st (flip (who p)) fuel (0.95 * budget) ticks
              0%float p0 _ 0 (or_introl Hticks) Hp0 Hshape0 Hfuel)
    as [[[p1 h] t] Hloop].
  assert (search fuel ticks p st = Some (p1, h, t)) as Hs.
  { change (search fuel ticks p st)
      with (expand p0 [root] 0 ≫= λ h,
            time_schedule_at (step_of st) ≫= λ budget,
            search_loop fuel ticks (0.95 * budget)%float 0%float p0 h 0).
    rewrite (expand_closed p0 [root] 0 root) by done.
    rewrite Hb. exact Hloop. }
  destruct (search_final shuffle_perm _ _ _ _ _ _ _ Hs) as ((Hok & _) & _).
  pose proof Hok as ((r & Hr & _) & _).
  unfold take_action. rewrite Hs. simpl.
  destruct (greedy_select_cases h 0 r Hok Hr)
    as [[Hdef _]|(k & c & cn & _ & _ & Hsel & _)].
  - rewrite Hdef. simpl. by eexists _, _.
  - rewrite Hsel. simpl. by eexists _, _.
Qed.

End Result.

(** ** Releasing the tree *)

Section Release.
Context `{B : Board} `{L : StdLib}.

Section Tree.
Variable h0 : list Node.
Hypothesis h0_ok : tree_ok h0.
Hypothesis h0_listed : children_listed h0.

Lemma below_le a m : below h0 a m → (a ≤ m)%nat.
Proof.
  induction 1 as [|m nd up Hm Hup _ IH]; [done|].
  pose proof (tree_ok_parents_earlier h0 h0_ok m nd up Hm Hup). lia.
Qed.

Lemma below_lookup a m : below h0 a m → is_Some (h0 !! a) ∧ is_Some (h0 !! m).
Proof.
  induction 1 as [nd Ha|m nd up Hm Hup _ [IHa _]]; [by split; eexists|].
  split; [done|by eexists].
Qed.

Lemma below_trans a b m : below h0 a b → below h0 b m → below h0 a m.
Proof.
  intros Hab. induction 1 as [|m nd up Hm Hup _ IH]; [done|].
  by eapply below_up.
Qed.

Lemma below_child n nd c m :
  h0 !! n = Some nd → c ∈ children nd → below h0 c m → below h0 n m.
Proof.
  intros Hn Hc Hcm.
  destruct (tree_ok_child h0 n nd c h0_ok Hn Hc) as (_ & cn & Hcn & Hpar).
  apply (below_trans n c m); [|done].
  eapply below_up; [exact Hcn|exact Hpar|]. by eapply below_self.
Qed.

Lemma below_split n nd m :
  h0 !! n = Some nd → below h0 n m → m ≠ n →
  ∃ c, c ∈ children nd ∧ below h0 c m.
Proof.
  intros Hn. induction 1 as [|m x up Hm Hup Hbelow IH]; [done|]. intros _.
  destruct (decide (up = n)) as [->|Hne].
  - destruct h0_listed as [Hlist _].
    destruct (Hlist m x n Hm Hup) as (un & Hun & Hin).
    assert (un = nd) as -> by congruence.
    exists m. split; [done|]. by eapply below_self.
  - destruct (IH Hne) as (c & Hc & Hcup). exists c. split; [done|].
    by eapply below_up.
Qed.

Lemma below_linear a b m : below h0 a m → below h0 b m → below h0 a b ∨ below h0 b a.
Proof.
  induction 1 as [nd Ha|m nd up Hm Hup Haup IH]; intros Hb; [by right|].
  inversion Hb as [nd' Hb'|m' nd' up' Hm' Hup' Hbup]; subst.
  - left. eapply below_up; [exact Hm|exact Hup|exact Haup].
  - assert (up' = up) as -> by congruence. by apply IH.
Qed.

Lemma below_siblings n nd c1 c2 m :
  h0 !! n = Some nd → c1 ∈ children nd → c2 ∈ children nd →
  below h0 c1 m → below h0 c2 m → c1 = c2.
Proof.
  intros Hn Hc1 Hc2 H1 H2.
  destruct (tree_ok_child h0 n nd c1 h0_ok Hn Hc1) as (Hlt1 & x1 & Hx1 & Hp1).
  destruct (tree_ok_child h0 n nd c2 h0_ok Hn Hc2) as (Hlt2 & x2 & Hx2 & Hp2).
  assert (∀ a b xb, h0 !! b = Some xb → parent xb = Some n → (n < a)%nat →
            below h0 a b → a = b) as Hone.
  { intros a b xb Hb Hpb Hna Hab.
    inversion Hab as [|m' nd' up' Hm' Hup' Hbup]; subst; [done|].
    assert (up' = n) as -> by congruence.
    apply below_le in Hbup. lia. }
  destruct (below_linear c1 c2 m H1 H2) as [H12|H21].
  - by apply (Hone c1 c2 x2).
  - symmetry. by apply (Hone c2 c1 x1).
Qed.

Lemma below_root m : (m < length h0)%nat → below h0 0 m.
Proof.
  destruct h0_ok as ((r & Hr & _) & Hup & _).
  induction m as [m IH] using lt_wf_ind. intros Hm.
  destruct (decide (m = 0%nat)) as [->|Hne]; [by eapply below_self|].
  destruct (lookup_lt_is_Some_2 h0 m Hm) as [nd Hnd].
  destruct (Hup m nd Hnd Hne) as (up & Hpar & Hlt).
  eapply below_up; [exact Hnd|exact Hpar|]. apply IH; lia.
Qed.

Lemma delete_children_spec
    (rec : list Node → list nat → nat → option (list Node * list nat))
    (n : nat) (nd : Node) :
  h0 !! n = Some nd →
  (∀ c h freed, c ∈ children nd → intact h0 h freed c →
     deleted h0 h freed c (rec h freed c)) →
  ∀ todo i h freed,
    (todo + i = length (children nd))%nat →
    h !! n = Some nd → n ∉ freed →
    (∀ j c, (i ≤ j)%nat → children nd !! j = Some c → intact h0 h freed c) →
    ∃ h' done,
      delete_children rec n todo i h freed = Some (h', freed ++ done)
      ∧ NoDup done
      ∧ (∀ m, m ∈ done ↔
           ∃ j c, (i ≤ j)%nat ∧ children nd !! j = Some c ∧ below h0 c m)
      ∧ (∀ m, (∀ j c, (i ≤ j)%nat → children nd !! j = Some c → ¬ below h0 c m) →
           h' !! m = h !! m)
      ∧ length h' = length h.
Proof.
  intros Hn Hrec. destruct h0_listed as [_ Hnodup].
  specialize (Hnodup n nd Hn).
  induction todo as [|todo IH]; intros i h freed Hlen Hhn Hfree Hintact.
  - exists h, []. rewrite app_nil_r.
    assert (children nd !! i = None) as Hi by (apply lookup_ge_None_2; lia).
    split.
    { simpl. unfold read_live. rewrite decide_False by done. rewrite Hhn. simpl.
      by rewrite Hi. }
    split; [constructor|]. split.
    { intros m. split; [by intros ?%elem_of_nil|].
      intros (j & c & Hj & Hc & _). apply lookup_lt_Some in Hc. lia. }
    by split.
  - destruct (lookup_lt_is_Some_2 (children nd) i) as [c Hc]; [lia|].
    assert (c ∈ children nd) as Hcin by (by eapply list_elem_of_lookup_2).
    destruct (tree_ok_child h0 n nd c h0_ok Hn Hcin) as (Hnc & cn & Hcn & Hpar).
    pose proof (Hintact i c (le_n i) Hc) as Hic.
    destruct (Hrec c h freed Hcin Hic) as (h1 & d1 & Hres & Hnd1 & Hd1 & Hout1 & Hlen1).
    assert (below h0 c c) as Hcc by (by eapply below_self).
    assert (c ∉ freed ++ d1) as Hcfree.
    { intros [Hin|Hin]%elem_of_app.
      - by destruct (Hic c Hcc).
      - apply Hd1 in Hin as [_ ?]. done. }
    assert (¬ below h0 c n) as Hncn.
    { intros Hb. apply below_le in Hb. lia. }
    destruct (IH (S i) h1 ((freed ++ d1) ++ [c])) as (h2 & d2 & Hloop & Hnd2 & Hd2 & Hout2 & Hlen2).
    + lia.
    + rewrite Hout1 by done. done.
    + intros [[Hin|Hin]%elem_of_app|Hin%list_elem_of_singleton]%elem_of_app.
      * done.
      * apply Hd1 in Hin as [Hb _]. done.
      * lia.
    + intros j c' Hj Hc' m Hm.
      assert (c' ∈ children nd) as Hc'in by (by eapply list_elem_of_lookup_2).
      assert (c' ≠ c) as Hne.
      { intros ->. pose proof (NoDup_lookup _ _ _ _ Hnodup Hc Hc'). lia. }
      assert (¬ below h0 c m) as Hncm.
      { intros Hb. apply Hne. by apply (below_siblings n nd c' c m). }
      destruct (Hintact j c' (ltac:(lia)) Hc' m Hm) as [Hh Hf].
      split; [rewrite Hout1 by done; done|].
      intros [[Hin|Hin]%elem_of_app|Hin%list_elem_of_singleton]%elem_of_app.
      * done.
      * apply Hd1 in Hin as [Hb _]. done.
      * subst m. apply Hncm. done.
    + exists h2, (d1 ++ [c] ++ d2). split.
      { simpl. unfold read_live at 1. rewrite decide_False by done. rewrite Hhn. simpl.
        rewrite Hc. rewrite Hres. simpl. rewrite decide_False by done.
        rewrite Hloop. f_equal. f_equal. by rewrite <- !app_assoc. }
      assert (∀ m, m ∈ d2 → ¬ below h0 c m) as Hd2c.
      { intros m Hm Hb. apply Hd2 in Hm as (j & c' & Hj & Hc' & Hb').
        assert (c' ∈ children nd) as Hc'in by (by eapply list_elem_of_lookup_2).
        pose proof (below_siblings n nd c' c m Hn Hc'in Hcin Hb' Hb) as ->.
        pose proof (NoDup_lookup _ _ _ _ Hnodup Hc Hc'). lia. }
      split.
      { apply NoDup_app. split; [done|]. split.
        - intros m Hm1 [->%list_elem_of_singleton|Hm2]%elem_of_app.
          + apply Hd1 in Hm1 as [_ ?]. done.
          + apply Hd1 in Hm1 as [Hb _]. by apply (Hd2c m).
        - apply NoDup_app. split; [apply NoDup_singleton|]. split; [|done].
          intros m ->%list_elem_of_singleton Hm2. by apply (Hd2c c). }
      split.
      { intros m. rewrite !elem_of_app, list_elem_of_singleton, Hd1, Hd2. split.
        - intros [[Hb _]|[->|(j & c' & Hj & Hc' & Hb)]].
          + by exists i, c.
          + by exists i, c.
          + exists j, c'. split; [lia|done].
        - intros (j & c' & Hj & Hc' & Hb).
          destruct (decide (j = i)) as [->|Hji].
          + assert (c' = c) as -> by congruence.
            destruct (decide (m = c)) as [->|Hmc]; [right; by left|by left].
          + right. right. exists j, c'. split; [lia|done]. }
      split; [|congruence].
      intros m Hm. rewrite Hout2.
      * apply Hout1. by apply (Hm i c).
      * intros j c' Hj. apply Hm. lia.
Qed.

Lemma delete_tree_spec (fuel : nat) :
  ∀ n nd h freed,
    h0 !! n = Some nd → (length h0 ≤ fuel + n)%nat →
    intact h0 h freed n →
    deleted h0 h freed n (delete_tree fuel h freed n).
Proof.
  induction fuel as [|fuel IH]; intros n nd h freed Hn Hfuel Hintact.
  - apply lookup_lt_Some in Hn. lia.
  - assert (below h0 n n) as Hnn by (by eapply below_self).
    destruct (Hintact n Hnn) as [Hhn Hfree]. rewrite Hn in Hhn.
    assert (read_live h freed n = Some nd) as Hlive.
    { unfold read_live. by rewrite decide_False. }
    cbn [delete_tree]. rewrite Hlive. cbn [mbind option_bind].
    destruct (children nd) as [|c0 cs] eqn:Hch.
    + exists h, []. rewrite app_nil_r. split; [done|]. split; [constructor|].
      split; [|by split].
      intros m. split; [by intros ?%elem_of_nil|]. intros [Hb Hne].
      destruct (below_split n nd m Hn Hb Hne) as (c & Hc & _).
      rewrite Hch in Hc. by apply elem_of_nil in Hc.
    + rewrite <- Hch.
      assert (∀ c h' freed', c ∈ children nd → intact h0 h' freed' c →
                deleted h0 h' freed' c (delete_tree fuel h' freed' c)) as Hrec.
      { intros c h' freed' Hc Hic.
        destruct (tree_ok_child h0 n nd c h0_ok Hn Hc) as (Hnc & cn & Hcn & _).
        apply (IH c cn h' freed' Hcn); [lia|done]. }
      assert (∀ j c, (0 ≤ j)%nat → children nd !! j = Some c → intact h0 h freed c)
        as Hsub.
      { intros j c _ Hc m Hm. apply Hintact.
        apply (below_child n nd c m Hn); [by eapply list_elem_of_lookup_2|done]. }
      destruct (delete_children_spec (delete_tree fuel) n nd Hn Hrec
                  (length (children nd)) 0%nat h freed (Nat.add_0_r _)
                  Hhn Hfree Hsub)
        as (h1 & d1 & Hloop & Hnd1 & Hd1 & Hout1 & Hlen1).
      assert (∀ j c, children nd !! j = Some c → ¬ below h0 c n) as Hup.
      { intros j c Hc Hb. apply below_le in Hb.
        apply list_elem_of_lookup_2 in Hc.
        destruct (tree_ok_child h0 n nd c h0_ok Hn Hc) as (Hnc & _). lia. }
      assert (n ∉ d1) as Hnd.
      { intros (j & c & _ & Hc & Hb)%Hd1. by apply (Hup j c). }
      assert (h1 !! n = Some nd) as Hh1.
      { rewrite Hout1; [done|]. intros j c _. apply Hup. }
      rewrite Hloop. cbn [mbind option_bind]. unfold read_live.
      rewrite decide_False by (rewrite elem_of_app; tauto).
      rewrite Hh1. cbn [mbind option_bind].
      exists (<[n := clear_children nd]> h1), d1.
      split; [done|]. split; [done|]. split; [|split].
      * intros m. rewrite Hd1. split.
        -- intros (j & c & _ & Hc & Hb). split.
           ++ apply (below_child n nd c m Hn); [by eapply list_elem_of_lookup_2|done].
           ++ intros ->. by apply (Hup j c).
        -- intros [Hb Hne].
            destruct (below_split n nd m Hn Hb Hne) as (c & Hc & Hcm).
            apply list_elem_of_lookup_1 in Hc as [j Hj].
            exists j, c. split; [lia|done].
      * intros m Hm. rewrite list_lookup_insert_ne.
        -- apply Hout1. intros j c _ Hc Hb. apply Hm.
            apply (below_child n nd c m Hn); [by eapply list_elem_of_lookup_2|done].
        -- intros ->. by apply Hm.
      * by rewrite length_insert.
Qed.

End Tree.

Lemma release_spec (h : list Node) :
  tree_ok h → children_listed h →
  ∃ freed, release h = Some freed ∧ freed ≡ₚ seq 0 (length h)
    ∧ last freed = Some 0%nat.
Proof.
  intros Hok Hlist. destruct Hok as ((r & Hr & Hpar) & Hrest).
  assert (tree_ok h) as Hok by (split; [by exists r|done]).
  assert (intact h h [] 0) as Hintact.
  { intros m _. split; [done|]. apply not_elem_of_nil. }
  destruct (delete_tree_spec h Hok Hlist (length h) 0 r h [] Hr) as
    (h' & d & Hres & Hnd & Hd & _); [lia|done|].
  unfold release. rewrite Hres. cbn [mbind option_bind app].
  assert (0%nat ∉ d) as H0 by (intros [_ ?]%Hd; done).
  rewrite decide_False by done.
  exists (d ++ [0%nat]). split; [done|]. split; [|by rewrite last_snoc].
  apply NoDup_Permutation.
  - apply NoDup_app. split; [done|]. split; [|apply NoDup_singleton].
    by intros m Hm ->%list_elem_of_singleton.
  - apply NoDup_seq.
  - intros m. rewrite elem_of_app, list_elem_of_singleton, Hd, elem_of_seq. split.
    + intros [[Hb _]| ->].
      * destruct (below_lookup h 0 m Hb) as [_ Hm].
        apply lookup_lt_is_Some in Hm. lia.
      * apply lookup_lt_Some in Hr. lia.
    + intros [_ Hm]. destruct (decide (m = 0%nat)) as [->|Hne]; [by right|].
      left. split; [|done]. apply (below_root h Hok). lia.
Qed.

(** X14. delete_tree followed by free(root), on a tree in which every node
    but the root is listed once among the children of its parent: no freed
    node is read or freed again, and every node of the store is freed
    exactly once, the root last. *)
Theorem release_frees_every_node (h : list Node) :
  tree_ok h → children_listed h →
  ∃ freed, release h = Some freed ∧ freed ≡ₚ seq 0 (length h)
    ∧ last freed = Some 0%nat.
Proof. intros Hok Hlist. by apply release_spec. Qed.

(** X15. For any node of a tree, greedy_select returns: action() when no
    child has a positive visit count (so also with no child at all), and
    otherwise the last_action of the first child, in the order of
    insertion, among those with the highest visit count. *)
Theorem greedy_select_spec (h : list Node) (node : nat) (nd : Node) :
  tree_ok h → h !! node = Some nd →
  (greedy_select h node = Some action_default
   ∧ ∀ c cn, c ∈ children nd → h !! c = Some cn → visit_count cn ≤ 0)
  ∨ (∃ k c cn, children nd !! k = Some c ∧ h !! c = Some cn
       ∧ greedy_select h node = Some (action_place (last_action cn))
       ∧ 0 < visit_count cn
       ∧ ∀ j c' cn', children nd !! j = Some c' → h !! c' = Some cn' →
           visit_count cn' ≤ visit_count cn
           ∧ ((j < k)%nat → visit_count cn' < visit_count cn)).
Proof. intros Hok Hnd. by apply greedy_select_cases. Qed.

Section Shuffle.
Hypothesis shuffle_perm : ∀ l e, fst (shuffle l e) ≡ₚ l.

(** X16. The tree at the end of the loop of take_action: every node but
    the root has an earlier parent that lists it, once, among its children;
    every child holds the board its parent's board becomes by the child's
    move, which is legal there and is a placement of the side after the
    parent's side; and releasing the tree as take_action does frees each
    of its nodes exactly once. *)
Theorem search_tree_shape (fuel : nat) (ticks : list float)
    (p : MCTS_player) (st : board) (p' : MCTS_player) (h : list Node) (t : Z) :
  spaces_ok p → search fuel ticks p st = Some (p', h, t) →
  tree_ok h ∧ children_listed h ∧ edges_legal h ∧ edges_sided h
  ∧ ∃ freed, release h = Some freed ∧ freed ≡ₚ seq 0 (length h).
Proof.
  intros Hp Hs.
  destruct (search_shape_final shuffle_perm _ _ _ _ _ _ _ Hp Hs)
    as ((Hok & Hlegal & Hlist & Hsided & _) & _).
  split; [done|]. split; [done|]. split; [done|]. split; [done|].
  destruct (release_spec h Hok Hlist) as (freed & Hrel & Hperm & _).
  by exists freed.
Qed.

End Shuffle.
End Release.

(** ** The further properties at concrete inputs *)

Section FurtherRuns.
Import Grid.

Lemma black_picker_constructed : new_player "role=black" = Ok black_picker.
Proof. reflexivity. Qed.

Lemma example_tree0_shape : search_shape two_left white example_tree0.
Proof.
  unfold example_tree0.
  rewrite (expand_closed black_player [example_root] 0 example_root) by done.
  apply expanded_search_shape;
    [exact black_player_spaces_ok|apply root_search_shape|done].
Qed.

Lemma example_search_defined :
  is_Some (search 10 example_ticks black_player two_left).
Proof. apply (bool_decide_unpack _). by vm_compute. Qed.

Lemma key_value_split_witness :
  (key_of "seed=7" = "seed"%string ∧ value_of "seed=7" = "7"%string)
  ∧ (key_of "shell" = "shell"%string ∧ value_of "shell" = "shell"%string).
Proof.
  destruct (key_value_split "seed" "7" "shell") as [Hpair Hword].
  split; [apply Hpair; reflexivity|apply Hword; reflexivity].
Defined.

Lemma notify_property_witness :
  property (notify (agent "") "seed=7") "seed" = Some "7"%string
  ∧ property (notify (agent "") "seed=7") "name" = property (agent "") "name".
Proof.
  destruct (notify_property (agent "") "seed" "7" "name") as [Hset Hother];
    [reflexivity|].
  split; [exact Hset|apply Hother; discriminate].
Defined.

Lemma agent_last_pair_wins_witness :
  property (agent "role=black seed=3 role=white") "role" = Some "white"%string.
Proof.
  apply (agent_last_pair_wins "role=black seed=3 role=white"
           ["role=black"; "seed=3"]%string [] "role=white" "role");
    reflexivity.
Defined.

Lemma agent_properties_defined_witness :
  is_Some (name (agent "seed=7")) ∧ is_Some (role (agent "seed=7"))
  ∧ property (agent "seed=7") "search" = None.
Proof.
  destruct (agent_properties_defined "seed=7" "search") as (Hname & Hrole & Hnone).
  split; [exact Hname|]. split; [exact Hrole|].
  apply Hnone; [discriminate|discriminate|reflexivity].
Defined.

Lemma constructed_players_witness :
  (who black_player = black ∧ spaces_ok black_player)
  ∧ p_space black_picker = full_space (p_who black_picker).
Proof.
  destruct (constructed_players "role=black") as [Htree Hpick].
  destruct (Htree black_player black_player_constructed)
    as (_ & _ & _ & _ & _ & _ & _ & Hok).
  destruct (Hpick black_picker black_picker_constructed)
    as (_ & _ & _ & _ & Hspace).
  split; [split; [reflexivity|exact Hok]|exact Hspace].
Defined.

Lemma player_take_action_spec_witness :
  p_space (player_take_action (B:=grid_board) black_picker two_left).2
  ≡ₚ p_space black_picker
  ∧ p_who (player_take_action (B:=grid_board) black_picker two_left).2
    = p_who black_picker.
Proof.
  destruct (player_take_action_spec (B:=grid_board) (L:=grid_stdlib)
              rotate_by_perm black_picker two_left
              (player_take_action (B:=grid_board) black_picker two_left).1
              (player_take_action (B:=grid_board) black_picker two_left).2)
    as (_ & _ & Hspace & Hwho & _).
  { by destruct (player_take_action (B:=grid_board) black_picker two_left). }
  exact (conj Hspace Hwho).
Defined.

Lemma search_root_visits_witness :
  ∃ p' h t r, search 10 example_ticks black_player two_left = Some (p', h, t)
    ∧ h !! 0%nat = Some r ∧ visit_count r = t ∧ 1 ≤ t.
Proof.
  destruct example_search_defined as [[[p' h] t] Hs].
  destruct (search_root_visits (B:=grid_board) (L:=grid_stdlib)
              10 example_ticks black_player two_left p' h t Hs)
    as (r & k & Hr & _ & _ & _ & Hvis & _ & Ht & _).
  exists p', h, t, r. exact (conj Hs (conj Hr (conj Hvis Ht))).
Defined.

Lemma take_action_player_witness :
  meta example_result.2 = meta black_player
  ∧ step_count example_result.2 = step_of two_left.
Proof.
  destruct (take_action_player (B:=grid_board) (L:=grid_stdlib)
              rotate_by_perm 10 example_ticks black_player
              two_left example_result.1 example_result.2)
    as (Hmeta & _ & Hstep & _).
  { unfold example_result.
    assert (is_Some (take_action 10 example_ticks black_player two_left))
      as [[a p'] ->]; [|done].
    apply (bool_decide_unpack _). by vm_compute. }
  exact (conj Hmeta Hstep).
Defined.

Lemma take_action_legal_witness :
  (example_result.1 = action_default ↔
   Forall (λ m, snd (apply m two_left) = false) (full_space black))
  ∧ ∀ m, example_result.1 = action_place m → snd (apply m two_left) = true.
Proof.
  destruct (take_action_legal (B:=grid_board) (L:=grid_stdlib)
              rotate_by_perm 10 example_ticks black_player
              two_left example_result.1 example_result.2)
    as (Hnone & Hmove).
  - exact black_player_spaces_ok.
  - discriminate.
  - unfold example_result.
    assert (is_Some (take_action 10 example_ticks black_player two_left))
      as [[a p'] ->]; [|done].
    apply (bool_decide_unpack _). by vm_compute.
  - split; [exact Hnone|]. intros m Hm. by destruct (Hmove m Hm).
Defined.

Lemma take_action_defined_witness :
  ∃ a p', take_action 10 example_ticks black_player two_left = Some (a, p').
Proof.
  apply (take_action_defined (B:=grid_board) (L:=grid_stdlib)
           rotate_by_perm empties put_lowers_empties
           10 example_ticks black_player two_left 0.2%float).
  - exact black_player_spaces_ok.
  - by vm_compute.
  - apply Exists_cons_tl, Exists_cons_tl, Exists_cons_hd. by vm_compute.
  - vm_compute. lia.
Defined.

Lemma release_frees_every_node_witness :
  ∃ freed, release example_tree0 = Some freed
    ∧ freed ≡ₚ seq 0 (length example_tree0) ∧ last freed = Some 0%nat.
Proof.
  apply (release_frees_every_node example_tree0).
  - exact example_tree0_ok.
  - by destruct example_tree0_shape as (_ & _ & Hlist & _).
Defined.

Lemma greedy_select_spec_witness :
  greedy_select example_tree0 0 = Some action_default
  ∨ ∃ k c cn, children (add_children example_root [1; 2]%nat) !! k = Some c
      ∧ example_tree0 !! c = Some cn
      ∧ greedy_select example_tree0 0 = Some (action_place (last_action cn)).
Proof.
  destruct (greedy_select_spec example_tree0 0
              (add_children example_root [1; 2]%nat))
    as [[Hdef _]|(k & c & cn & Hk & Hcn & Hsel & _)];
    [exact example_tree0_ok|reflexivity| |].
  - left. exact Hdef.
  - right. exists k, c, cn. exact (conj Hk (conj Hcn Hsel)).
Defined.

Lemma search_tree_shape_witness :
  ∃ p' h t, search 10 example_ticks black_player two_left = Some (p', h, t)
    ∧ tree_ok h ∧ children_listed h
    ∧ ∃ freed, release h = Some freed ∧ freed ≡ₚ seq 0 (length h).
Proof.
  destruct example_search_defined as [[[p' h] t] Hs].
  destruct (search_tree_shape (B:=grid_board) (L:=grid_stdlib)
              rotate_by_perm 10 example_ticks black_player two_left p' h t
              black_player_spaces_ok Hs)
    as (Hok & Hlist & _ & _ & Hfree).
  exists p', h, t. exact (conj Hs (conj Hok (conj Hlist Hfree))).
Defined.

End FurtherRuns.

(** ** The order of the checks of the constructors *)

Section ConstructorChecks.
Context `{L : StdLib}.

Lemma resolve_who_Throw_iff m e :
  is_Some (name m) → is_Some (role m) →
  resolve_who m = Throw e ↔
  match e with
  | invalid_seed | missing_property => False
  | invalid_name n => name m = Some n ∧ has_invalid_char n = true
  | invalid_role r =>
      (∃ n, name m = Some n ∧ has_invalid_char n = false)
      ∧ role m = Some r ∧ r ≠ "black"%string ∧ r ≠ "white"%string
  end.
Proof.
  intros [n Hn] [r Hr]. unfold resolve_who. rewrite Hn, Hr.
  destruct (has_invalid_char n) eqn:Hbad.
  { split.
    - by intros [= <-].
    - destruct e as [n'|r'| |]; try done.
      + intros [[= <-] _]. done.
      + intros [(n' & [= <-] & Hok) _]. congruence. }
  destruct (decide (r = "white"%string)) as [->|Hw].
  { split; [done|]. destruct e as [n'|r'| |]; try done.
    - intros [[= <-] ?]. congruence.
    - intros (_ & [= <-] & _ & ?). done. }
  destruct (decide (r = "black"%string)) as [->|Hb].
  { split; [done|]. destruct e as [n'|r'| |]; try done.
    - intros [[= <-] ?]. congruence.
    - intros (_ & [= <-] & ? & _). done. }
  simpl. split.
  - intros [= <-]. split; [by exists n|done].
  - destruct e as [n'|r'| |]; try done.
    + intros [[= <-] ?]. congruence.
    + intros (_ & [= <-] & _). done.
Qed.

(** X6. The two constructors fail on the same option strings with the same
    exception, and the checks are made in this order: the seed, which must
    be a number when given; then the name, which must have none of the
    characters "[]():; "; then the role, which must be black or white. An
    exception is thrown exactly when its check is the first that fails;
    meta.at never throws during construction. *)
Theorem constructor_failure (args : string) (e : ctor_error) :
  let m := agent ("name=random role=unknown " +:+ args) in
  (new_MCTS_player args = Throw e ↔ new_player args = Throw e)
  ∧ (new_MCTS_player args = Throw e ↔
     match e with
     | invalid_seed => ∃ v, m !! "seed"%string = Some v ∧ seed_engine v = None
     | invalid_name n =>
         seed_ok m ∧ name m = Some n ∧ has_invalid_char n = true
     | invalid_role r =>
         seed_ok m ∧ (∃ n, name m = Some n ∧ has_invalid_char n = false)
         ∧ role m = Some r ∧ r ≠ "black"%string ∧ r ≠ "white"%string
     | missing_property => False
     end).
Proof.
  intros m. split.
  - unfold new_MCTS_player, new_player.
    destruct (random_agent _) as [[m' e']|]; [|by split; intros [= <-]].
    destruct (resolve_who m'); [done|by split; intros [= <-]].
  - unfold new_MCTS_player, random_agent, seed_ok. fold m.
    destruct (agent_name_role ("name=random role=unknown " +:+ args))
      as (Hname & Hrole). fold m in Hname, Hrole.
    pose proof (resolve_who_Throw_iff m e Hname Hrole) as Hiff.
    destruct (m !! "seed"%string) as [v|] eqn:Hseed.
    + destruct (seed_engine v) as [e'|] eqn:Hv.
      * assert (resolve_who m = Throw e ↔
                match resolve_who m with
                | Ok who => Ok (MCTS m e' (full_space white) (full_space black) who 0)
                | Throw err => Throw err
                end = Throw e) as <-.
        { destruct (resolve_who m); [done|]. by split; intros [= <-]. }
        rewrite Hiff. destruct e as [n|r| |]; try done.
        -- split; [by intros ?|by intros [_ ?]].
        -- split; [by intros ?|by intros [_ ?]].
        -- split; [done|]. intros (v' & [= <-] & ?). congruence.
      * split.
        -- intros [= <-]. by exists v.
        -- destruct e as [n|r| |]; try done.
           ++ intros [[e' ?] _]. done.
           ++ intros [[e' ?] _]. done.
    + assert (resolve_who m = Throw e ↔
              match resolve_who m with
              | Ok who => Ok (MCTS m default_engine (full_space white)
                                (full_space black) who 0)
              | Throw err => Throw err
              end = Throw e) as <-.
      { destruct (resolve_who m); [done|]. by split; intros [= <-]. }
      rewrite Hiff. destruct e as [n|r| |]; try done.
      * split; [by intros ?|by intros [_ ?]].
      * split; [by intros ?|by intros [_ ?]].
      * split; [done|]. by intros (v' & ? & _).
Qed.

End ConstructorChecks.

(** ** The counts and the scores during the search *)

Section Counts.
Context `{B : Board} `{L : StdLib}.

(** A node after one pass: a node of before, with children appended at
    most, or a new node; bumped when it lies on the chain. *)
Lemma round_node_cases fuel p h t p' h' t' :
  tree_ok h → round fuel p h t = Some (p', h', t') →
  ∀ i nd', h' !! i = Some nd' →
    ∃ x win, (nd' = x ∨ nd' = bump win (t + 1) x)
      ∧ ((∃ nd cs, h !! i = Some nd ∧ x = add_children nd cs)
         ∨ (∃ st side up move,
              (length h ≤ i)%nat ∧ x = new_node st side up move)).
Proof.
  intros Hok Hround i nd' Hi.
  destruct (round_shape _ _ _ _ _ _ _ Hok Hround)
    as (leaf & nd0 & r1 & winner & h1 & -> & _ & Hnd0 & _ & _ & _ & _ & Hlook).
  set (moves := legal_moves (space_for nd0 p) (state nd0)) in *.
  set (h1 := expanded h leaf nd0 (child_side nd0) moves) in *.
  set (win := bool_decide (winner ≠ node_who r1)) in *.
  rewrite Hlook in Hi.
  destruct (h1 !! i) as [x|] eqn:Hx.
  2:{ by destruct (decide (i ∈ chain (length h1) h1 (Some leaf))). }
  exists x, win. split.
  { destruct (decide (i ∈ chain (length h1) h1 (Some leaf)));
      simpl in Hi; injection Hi as <-; [by right|by left]. }
  apply expanded_lookup in Hx; [|done].
  destruct Hx as [[-> ->]|[[Hne Hx]|(j & m & -> & Hm & ->)]].
  - left. by eexists _, _.
  - left. exists x, []. by rewrite add_children_nil.
  - right. eexists _, _, _, _. split; [lia|done].
Qed.

Lemma round_new_counts fuel p h t p' h' t' :
  tree_ok h → round fuel p h t = Some (p', h', t') →
  ∀ i nd', h' !! i = Some nd' → h !! i = None →
    0 ≤ win_count nd' ≤ visit_count nd' ∧ visit_count nd' ≤ 1.
Proof.
  intros Hok Hround i nd' Hi Hnew.
  destruct (round_node_cases _ _ _ _ _ _ _ Hok Hround i nd' Hi)
    as (x & win & Hnd' & [(nd & cs & Hnd & _)|(st & side & up & move & _ & ->)]);
    [congruence|].
  destruct Hnd' as [->| ->]; simpl; [lia|]. destruct win; lia.
Qed.

(** The counts of every node after [k] passes: those of before, grown by
    at most [k], or those of a node made since, at most [k]. *)
Lemma rounds_counts (fuel k : nat) :
  ∀ p h t p' h' t',
    tree_ok h → rounds fuel k p h t = Some (p', h', t') →
    ∀ i nd', h' !! i = Some nd' →
      (∃ nd, h !! i = Some nd
         ∧ 0 ≤ win_count nd' - win_count nd ≤ visit_count nd' - visit_count nd
         ∧ visit_count nd' - visit_count nd ≤ Z.of_nat k)
      ∨ (h !! i = None
         ∧ 0 ≤ win_count nd' ≤ visit_count nd'
         ∧ visit_count nd' ≤ Z.of_nat k).
Proof.
  induction k as [|k IH]; intros p h t p' h' t' Hok; simpl.
  - intros [= <- <- <-] i nd' Hi. left. exists nd'. split; [done|]. lia.
  - destruct (round fuel p h t) as [[[p1 h1] t1]|] eqn:Hr; simpl; [|done].
    intros Hk i nd' Hi.
    pose proof (round_tree_ok _ _ _ _ _ _ _ Hok Hr) as Hok1.
    destruct (round_nodes _ _ _ _ _ _ _ Hok Hr) as [_ Hold].
    destruct (IH _ _ _ _ _ _ Hok1 Hk i nd' Hi)
      as [(x & Hx & Hw & Hv)|(Hnone & Hw & Hv)].
    + destruct (h !! i) as [nd|] eqn:Hnd.
      * left. exists nd. split; [done|].
        destruct (Hold i nd Hnd) as (x' & Hx' & _ & _ & _ & Hw' & Hv' & _).
        assert (x' = x) as -> by congruence. lia.
      * right. split; [done|].
        pose proof (round_new_counts _ _ _ _ _ _ _ Hok Hr i x Hx Hnd). lia.
    + right. destruct (h !! i) as [nd|] eqn:Hnd.
      * destruct (Hold i nd Hnd) as (x' & Hx' & _). congruence.
      * split; [done|]. lia.
Qed.

Lemma round_scored fuel p h t p' h' t' :
  tree_ok h → 0 ≤ t → scored t h →
  round fuel p h t = Some (p', h', t') → scored (t + 1) h'.
Proof.
  intros Hok Ht Hscored Hround i nd' Hi.
  destruct (round_node_cases _ _ _ _ _ _ _ Hok Hround i nd' Hi)
    as (x & win & Hnd' & Hx).
  assert ((visit_count x = 0 ∧ win_count x = 0 ∧ value x = FLT_MAX)
          ∨ (∃ t0, 1 ≤ t0 ≤ t ∧ 1 ≤ visit_count x ≤ t0
               ∧ 0 ≤ win_count x ≤ visit_count x
               ∧ value x = ucb (win_count x) (visit_count x) t0)) as Hsx.
  { destruct Hx as [(nd & cs & Hnd & ->)|(st & side & up & move & _ & ->)].
    - exact (Hscored i nd Hnd).
    - by left. }
  destruct Hnd' as [->| ->].
  - destruct Hsx as [Hnew|(t0 & Ht0 & Hrest)]; [by left|].
    right. exists t0. split; [lia|done].
  - right. exists (t + 1). simpl.
    destruct Hsx as [(Hv & Hw & _)|(t0 & Ht0 & Hv & Hw & _)];
      destruct win; repeat split; lia.
Qed.

Lemma rounds_scored (fuel k : nat) :
  ∀ p h t p' h' t',
    tree_ok h → 0 ≤ t → scored t h →
    rounds fuel k p h t = Some (p', h', t') → scored t' h'.
Proof.
  induction k as [|k IH]; intros p h t p' h' t' Hok Ht Hscored; simpl.
  - by intros [= <- <- <-].
  - destruct (round fuel p h t) as [[[p1 h1] t1]|] eqn:Hr; simpl; [|done].
    pose proof (round_tree_ok _ _ _ _ _ _ _ Hok Hr) as Hok1.
    pose proof (round_scored _ _ _ _ _ _ _ Hok Ht Hscored Hr) as Hs1.
    apply round_total in Hr as [-> _].
    apply IH; [done|lia|done].
Qed.

(** The tree take_action starts the loop with. *)
Lemma root_expanded_scored (p : MCTS_player) st side moves :
  let root := new_node st side None default_place in
  scored 0 (expanded [root] 0 root (child_side root) moves).
Proof.
  intros root i nd Hi. left.
  apply expanded_lookup in Hi; [|done].
  destruct Hi as [[-> ->]|[[Hne Hx]|(j & m & -> & Hm & ->)]]; [done| |done].
  by destruct i.
Qed.

End Counts.

(** ** Bounds on doubles

    Every operation of compute_value rounds to nearest; a result is bounded
    here by its order of magnitude, the number of digits of the mantissa
    plus the exponent. *)

Section Rounding.

Lemma digits2_pos_bounds (p : positive) :
  2 ^ (Z.pos (digits2_pos p) - 1) ≤ Z.pos p < 2 ^ Z.pos (digits2_pos p).
Proof.
  induction p as [p IH|p IH|]; simpl digits2_pos.
  - rewrite Pos2Z.inj_succ.
    replace (Z.succ (Z.pos (digits2_pos p)) - 1) with (Z.succ (Z.pos (digits2_pos p) - 1)) by lia.
    rewrite !Z.pow_succ_r by lia. lia.
  - rewrite Pos2Z.inj_succ.
    replace (Z.succ (Z.pos (digits2_pos p)) - 1) with (Z.succ (Z.pos (digits2_pos p) - 1)) by lia.
    rewrite !Z.pow_succ_r by lia. lia.
  - simpl. lia.
Qed.

Lemma Zdigits2_nonneg (m : Z) : 0 ≤ Zdigits2 m.
Proof. destruct m; simpl; lia. Qed.

Lemma Zdigits2_lt (m : Z) : 0 ≤ m → m < 2 ^ Zdigits2 m.
Proof.
  destruct m as [|p|p]; simpl; [lia| |lia]. intros _.
  apply digits2_pos_bounds.
Qed.

Lemma Zdigits2_le (m k : Z) : 0 ≤ k → 0 ≤ m < 2 ^ k → Zdigits2 m ≤ k.
Proof.
  intros Hk [Hm Hlt]. destruct m as [|p|p]; simpl; [lia| |lia].
  destruct (digits2_pos_bounds p) as [Hlow _].
  assert (2 ^ (Z.pos (digits2_pos p) - 1) < 2 ^ k) as Hpow by lia.
  apply Z.pow_lt_mono_r_iff in Hpow; lia.
Qed.

Lemma Zdigits2_mono (a b : Z) : 0 ≤ a ≤ b → Zdigits2 a ≤ Zdigits2 b.
Proof.
  intros [Ha Hab]. apply Zdigits2_le; [apply Zdigits2_nonneg|].
  split; [done|]. pose proof (Zdigits2_lt b). lia.
Qed.

Lemma Zdigits2_succ (m : Z) : 0 ≤ m → Zdigits2 (m + 1) ≤ Zdigits2 m + 1.
Proof.
  intros Hm. apply Zdigits2_le; [pose proof (Zdigits2_nonneg m); lia|].
  split; [lia|]. pose proof (Zdigits2_lt m Hm).
  rewrite Z.pow_add_r by (pose proof (Zdigits2_nonneg m); lia). lia.
Qed.

Lemma shr_1_bound (mrs : shr_record) (k : Z) :
  0 ≤ k → 0 ≤ shr_m mrs < 2 ^ (k + 1) → 0 ≤ shr_m (shr_1 mrs) < 2 ^ k.
Proof.
  intros Hk. destruct mrs as [m r s]. simpl.
  rewrite Z.pow_add_r by lia. change (2 ^ 1) with 2.
  destruct m as [|[p|p|]|p]; simpl; lia.
Qed.

Lemma iter_shr_1_bound (p : positive) :
  ∀ (mrs : shr_record) (k : Z),
    0 ≤ k → 0 ≤ shr_m mrs < 2 ^ (k + Z.pos p) →
    0 ≤ shr_m (SpecFloat.iter_pos shr_1 p mrs) < 2 ^ k.
Proof.
  induction p as [p IH|p IH|]; intros mrs k Hk Hm; simpl.
  - apply IH; [done|]. apply IH; [lia|]. apply shr_1_bound; [lia|].
    replace (k + Z.pos p + Z.pos p + 1) with (k + Z.pos p~1) by lia. done.
  - apply IH; [done|]. apply IH; [lia|].
    replace (k + Z.pos p + Z.pos p) with (k + Z.pos p~0) by lia. done.
  - by apply shr_1_bound.
Qed.

Lemma shr_m_of_loc (m : Z) (l : location) : shr_m (shr_record_of_loc m l) = m.
Proof. by destruct l as [|[]]. Qed.

(** One shift to the exponent of the format. *)
Lemma shr_fexp_bound (m e : Z) (l : location) (K : Z) :
  0 ≤ m → Zdigits2 m + e ≤ K → -1074 ≤ K →
  ∃ mrs e', shr_fexp 53 1024 m e l = (mrs, e')
    ∧ 0 ≤ shr_m mrs ∧ Zdigits2 (shr_m mrs) + e' ≤ K
    ∧ e' ≤ Z.max e (Z.max (K - 53) (-1074)).
Proof.
  intros Hm HK Hlow. unfold shr_fexp, shr.
  pose proof (Zdigits2_nonneg m) as Hd.
  pose proof (Zdigits2_lt m Hm) as Hlt.
  assert (fexp 53 1024 (Zdigits2 m + e) = Z.max (Zdigits2 m + e - 53) (-1074))
    as Hfexp by reflexivity.
  destruct (fexp 53 1024 (Zdigits2 m + e) - e) as [|n|n] eqn:Hn.
  - eexists _, _. split; [done|]. rewrite shr_m_of_loc. lia.
  - eexists _, _. split; [done|].
    set (d := Z.max (Zdigits2 m - Z.pos n) 0).
    assert (0 ≤ shr_m (SpecFloat.iter_pos shr_1 n (shr_record_of_loc m l)) < 2 ^ d) as Hres.
    { apply iter_shr_1_bound; [lia|]. rewrite shr_m_of_loc. split; [done|].
      eapply Z.lt_le_trans; [exact Hlt|]. apply Z.pow_le_mono_r; lia. }
    split; [lia|].
    pose proof (Zdigits2_le _ d ltac:(lia) Hres) as Hdig. lia.
  - eexists _, _. split; [done|]. rewrite shr_m_of_loc. lia.
Qed.

Lemma round_nearest_even_bound (m : Z) (l : location) :
  0 ≤ m → m ≤ round_nearest_even m l ≤ m + 1.
Proof. intros Hm. destruct l as [|[]]; simpl; [lia| |lia|lia]. destruct (Z.even m); lia. Qed.

Lemma binary_round_aux_small (mx ex : Z) (lx : location) (K : Z) :
  0 ≤ mx → Zdigits2 mx + ex ≤ K → -1074 ≤ K ≤ 900 →
  small (K + 1) (binary_round_aux 53 1024 false mx ex lx).
Proof.
  intros Hm HK Hrange. unfold binary_round_aux.
  destruct (shr_fexp_bound mx ex lx K Hm HK ltac:(lia))
    as (mrs1 & e1 & -> & Hm1 & Hd1 & He1).
  set (m1 := round_nearest_even (shr_m mrs1) (loc_of_shr_record mrs1)).
  pose proof (round_nearest_even_bound (shr_m mrs1) (loc_of_shr_record mrs1) Hm1) as Hr.
  fold m1 in Hr.
  assert (Zdigits2 m1 + e1 ≤ K + 1) as Hd.
  { pose proof (Zdigits2_mono m1 (shr_m mrs1 + 1) ltac:(lia)).
    pose proof (Zdigits2_succ (shr_m mrs1) Hm1). lia. }
  destruct (shr_fexp_bound m1 e1 loc_Exact (K + 1) ltac:(lia) Hd ltac:(lia))
    as (mrs2 & e2 & -> & Hm2 & Hd2 & He2).
  destruct (shr_m mrs2) as [|p|p] eqn:Hp; simpl; [done| |lia].
  pose proof (Zdigits2_nonneg mx).
  rewrite (proj2 (Z.leb_le e2 (1024 - 53))) by lia.
  simpl in Hd2. simpl. lia.
Qed.


Lemma digits2_pos_iter_xO (m d : positive) :
  Z.pos (digits2_pos (Pos.iter xO m d)) = Z.pos (digits2_pos m) + Z.pos d.
Proof.
  induction d as [|d IH] using Pos.peano_ind.
  - simpl. lia.
  - rewrite Pos.iter_succ. simpl digits2_pos. rewrite Pos2Z.inj_succ, IH. lia.
Qed.

Lemma shl_align_digits (m : positive) (e e' : Z) :
  Z.pos (digits2_pos (shl_align m e e').1) + (shl_align m e e').2
  = Z.pos (digits2_pos m) + e.
Proof.
  unfold shl_align. destruct (e' - e) as [|d|d] eqn:Hd; simpl; [done|done|].
  rewrite digits2_pos_iter_xO. lia.
Qed.

Lemma binary_round_small (m : positive) (e K : Z) :
  Z.pos (digits2_pos m) + e ≤ K → -1074 ≤ K ≤ 900 →
  small (K + 1) (binary_round 53 1024 false m e).
Proof.
  intros HK Hrange. unfold binary_round.
  pose proof (shl_align_digits m e (fexp 53 1024 (Z.pos (digits2_pos m) + e))) as Hal.
  destruct (shl_align m e _) as [mz ez]. simpl in Hal.
  apply binary_round_aux_small; [lia|simpl; lia|done].
Qed.

Lemma small_mono (k k' : Z) (x : spec_float) : k ≤ k' → small k x → small k' x.
Proof. intros Hk. destruct x as [| | |[] m e]; simpl; try done. lia. Qed.

Lemma digits2_pos_add (a b : positive) (k : Z) :
  Z.pos (digits2_pos a) ≤ k → Z.pos (digits2_pos b) ≤ k →
  Z.pos (digits2_pos (a + b)) ≤ k + 1.
Proof.
  intros Ha Hb.
  change (Z.pos (digits2_pos (a + b))) with (Zdigits2 (Z.pos (a + b))).
  apply Zdigits2_le; [lia|]. split; [lia|].
  destruct (digits2_pos_bounds a) as [_ Ha'].
  destruct (digits2_pos_bounds b) as [_ Hb'].
  assert (2 ^ Z.pos (digits2_pos a) ≤ 2 ^ k) by (apply Z.pow_le_mono_r; lia).
  assert (2 ^ Z.pos (digits2_pos b) ≤ 2 ^ k) by (apply Z.pow_le_mono_r; lia).
  rewrite Z.pow_add_r by lia. lia.
Qed.

Lemma SFadd_small (k : Z) (x y : spec_float) :
  -1074 ≤ k ≤ 898 → small k x → small k y →
  small (k + 2) (SFadd 53 1024 x y).
Proof.
  intros Hk Hx Hy.
  destruct x as [sx| | |[] mx ex]; try done;
    destruct y as [sy| | |[] my ey]; try done.
  - simpl. by destruct sx, sy.
  - simpl in *. lia.
  - simpl in *. lia.
  - unfold SFadd, cond_Zopp. simpl in Hx, Hy.
    set (ez := Z.min ex ey).
    pose proof (shl_align_digits mx ex ez) as Hax.
    pose proof (shl_align_digits my ey ez) as Hay.
    assert ((shl_align mx ex ez).2 = ez) as Hex.
    { unfold shl_align. destruct (ez - ex) eqn:He; simpl; lia. }
    assert ((shl_align my ey ez).2 = ez) as Hey.
    { unfold shl_align. destruct (ez - ey) eqn:He; simpl; lia. }
    rewrite Hex in Hax. rewrite Hey in Hay.
    change (Z.pos (shl_align mx ex ez).1 + Z.pos (shl_align my ey ez).1)
      with (Z.pos ((shl_align mx ex ez).1 + (shl_align my ey ez).1)).
    cbn [binary_normalize].
    replace (k + 2) with (k + 1 + 1) by lia.
    apply binary_round_small; [|lia].
    pose proof (digits2_pos_add (shl_align mx ex ez).1 (shl_align my ey ez).1
                  (k - ez) ltac:(lia) ltac:(lia)).
    lia.
Qed.

Lemma digits2_pos_mul (a b : positive) :
  Z.pos (digits2_pos (a * b)) ≤ Z.pos (digits2_pos a) + Z.pos (digits2_pos b).
Proof.
  change (Z.pos (digits2_pos (a * b))) with (Zdigits2 (Z.pos (a * b))).
  apply Zdigits2_le; [lia|]. split; [lia|].
  destruct (digits2_pos_bounds a) as [_ Ha].
  destruct (digits2_pos_bounds b) as [_ Hb].
  rewrite Z.pow_add_r by lia. rewrite Pos2Z.inj_mul. nia.
Qed.

Lemma SFmul_small (j k : Z) (x y : spec_float) :
  -1074 ≤ j + k ≤ 900 → small j x → small k y →
  small (j + k + 1) (SFmul 53 1024 x y).
Proof.
  intros Hk Hx Hy.
  destruct x as [sx| | |[] mx ex]; try done;
    destruct y as [sy| | |[] my ey]; try done.
  simpl in Hx, Hy. unfold SFmul. simpl xorb.
  apply binary_round_aux_small; [lia| |done].
  simpl. pose proof (digits2_pos_mul mx my). lia.
Qed.

Lemma SFdiv_small (k : Z) (x : spec_float) (my : positive) (ey : Z) :
  -1074 ≤ k ≤ 900 → small k x → 1 ≤ Z.pos (digits2_pos my) + ey →
  small (k + 1) (SFdiv 53 1024 x (S754_finite false my ey)).
Proof.
  intros Hk Hx Hy.
  destruct x as [sx| | |[] mx ex]; try done.
  simpl in Hx. unfold SFdiv, SFdiv_core_binary. simpl xorb.
  change (Zdigits2 (Z.pos mx)) with (Z.pos (digits2_pos mx)).
  change (Zdigits2 (Z.pos my)) with (Z.pos (digits2_pos my)).
  set (dx := Z.pos (digits2_pos mx)) in *.
  set (dy := Z.pos (digits2_pos my)) in *.
  set (e' := Z.min (fexp 53 1024 (dx + ex - (dy + ey))) (ex - ey)).
  assert (fexp 53 1024 (dx + ex - (dy + ey))
          = Z.max (dx + ex - (dy + ey) - 53) (-1074)) as Hfexp by reflexivity.
  set (s := ex - ey - e').
  assert (0 ≤ s) as Hs by (unfold s, e'; lia).
  set (m' := match s with Z.pos _ => Z.shiftl (Z.pos mx) s | 0 => Z.pos mx | Z.neg _ => 0 end).
  assert (m' = Z.pos mx * 2 ^ s) as Hm'.
  { unfold m'. destruct s as [|p|p] eqn:Hp; [simpl; lia| |lia].
    rewrite Z.shiftl_mul_pow2 by lia. done. }
  pose proof (Z_div_mod m' (Z.pos my) ltac:(lia)) as Hdiv.
  destruct (Z.div_eucl m' (Z.pos my)) as [q r]. destruct Hdiv as [Hq Hr].
  destruct (digits2_pos_bounds mx) as [_ Hmx]. fold dx in Hmx.
  destruct (digits2_pos_bounds my) as [Hmy _]. fold dy in Hmy.
  assert (0 < 2 ^ s) as Hps by (apply Z.pow_pos_nonneg; lia).
  assert (0 ≤ q) as Hq0 by nia.
  apply binary_round_aux_small; [done| |done].
  destruct (decide (q = 0)) as [->|Hne]; [simpl; unfold e'; lia|].
  assert (Zdigits2 q ≤ dx + s - dy + 1) as Hdq.
  { destruct q as [|p|p]; [done| |lia]. simpl.
    destruct (digits2_pos_bounds p) as [Hp _].
    set (dq := Z.pos (digits2_pos p)) in *.
    assert (2 ^ (dq - 1) * 2 ^ (dy - 1) < 2 ^ dx * 2 ^ s) as Hlt.
    { assert (0 < 2 ^ (dy - 1)) by (apply Z.pow_pos_nonneg; lia).
      assert (0 < 2 ^ (dq - 1)) by (apply Z.pow_pos_nonneg; lia).
      nia. }
    rewrite <- !Z.pow_add_r in Hlt by lia.
    apply Z.pow_lt_mono_r_iff in Hlt; lia. }
  unfold s in Hdq. lia.
Qed.

Lemma SFsqrt_small (k : Z) (x : spec_float) :
  0 ≤ k ≤ 898 → small k x → small (k + 2) (SFsqrt 53 1024 x).
Proof.
  intros Hk Hx.
  destruct x as [sx| | |[] mx ex]; try done.
  simpl in Hx. unfold SFsqrt, SFsqrt_core_binary.
  change (Zdigits2 (Z.pos mx)) with (Z.pos (digits2_pos mx)).
  set (dx := Z.pos (digits2_pos mx)) in *.
  set (e' := Z.min (fexp 53 1024 (Z.div2 (dx + ex + 1))) (Z.div2 ex)).
  assert (fexp 53 1024 (Z.div2 (dx + ex + 1))
          = Z.max (Z.div2 (dx + ex + 1) - 53) (-1074)) as Hfexp by reflexivity.
  pose proof (Zdiv2_odd_eqn ex) as Hex.
  pose proof (Zdiv2_odd_eqn (dx + ex + 1)) as Hdex.
  set (s := ex - 2 * e').
  assert (0 ≤ s) as Hs.
  { unfold s, e'. destruct (Z.odd ex); lia. }
  set (m' := match s with Z.pos _ => Z.shiftl (Z.pos mx) s | 0 => Z.pos mx | Z.neg _ => 0 end).
  assert (m' = Z.pos mx * 2 ^ s) as Hm'.
  { unfold m'. destruct s as [|p|p] eqn:Hp; [simpl; lia| |lia].
    rewrite Z.shiftl_mul_pow2 by lia. done. }
  assert (0 < 2 ^ s) as Hps by (apply Z.pow_pos_nonneg; lia).
  pose proof (Z.sqrtrem_spec m' ltac:(lia)) as Hsq.
  destruct (Z.sqrtrem m') as [q r]. destruct Hsq as [Hq Hr].
  destruct (digits2_pos_bounds mx) as [_ Hmx]. fold dx in Hmx.
  assert (0 ≤ q) as Hq0 by lia.
  replace (k + 2) with (k + 1 + 1) by lia.
  apply binary_round_aux_small; [done| |lia].
  destruct (decide (q = 0)) as [->|Hne].
  { simpl. unfold e'. destruct (Z.odd (dx + ex + 1)); lia. }
  assert (2 * Zdigits2 q ≤ dx + s + 1) as Hdq.
  { destruct q as [|p|p]; [done| |lia]. simpl.
    destruct (digits2_pos_bounds p) as [Hp _].
    set (dq := Z.pos (digits2_pos p)) in *.
    assert (2 ^ (dq - 1) * 2 ^ (dq - 1) < 2 ^ dx * 2 ^ s) as Hlt.
    { assert (0 < 2 ^ (dq - 1)) by (apply Z.pow_pos_nonneg; lia). nia. }
    rewrite <- !Z.pow_add_r in Hlt by lia.
    apply Z.pow_lt_mono_r_iff in Hlt; lia. }
  unfold s in Hdq. lia.
Qed.


Lemma Zdigits2_ge (m k : Z) : 0 ≤ k → 2 ^ k ≤ m → k + 1 ≤ Zdigits2 m.
Proof.
  intros Hk Hm.
  assert (0 < 2 ^ k) by (apply Z.pow_pos_nonneg; lia).
  pose proof (Zdigits2_lt m ltac:(lia)) as Hlt.
  pose proof (Zdigits2_nonneg m).
  assert (2 ^ k < 2 ^ Zdigits2 m) as Hpow by lia.
  apply Z.pow_lt_mono_r_iff in Hpow; lia.
Qed.

Lemma shr_1_lower (mrs : shr_record) (k : Z) :
  0 ≤ k → 2 ^ (k + 1) ≤ shr_m mrs → 2 ^ k ≤ shr_m (shr_1 mrs).
Proof.
  intros Hk. destruct mrs as [m r s]. simpl.
  rewrite Z.pow_add_r by lia. change (2 ^ 1) with 2.
  assert (0 < 2 ^ k) by (apply Z.pow_pos_nonneg; lia).
  destruct m as [|[p|p|]|p]; simpl; lia.
Qed.

Lemma iter_shr_1_lower (p : positive) :
  ∀ (mrs : shr_record) (k : Z),
    0 ≤ k → 2 ^ (k + Z.pos p) ≤ shr_m mrs →
    2 ^ k ≤ shr_m (SpecFloat.iter_pos shr_1 p mrs).
Proof.
  induction p as [p IH|p IH|]; intros mrs k Hk Hm; simpl.
  - apply IH; [done|]. apply IH; [lia|]. apply shr_1_lower; [lia|].
    replace (k + Z.pos p + Z.pos p + 1) with (k + Z.pos p~1) by lia. done.
  - apply IH; [done|]. apply IH; [lia|].
    replace (k + Z.pos p + Z.pos p) with (k + Z.pos p~0) by lia. done.
  - by apply shr_1_lower.
Qed.

Lemma shr_fexp_lower (m e : Z) (l : location) :
  0 < m → -1021 ≤ Zdigits2 m + e →
  ∃ mrs e', shr_fexp 53 1024 m e l = (mrs, e')
    ∧ 0 < shr_m mrs ∧ Zdigits2 m + e ≤ Zdigits2 (shr_m mrs) + e'.
Proof.
  intros Hm Hlow. unfold shr_fexp, shr.
  assert (fexp 53 1024 (Zdigits2 m + e) = Z.max (Zdigits2 m + e - 53) (-1074))
    as Hfexp by reflexivity.
  destruct (fexp 53 1024 (Zdigits2 m + e) - e) as [|n|n] eqn:Hn.
  - eexists _, _. split; [done|]. rewrite shr_m_of_loc. lia.
  - eexists _, _. split; [done|].
    assert (2 ^ 52 ≤ shr_m (SpecFloat.iter_pos shr_1 n (shr_record_of_loc m l))) as Hres.
    { apply iter_shr_1_lower; [lia|]. rewrite shr_m_of_loc.
      destruct m as [|p|p]; [lia| |lia]. simpl in *.
      destruct (digits2_pos_bounds p) as [Hp _].
      replace (52 + Z.pos n) with (Z.pos (digits2_pos p) - 1) by lia. done. }
    split; [lia|].
    pose proof (Zdigits2_ge _ 52 ltac:(lia) Hres). lia.
  - eexists _, _. split; [done|]. rewrite shr_m_of_loc. lia.
Qed.

Lemma binary_round_aux_finite (mx ex : Z) (lx : location) (K : Z) :
  0 < mx → -1021 ≤ Zdigits2 mx + ex ≤ K → K ≤ 900 →
  ∃ m e, binary_round_aux 53 1024 false mx ex lx = S754_finite false m e
    ∧ Zdigits2 mx + ex ≤ Z.pos (digits2_pos m) + e ≤ K + 1.
Proof.
  intros Hm HK Hrange.
  pose proof (binary_round_aux_small mx ex lx K ltac:(lia) ltac:(lia) ltac:(lia)) as Hsmall.
  unfold binary_round_aux in *.
  destruct (shr_fexp_lower mx ex lx Hm ltac:(lia)) as (mrs1 & e1 & Heq1 & Hm1 & Hd1).
  rewrite Heq1 in *.
  set (m1 := round_nearest_even (shr_m mrs1) (loc_of_shr_record mrs1)) in *.
  pose proof (round_nearest_even_bound (shr_m mrs1) (loc_of_shr_record mrs1)
                ltac:(lia)) as Hr.
  fold m1 in Hr.
  pose proof (Zdigits2_mono (shr_m mrs1) m1 ltac:(lia)) as Hmono.
  destruct (shr_fexp_lower m1 e1 loc_Exact ltac:(lia) ltac:(lia))
    as (mrs2 & e2 & Heq2 & Hm2 & Hd2).
  rewrite Heq2 in *.
  destruct (shr_m mrs2) as [|p|p] eqn:Hp; [lia| |lia].
  destruct (e2 <=? 1024 - 53) eqn:He; [|done].
  exists p, e2. split; [done|]. simpl in Hsmall, Hd2. lia.
Qed.

Lemma Z2double_pos (n : Z) :
  1 ≤ n ≤ INT_MAX →
  ∃ m e, Prim2SF (Z2double n) = S754_finite false m e
    ∧ 1 ≤ Z.pos (digits2_pos m) + e ≤ 32.
Proof.
  intros Hn. destruct n as [|p|p]; [lia| |lia].
  unfold Z2double. rewrite of_uint63_spec.
  assert (Uint63Axioms.to_Z (Uint63.of_Z (Z.pos p)) = Z.pos p) as ->.
  { rewrite Uint63.of_Z_spec. apply Z.mod_small. unfold INT_MAX in Hn.
    change Uint63.wB with (2 ^ 63). lia. }
  unfold FloatOps.prec, FloatOps.emax. cbn [binary_normalize]. unfold binary_round.
  pose proof (shl_align_digits p 0 (fexp 53 1024 (Z.pos (digits2_pos p) + 0))) as Hal.
  destruct (shl_align p 0 _) as [mz ez]. simpl in Hal.
  assert (Z.pos (digits2_pos p) ≤ 31) as Hd.
  { change (Z.pos (digits2_pos p)) with (Zdigits2 (Z.pos p)).
    apply Zdigits2_le; [lia|]. unfold INT_MAX in Hn. lia. }
  destruct (binary_round_aux_finite (Z.pos mz) ez loc_Exact 31)
    as (m & e & Heq & Hlow & Hup); [lia|simpl; lia|lia|].
  exists m, e. split; [done|]. simpl in Hlow. lia.
Qed.

Lemma Z2double_small (n : Z) :
  0 ≤ n ≤ INT_MAX → small 32 (Prim2SF (Z2double n)).
Proof.
  intros Hn. destruct (decide (n = 0)) as [->|Hne]; [done|].
  destruct (Z2double_pos n ltac:(lia)) as (m & e & -> & Hm). simpl. lia.
Qed.

Lemma Prim2SF_0 : Prim2SF 0 = S754_zero false.
Proof. by vm_compute. Qed.

Lemma Prim2SF_1024 : Prim2SF 1024 = S754_finite false 4503599627370496 (-42).
Proof. by vm_compute. Qed.

Lemma Prim2SF_half : Prim2SF 0.5 = S754_finite false 4503599627370496 (-53).
Proof. by vm_compute. Qed.

Lemma Prim2SF_FLT_MAX : Prim2SF FLT_MAX = S754_finite false 9007198717870080 75.
Proof. by vm_compute. Qed.

Lemma valid_binary_exponent (s : bool) (m : positive) (e : Z) :
  valid_binary (S754_finite s m e) = true →
  e = Z.max (Z.pos (digits2_pos m) + e - 53) (-1074).
Proof.
  unfold SpecFloat.valid_binary, bounded, canonical_mantissa.
  intros [Hcanon _]%andb_prop. apply Z.eqb_eq in Hcanon. rewrite <- Hcanon at 1.
  reflexivity.
Qed.

Lemma leb_small (x : float) :
  (0 <=? x)%float = true → (x <=? 1024)%float = true → small 11 (Prim2SF x).
Proof.
  rewrite !leb_spec. pose proof (Prim2SF_valid x) as Hvalid.
  rewrite Prim2SF_0, Prim2SF_1024.
  destruct (Prim2SF x) as [s|[]| |[] m e]; try done.
  apply valid_binary_exponent in Hvalid.
  intros _. unfold SFleb, SFcompare. cbn [small].
  destruct (e ?= -42) eqn:He.
  - apply Z.compare_eq in He. intros _. lia.
  - rewrite Z.compare_lt_iff in He. intros _. lia.
  - done.
Qed.

Lemma small_ltb_FLT_MAX (x : float) :
  small 126 (Prim2SF x) → (x <? FLT_MAX)%float = true.
Proof.
  rewrite ltb_spec. pose proof (Prim2SF_valid x) as Hvalid.
  rewrite Prim2SF_FLT_MAX.
  destruct (Prim2SF x) as [s|[]| |[] m e]; try done.
  apply valid_binary_exponent in Hvalid.
  cbn [small]. intros Hm. unfold SFltb, SFcompare.
  assert (e < 75) as He by lia. apply Z.compare_lt_iff in He. by rewrite He.
Qed.

End Rounding.

Section Bound.
Context `{L : StdLib}.

Lemma ucb_below_FLT_MAX (win visit total : Z) :
  0 ≤ win ≤ INT_MAX → 1 ≤ visit ≤ INT_MAX → log_in_range total →
  (ucb win visit total <? FLT_MAX)%float = true.
Proof.
  intros Hwin Hvisit [Hlog0 Hlog1]. apply small_ltb_FLT_MAX. unfold ucb.
  destruct (Z2double_pos visit Hvisit) as (mv & ev & Hv & Hmv).
  rewrite add_spec, mul_spec, sqrt_spec, !div_spec, Hv.
  unfold SF64add, SF64mul, SF64sqrt, SF64div, FloatOps.prec, FloatOps.emax.
  apply (small_mono 35); [lia|].
  apply (SFadd_small 33); [lia| |].
  - apply (SFdiv_small 32); [lia| |lia]. by apply Z2double_small.
  - apply (small_mono 15); [lia|].
    rewrite Prim2SF_half.
    apply (SFmul_small 0 14); [lia|simpl; lia|].
    apply (SFsqrt_small 12); [lia|].
    apply (SFdiv_small 11); [lia| |lia]. by apply leb_small.
Qed.

End Bound.

(** ** The counts and the scores: the theorems *)

Section CountTheorems.
Context `{B : Board} `{L : StdLib}.

Lemma bump_scored (win : bool) (t : Z) (x : Node) :
  0 ≤ t →
  (visit_count x = 0 ∧ win_count x = 0 ∧ value x = FLT_MAX)
  ∨ (∃ t0, 1 ≤ t0 ≤ t ∧ 1 ≤ visit_count x ≤ t0
       ∧ 0 ≤ win_count x ≤ visit_count x
       ∧ value x = ucb (win_count x) (visit_count x) t0) →
  ∃ t0, 1 ≤ t0 ≤ t + 1
    ∧ 1 ≤ visit_count (bump win (t + 1) x) ≤ t0
    ∧ 0 ≤ win_count (bump win (t + 1) x) ≤ visit_count (bump win (t + 1) x)
    ∧ value (bump win (t + 1) x)
      = ucb (win_count (bump win (t + 1) x)) (visit_count (bump win (t + 1) x)) t0.
Proof.
  intros Ht Hx. exists (t + 1). simpl.
  destruct Hx as [(Hv & Hw & _)|(t0 & Ht0 & Hv & Hw & _)];
    destruct win; repeat split; lia.
Qed.

Lemma backpropogation_scored h node r winner t h' :
  tree_ok h → h !! 0%nat = Some r → (node < length h)%nat →
  0 ≤ t → scored t h →
  backpropogation h 0 node winner (t + 1) = Some h' → scored (t + 1) h'.
Proof.
  intros Hok Hr Hnode Ht Hscored Hbp i nd' Hi.
  destruct (backpropogation_lookup h node r winner (t + 1) Hok Hr Hnode)
    as (h'' & Hbp' & Hlook).
  assert (h'' = h') as -> by congruence.
  rewrite Hlook in Hi.
  destruct (h !! i) as [x|] eqn:Hx.
  2:{ by destruct (decide (i ∈ chain (length h) h (Some node))). }
  pose proof (Hscored i x Hx) as Hsx.
  destruct (decide (i ∈ chain (length h) h (Some node)));
    simpl in Hi; injection Hi as <-.
  - right. by apply bump_scored.
  - destruct Hsx as [Hnew|(t0 & Ht0 & Hrest)]; [by left|].
    right. exists t0. split; [lia|done].
Qed.

(** A visited node of a scored tree scores below FLT_MAX. *)
Lemma scored_value (bound : Z) (h : list Node) i nd :
  scored bound h → bound ≤ INT_MAX →
  (∀ t, 1 ≤ t ≤ bound → log_in_range t) →
  h !! i = Some nd →
  (visit_count nd = 0 ∧ value nd = FLT_MAX)
  ∨ (1 ≤ visit_count nd ∧ (value nd <? FLT_MAX)%float = true).
Proof.
  intros Hscored Hbound Hlog Hi.
  destruct (Hscored i nd Hi) as [(Hv & _ & Hval)|(t & Ht & Hv & Hw & Hval)];
    [by left|].
  right. split; [lia|]. rewrite Hval.
  apply ucb_below_FLT_MAX; [lia|lia|]. apply Hlog. lia.
Qed.

(** In a scored tree the scan of select takes the first unvisited child. *)
Lemma select_index_prefers_unvisited (bound : Z) (h : list Node) i nd vals :
  scored bound h → bound ≤ INT_MAX →
  (∀ t, 1 ≤ t ≤ bound → log_in_range t) →
  h !! i = Some nd → child_values h (children nd) = Some vals →
  (∃ c cn, c ∈ children nd ∧ h !! c = Some cn ∧ visit_count cn = 0) →
  ∃ c cn, children nd !! select_index vals = Some c ∧ h !! c = Some cn
    ∧ visit_count cn = 0
    ∧ ∀ j c' cn', (j < select_index vals)%nat →
        children nd !! j = Some c' → h !! c' = Some cn' →
        1 ≤ visit_count cn'.
Proof.
  intros Hscored Hbound Hlog Hi Hvals (c0 & cn0 & Hc0 & Hcn0 & Hv0).
  pose proof (mapM_Some_1 _ _ _ Hvals) as Hall.
  assert (∀ j c cn, children nd !! j = Some c → h !! c = Some cn →
            vals !! j = Some (value cn)) as Hval.
  { intros j c cn Hj Hc.
    destruct (Forall2_lookup_l _ _ _ _ _ Hall Hj) as (v & Hv & Heq).
    rewrite Hc in Heq. simpl in Heq. congruence. }
  assert (∀ j v, vals !! j = Some v →
            ∃ c cn, children nd !! j = Some c ∧ h !! c = Some cn ∧ value cn = v)
    as Hchild.
  { intros j v Hj.
    destruct (Forall2_lookup_r _ _ _ _ _ Hall Hj) as (c & Hc & Heq).
    destruct (h !! c) as [cn|] eqn:Hcn; simpl in Heq; [|done].
    exists c, cn. repeat split; congruence. }
  destruct (select_index_unvisited vals) as [Hsel Hfirst].
  { apply list_elem_of_lookup_1 in Hc0 as [j Hj].
    apply (list_elem_of_lookup_2 _ j). rewrite (Hval j c0 cn0 Hj Hcn0).
    destruct (scored_value bound h c0 cn0 Hscored Hbound Hlog Hcn0)
      as [[_ ->]|[? _]]; [done|lia]. }
  { apply Forall_lookup. intros j v Hj.
    destruct (Hchild j v Hj) as (c & cn & _ & Hcn & <-).
    destruct (scored_value bound h c cn Hscored Hbound Hlog Hcn)
      as [[_ ?]|[_ ?]]; [by left|by right]. }
  destruct (Hchild _ _ Hsel) as (c & cn & Hc & Hcn & Hmax).
  exists c, cn. split; [done|]. split; [done|]. split.
  - destruct (scored_value bound h c cn Hscored Hbound Hlog Hcn)
      as [[? _]|[_ Hlt]]; [done|].
    rewrite Hmax, ltb_irrefl in Hlt. done.
  - intros j c' cn' Hj Hc' Hcn'.
    destruct (scored_value bound h c' cn' Hscored Hbound Hlog Hcn')
      as [[_ Hnew]|[? _]]; [|done].
    exfalso. apply (Hfirst j Hj). by rewrite (Hval j c' cn' Hc' Hcn'), Hnew.
Qed.

Lemma root_rounds_scored fuel (p : MCTS_player) st side h0 k p' h t :
  expand p [new_node st side None default_place] 0 = Some h0 →
  rounds fuel k p h0 0 = Some (p', h, t) →
  t = Z.of_nat k ∧ scored t h
  ∧ ∀ i nd, h !! i = Some nd → 0 ≤ win_count nd ≤ visit_count nd ≤ t.
Proof.
  intros Hexp Hrounds.
  set (root := new_node st side None default_place) in *.
  rewrite (expand_closed p [root] 0 root) in Hexp by done. injection Hexp as <-.
  set (h0 := expanded _ _ _ _ _) in *.
  destruct (root_search_shape st side) as (Hok & _). fold root in Hok.
  assert (tree_ok h0) as Hok0 by (by apply expanded_tree_ok).
  pose proof (root_expanded_scored p st side
                (legal_moves (space_for root p) (state root))) as Hs0.
  fold root h0 in Hs0.
  pose proof (rounds_total _ _ _ _ _ _ _ _ Hrounds) as Ht.
  split; [lia|].
  split; [by apply (rounds_scored fuel k p h0 0 p' h t)|].
  intros i nd Hi.
  destruct (rounds_counts _ _ _ _ _ _ _ _ Hok0 Hrounds i nd Hi)
    as [(x & Hx & Hw & Hv)|(_ & Hw & Hv)]; [|lia].
  destruct (Hs0 i x Hx) as [(Hxv & Hxw & _)|(t0 & ? & _)]; lia.
Qed.

(** X9. During a search the nodes stay where they are: over any number of
    passes through the loop, on a tree whose counts and total are ints that
    this many increments do not overflow (the counts are at most [m], and
    [m] and the total plus the number of passes stay within INT_MAX), no
    node is removed, no node changes its board, move, side or parent,
    children are only appended, no count decreases, a win count grows by at
    most what the visit count grows, the visit count of the root and the
    total grow by exactly one per pass, and every count of the tree after
    the passes is an int. *)
Theorem rounds_monotone (fuel k : nat) :
  ∀ p h t p' h' t' m,
    tree_ok h →
    0 ≤ m → m + Z.of_nat k ≤ INT_MAX →
    INT_MIN ≤ t → t + Z.of_nat k ≤ INT_MAX →
    (∀ i nd, h !! i = Some nd →
       INT_MIN ≤ win_count nd ≤ m ∧ INT_MIN ≤ visit_count nd ≤ m) →
    rounds fuel k p h t = Some (p', h', t') →
    tree_ok h' ∧ (length h ≤ length h')%nat
    ∧ t' = t + Z.of_nat k ∧ INT_MIN ≤ t' ≤ INT_MAX
    ∧ (∀ i nd, h !! i = Some nd →
        ∃ nd', h' !! i = Some nd' ∧ core nd' = core nd ∧ parent nd' = parent nd
          ∧ children nd `prefix_of` children nd'
          ∧ 0 ≤ win_count nd' - win_count nd ≤ visit_count nd' - visit_count nd
          ∧ visit_count nd' - visit_count nd ≤ Z.of_nat k
          ∧ (i = 0%nat → visit_count nd' = visit_count nd + Z.of_nat k))
    ∧ (∀ i nd', h' !! i = Some nd' →
         counts_int nd'
         ∧ win_count nd' ≤ m + Z.of_nat k
         ∧ visit_count nd' ≤ m + Z.of_nat k).
Proof.
  intros p h t p' h' t' m Hok Hm Hmk Ht Htk Hcounts Hrounds.
  destruct (rounds_nodes _ _ _ _ _ _ _ _ Hok Hrounds) as (Hok' & Hlen & Hnodes).
  pose proof (rounds_total _ _ _ _ _ _ _ _ Hrounds) as Ht'.
  split; [done|]. split; [done|]. split; [done|]. split; [lia|].
  split; [done|].
  intros i nd' Hi. unfold counts_int, INT_MIN in *.
  destruct (rounds_counts _ _ _ _ _ _ _ _ Hok Hrounds i nd' Hi)
    as [(nd & Hnd & Hw & Hv)|(_ & Hw & Hv)].
  - destruct (Hcounts i nd Hnd) as [Hcw Hcv]. lia.
  - lia.
Qed.

(** C7. From a node of a tree rooted at node 0 in which the counts of the
    parent chain are ints below INT_MAX, so that no increment overflows,
    backpropogation returns a store of the same nodes in which every node
    on the parent chain of the given node, the node and the root included
    and each once, has visit_count one higher and win_count one higher
    exactly when the winner differs from the root's side, the same verdict
    for the whole chain, both still ints; every node off the chain is as
    before, and on the chain only the two counts and the value change. The
    bound 0 <= win_count <= visit_count is kept, is kept by expand, and
    holds in a new node, so it holds in the tree at the end of the loop of
    take_action, where no visit_count exceeds the number of passes. *)
Theorem backpropogation_spec (h : list Node) (node : nat) (r : Node)
    (winner : piece_type) (t : Z) :
  tree_ok h → h !! 0%nat = Some r → (node < length h)%nat →
  let win := bool_decide (winner ≠ node_who r) in
  let path := chain (length h) h (Some node) in
  (∀ i nd, h !! i = Some nd → i ∈ path → counts_below_max nd) →
  ∃ h',
    backpropogation h 0 node winner t = Some h'
    ∧ length h' = length h
    ∧ node ∈ path ∧ 0%nat ∈ path ∧ NoDup path
    ∧ (∀ i nd, h !! i = Some nd → i ∈ path →
         ∃ nd', h' !! i = Some nd'
           ∧ visit_count nd' = visit_count nd + 1
           ∧ win_count nd' = (if win then win_count nd + 1 else win_count nd)
           ∧ counts_int nd'
           ∧ state nd' = state nd ∧ parent nd' = parent nd
           ∧ last_action nd' = last_action nd ∧ children nd' = children nd
           ∧ node_who nd' = node_who nd)
    ∧ (∀ i, i ∉ path → h' !! i = h !! i)
    ∧ (counts_ok h → counts_ok h')
    ∧ (∀ st side up move,
         let fresh := new_node st side up move in
         0 ≤ win_count fresh ≤ visit_count fresh)
    ∧ (∀ p n h1, counts_ok h → expand p h n = Some h1 → counts_ok h1)
    ∧ (∀ fuel ticks q st q' tree total,
         search fuel ticks q st = Some (q', tree, total) →
         counts_ok tree
         ∧ ∀ i nd, tree !! i = Some nd → visit_count nd ≤ total).
Proof.
  intros Hok Hr Hnode win path Hints.
  destruct (backpropogation_lookup h node r winner t Hok Hr Hnode) as (h' & Hbp & Hlook).
  fold win path in Hlook.
  exists h'. split; [done|]. split.
  { apply (lookup_same_length h h'
             (λ i nd, if decide (i ∈ path) then bump win t nd else nd)).
    intros i. rewrite Hlook. destruct (decide (i ∈ path)); [done|].
    by destruct (h !! i). }
  split.
  { unfold path. destruct (length h) eqn:Hlen; [lia|]. simpl. by left. }
  split; [apply chain_root; [done|done|lia]|].
  split; [apply chain_NoDup; by apply tree_ok_parents_earlier|].
  split.
  { intros i nd Hi Hin. exists (bump win t nd). rewrite Hlook, Hi.
    rewrite decide_True by done.
    split; [done|]. split; [done|]. split; [done|]. split; [|done].
    destruct (Hints i nd Hi Hin) as [Hw Hv].
    unfold counts_int. simpl. destruct win; lia. }
  split.
  { intros i Hin. rewrite Hlook. by rewrite decide_False. }
  split.
  { intros Hc i x Hx. rewrite Hlook in Hx.
    destruct (h !! i) as [nd|] eqn:Hi.
    2:{ by destruct (decide (i ∈ path)). }
    specialize (Hc i nd Hi).
    destruct (decide (i ∈ path)); simpl in Hx; injection Hx as <-; [|done].
    simpl. destruct win; lia. }
  split; [simpl; lia|].
  split; [intros p n h1; apply expand_counts_ok|].
  intros fuel ticks q st q' tree total Hs.
  destruct (search_start _ _ _ _ _ _ _ Hs) as (h0 & k & budget & Hexp & _ & Hrounds & _).
  destruct (root_rounds_scored _ _ _ _ _ _ _ _ _ Hexp Hrounds) as (_ & _ & Hcounts).
  split.
  - intros i nd Hi. specialize (Hcounts i nd Hi). lia.
  - intros i nd Hi. specialize (Hcounts i nd Hi). lia.
Qed.

(** C8, as amended. A new node has value FLT_MAX, the largest finite
    single-precision number (2^24 - 1) * 2^104 held in a double, which is
    not the largest double. Every value compute_value gives to a visited
    node is below FLT_MAX (for counts within int and a logarithm of the
    total between 0 and 1024), so in the tree of a search the scan of
    select takes an unvisited child, the first one, over every visited
    sibling. backpropogation gives every node of the parent chain the value
    win_count / visit_count + 0.5 * sqrt (log total / visit_count) of its
    new counts and leaves the other nodes as they are; the total passed is
    the counter of take_action, which starts at 0 and is incremented in
    every pass through the loop before backpropogation is called, so it is
    the number of simulations run so far (while it is within int); after
    every pass each node of the tree is either unvisited, with value
    FLT_MAX, or holds the value computed from its counts and the total of a
    pass, and its counts are ints. *)
Theorem score_spec :
  (∀ st side up move, value (new_node st side up move) = FLT_MAX)
  ∧ Prim2SF FLT_MAX = S754_finite false (2 ^ 53 - 2 ^ 29) 75
  ∧ (∀ win visit total,
       ucb win visit total
       = (Z2double win / Z2double visit
          + 0.5 * sqrt (log (Z2double total) / Z2double visit))%float)
  ∧ (∀ win visit total,
       0 ≤ win ≤ visit → 1 ≤ visit ≤ INT_MAX → log_in_range total →
       (ucb win visit total <? FLT_MAX)%float = true)
  ∧ (∀ bound h i nd vals,
       scored bound h → bound ≤ INT_MAX →
       (∀ t, 1 ≤ t ≤ bound → log_in_range t) →
       h !! i = Some nd → child_values h (children nd) = Some vals →
       (∃ c cn, c ∈ children nd ∧ h !! c = Some cn ∧ visit_count cn = 0) →
       ∃ c cn, children nd !! select_index vals = Some c ∧ h !! c = Some cn
         ∧ visit_count cn = 0
         ∧ ∀ j c' cn', (j < select_index vals)%nat →
             children nd !! j = Some c' → h !! c' = Some cn' →
             1 ≤ visit_count cn')
  ∧ (∀ h node r winner total,
       tree_ok h → h !! 0%nat = Some r → (node < length h)%nat →
       (∀ i nd, h !! i = Some nd → i ∈ chain (length h) h (Some node) →
          counts_below_max nd) →
       ∃ h', backpropogation h 0 node winner total = Some h'
         ∧ ∀ i nd, h !! i = Some nd →
             ∃ nd', h' !! i = Some nd'
               ∧ (i ∈ chain (length h) h (Some node) →
                  value nd' = ucb (win_count nd') (visit_count nd') total
                  ∧ counts_int nd')
               ∧ (i ∉ chain (length h) h (Some node) → nd' = nd))
  ∧ (∀ fuel p h t p' h' t',
       INT_MIN ≤ t < INT_MAX →
       round fuel p h t = Some (p', h', t') →
       t' = t + 1 ∧ INT_MIN ≤ t' ≤ INT_MAX
       ∧ ∃ leaf h1 winner, backpropogation h1 0 leaf winner (t + 1) = Some h')
  ∧ (∀ fuel ticks p st p' h t,
       search fuel ticks p st = Some (p', h, t) →
       scored t h
       ∧ ∃ p0 h0 k, rounds fuel k p0 h0 0 = Some (p', h, t) ∧ t = Z.of_nat k)
  ∧ (∀ fuel p st side h0 k p' h t,
       Z.of_nat k ≤ INT_MAX →
       expand p [new_node st side None default_place] 0 = Some h0 →
       rounds fuel k p h0 0 = Some (p', h, t) →
       t = Z.of_nat k ∧ scored t h
       ∧ ∀ i nd, h !! i = Some nd → counts_int nd).
Proof.
  split; [done|]. split; [by vm_compute|]. split; [done|].
  split.
  { intros win visit total Hwin Hvisit Hlog.
    apply ucb_below_FLT_MAX; [lia|done|done]. }
  split; [apply select_index_prefers_unvisited|].
  split.
  { intros h node r winner total Hok Hr Hnode Hints.
    destruct (backpropogation_lookup h node r winner total Hok Hr Hnode)
      as (h' & Hbp & Hlook).
    exists h'. split; [done|]. intros i nd Hi. rewrite Hlook, Hi.
    destruct (decide (i ∈ chain (length h) h (Some node))) as [Hin|Hout].
    - eexists. split; [done|]. split; [|done]. intros _. split; [done|].
      destruct (Hints i nd Hi Hin) as [Hw Hv].
      unfold counts_int. simpl.
      destruct (bool_decide (winner ≠ node_who r)); lia.
    - exists nd. by repeat split. }
  split.
  { intros fuel p h t p' h' t' Ht Hr.
    apply round_total in Hr as (-> & leaf & h1 & winner & p1 & _ & _ & _ & Hbp & _).
    split; [done|]. split; [lia|]. by exists leaf, h1, winner. }
  split.
  { intros fuel ticks p st p' h t Hs. split; [|by eapply search_rounds].
    destruct (search_start _ _ _ _ _ _ _ Hs)
      as (h0 & k & budget & Hexp & _ & Hrounds & _).
    by destruct (root_rounds_scored _ _ _ _ _ _ _ _ _ Hexp Hrounds) as (_ & ? & _). }
  intros fuel p st side h0 k p' h t Hk Hexp Hrounds.
  destruct (root_rounds_scored _ _ _ _ _ _ _ _ _ Hexp Hrounds)
    as (Ht & Hscored & Hcounts).
  split; [done|]. split; [done|]. intros i nd Hi.
  specialize (Hcounts i nd Hi). unfold counts_int, INT_MIN. lia.
Qed.

End CountTheorems.

(** ** The counts and the scores at concrete inputs *)

Section CountRuns.
Import Grid.

Lemma example_tree0_scored : scored 0 example_tree0.
Proof.
  unfold example_tree0.
  rewrite (expand_closed black_player [example_root] 0 example_root) by done.
  apply (root_expanded_scored black_player).
Qed.

Lemma example_tree0_expand :
  expand black_player [new_node two_left white None default_place] 0
  = Some example_tree0.
Proof.
  unfold example_tree0. fold example_root.
  by rewrite (expand_closed black_player [example_root] 0 example_root).
Qed.

Lemma example_tree0_counts i nd :
  example_tree0 !! i = Some nd → win_count nd = 0 ∧ visit_count nd = 0.
Proof.
  intros Hi. destruct (example_tree0_scored i nd Hi)
    as [(? & ? & _)|(t & ? & _)]; [done|lia].
Qed.

Lemma example_tree_backpropogation :
  backpropogation example_tree0 0 1 black 1 = Some example_tree.
Proof.
  destruct (backpropogation_lookup example_tree0 1
              (add_children example_root [1; 2]%nat) black 1)
    as (h' & Hbp & _); [exact example_tree0_ok|reflexivity|vm_compute; lia|].
  unfold example_tree. by rewrite Hbp.
Qed.

Lemma example_tree_scored : scored 1 example_tree.
Proof.
  apply (backpropogation_scored example_tree0 1
           (add_children example_root [1; 2]%nat) black 0).
  - exact example_tree0_ok.
  - reflexivity.
  - vm_compute; lia.
  - lia.
  - exact example_tree0_scored.
  - exact example_tree_backpropogation.
Qed.

Lemma log_in_range_1 : log_in_range (L:=grid_stdlib) 1.
Proof. split; by vm_compute. Qed.

Lemma constructor_failure_witness :
  new_MCTS_player (L:=grid_stdlib) "seed=x name=a:b role=green" = Throw invalid_seed
  ∧ new_player (L:=grid_stdlib) "seed=x name=a:b role=green" = Throw invalid_seed.
Proof.
  destruct (constructor_failure (L:=grid_stdlib)
              "seed=x name=a:b role=green" invalid_seed) as [Hsame Hcase].
  assert (new_MCTS_player (L:=grid_stdlib) "seed=x name=a:b role=green"
          = Throw invalid_seed) as Hthrow.
  { apply Hcase. exists "x"%string. split; reflexivity. }
  split; [exact Hthrow|apply Hsame; exact Hthrow].
Defined.

Lemma rounds_monotone_witness :
  ∃ p' h' t', rounds 10 1 black_player example_tree0 0 = Some (p', h', t')
    ∧ tree_ok h' ∧ t' = 1
    ∧ ∀ i nd', h' !! i = Some nd' → counts_int nd'.
Proof.
  assert (is_Some (rounds 10 1 black_player example_tree0 0))
    as [[[p' h'] t'] Hr].
  { apply (bool_decide_unpack _). by vm_compute. }
  destruct (rounds_monotone 10 1 black_player example_tree0 0 p' h' t' 0)
    as (Hok & _ & Ht & _ & _ & Hint).
  - exact example_tree0_ok.
  - lia.
  - unfold INT_MAX. lia.
  - unfold INT_MIN. lia.
  - unfold INT_MAX. lia.
  - intros i nd Hi. destruct (example_tree0_counts i nd Hi) as [-> ->].
    unfold INT_MIN. lia.
  - exact Hr.
  - exists p', h', t'. split; [exact Hr|]. split; [exact Hok|].
    split; [exact Ht|]. intros i nd' Hi. by destruct (Hint i nd' Hi).
Defined.

Lemma backpropogation_spec_witness :
  ∃ h', backpropogation example_tree0 0 1 black 1 = Some h'
    ∧ length h' = length example_tree0.
Proof.
  destruct (backpropogation_spec example_tree0 1
              (add_children example_root [1; 2]%nat) black 1)
    as (h' & Hbp & Hlen & _).
  - exact example_tree0_ok.
  - reflexivity.
  - vm_compute; lia.
  - intros i nd Hi _. destruct (example_tree0_counts i nd Hi) as [Hw Hv].
    unfold counts_below_max, INT_MIN, INT_MAX. rewrite Hw, Hv. lia.
  - exists h'. exact (conj Hbp Hlen).
Defined.

Lemma score_spec_witness :
  (ucb (L:=grid_stdlib) 1 1 1 <? FLT_MAX)%float = true
  ∧ (∃ nd vals c cn,
       example_tree !! 0%nat = Some nd
       ∧ child_values example_tree (children nd) = Some vals
       ∧ children nd !! select_index vals = Some c
       ∧ example_tree !! c = Some cn ∧ visit_count cn = 0)
  ∧ (∃ h', backpropogation example_tree0 0 1 black 1 = Some h')
  ∧ ∃ p' h t, rounds 10 1 black_player example_tree0 0 = Some (p', h, t)
      ∧ t = 1 ∧ scored t h.
Proof.
  destruct (score_spec (B:=grid_board) (L:=grid_stdlib))
    as (_ & _ & _ & Hbelow & Hsel & Hbp & _ & _ & Hrounds).
  split; [|split; [|split]].
  - apply Hbelow; [lia|unfold INT_MAX; lia|exact log_in_range_1].
  - destruct example_tree_ok as ((nd & Hnd & Hpar) & Hrest).
    assert (tree_ok example_tree) as Hok by (split; [by exists nd|done]).
    destruct (child_values_total example_tree 0 nd Hok Hnd) as (vals & Hvals & _).
    assert (children <$> example_tree !! 0%nat = Some [1; 2]%nat) as Hch
      by (by vm_compute).
    rewrite Hnd in Hch. injection Hch as Hch.
    assert (visit_count <$> example_tree !! 2%nat = Some 0) as Hv2
      by (by vm_compute).
    destruct (example_tree !! 2%nat) as [cn2|] eqn:Hcn2; [|done].
    injection Hv2 as Hv2.
    destruct (Hsel 1 example_tree 0%nat nd vals) as (c & cn & Hc & Hcn & Hv & _).
    + exact example_tree_scored.
    + unfold INT_MAX. lia.
    + intros t Ht. assert (t = 1) as -> by lia. exact log_in_range_1.
    + exact Hnd.
    + exact Hvals.
    + exists 2%nat, cn2. rewrite Hch. split; [|done].
      apply elem_of_cons. right. apply elem_of_cons. by left.
    + exists nd, vals, c, cn. exact (conj Hnd (conj Hvals (conj Hc (conj Hcn Hv)))).
  - destruct (Hbp example_tree0 1%nat (add_children example_root [1; 2]%nat) black 1)
      as (h' & Hh' & _).
    + exact example_tree0_ok.
    + reflexivity.
    + vm_compute; lia.
    + intros i nd Hi _. destruct (example_tree0_counts i nd Hi) as [Hw Hv].
      unfold counts_below_max, INT_MIN, INT_MAX. rewrite Hw, Hv. lia.
    + exists h'. exact Hh'.
  - assert (is_Some (rounds 10 1 black_player example_tree0 0))
      as [[[p' h] t] Hr].
    { apply (bool_decide_unpack _). by vm_compute. }
    destruct (Hrounds 10%nat black_player two_left white example_tree0 1%nat p' h t)
      as (Ht & Hscored & _).
    + unfold INT_MAX. lia.
    + exact example_tree0_expand.
    + exact Hr.
    + exists p', h, t. exact (conj Hr (conj Ht Hscored)).
Defined.

End CountRuns.
